(** * A shallow embedding of the shell parser of [syntax/parser.go]

    The parser is a recursive-descent parser that pulls one token at a
    time from a mode-directed lexer and mutates a single [parser]
    struct.  The embedding keeps that shape: the struct is a record, a
    method is a computation in a state monad over it, and the
    recursion of the Go code (which terminates because the input is
    consumed) is driven by a fuel argument.

    Integers ([int], [Pos]) are [Z]; the bit sets [ParseMode] and
    [quoteState] are [Z] with [Z.land]/[Z.lor]; [string] and [[]byte]
    are [string]; a nilable pointer or interface is an [option]. *)

From Stdlib Require Import ZArith List String Ascii Bool Lia DecimalString.
Import ListNotations.
Local Open Scope string_scope.
Local Open Scope Z_scope.

Set Implicit Arguments.

(* ================================================================= *)
(** ** Tokens *)

(** The token set.  The declaration ([tokens.go]) is not part of the
    sources at hand; the constructors are the names [parser.go] uses,
    and the operator types of the AST ([BinAritOperator],
    [RedirOperator], ...) are conversions of [token], so they are
    [token] here and a conversion is the identity. *)
Inductive token : Set :=
  | illegalTok | _EOF | _Lit | _LitWord
  | sglQuote | dblQuote | bckQuote
  | and | andAnd | or | orOr | pipeAll
  | dollar | dollSglQuote | dollDblQuote | dollBrace | dollBrack
  | dollParen | dollDblParen
  | leftBrack | leftParen | dblLeftParen
  | rightBrace | rightBrack | rightParen | dblRightParen
  | semicolon | dblSemicolon | semiFall | dblSemiFall
  | exclMark | addAdd | subSub | star | power
  | equal | nequal | lequal | gequal
  | addAssgn | subAssgn | mulAssgn | quoAssgn | remAssgn
  | andAssgn | orAssgn | xorAssgn | shlAssgn | shrAssgn
  | rdrOut | appOut | rdrIn | rdrInOut | dplIn | dplOut | clbOut
  | hdoc | dashHdoc | wordHdoc | rdrAll | appAll
  | cmdIn | cmdOut
  | plus | colPlus | minus | colMinus | quest | colQuest
  | assgn | colAssgn | percent | dblPercent | hash | dblHash
  | caret | dblCaret | comma | dblComma | slash | dblSlash | colon
  | tsExists | tsRegFile | tsDirect | tsCharSp | tsBlckSp | tsNmPipe
  | tsSocket | tsSmbLink | tsGIDSet | tsUIDSet | tsRead | tsWrite
  | tsExec | tsNoEmpty | tsFdTerm | tsEmpStr | tsNempStr | tsOptSet
  | tsVarSet | tsRefVar
  | tsReMatch | tsNewer | tsOlder | tsDevIno | tsEql | tsNeq
  | tsLeq | tsGeq | tsLss | tsGtr
  | globQuest | globStar | globPlus | globAt | globExcl.

(** Tokens are small integers in Go and are compared with [==]; the
    comparison goes through a numbering of the constructors. *)
Definition tokCode (t : token) : positive :=
  match t with
  | illegalTok => 1 | _EOF => 2 | _Lit => 3 | _LitWord => 4 | sglQuote => 5
  | dblQuote => 6 | bckQuote => 7 | and => 8 | andAnd => 9 | or => 10
  | orOr => 11 | pipeAll => 12 | dollar => 13 | dollSglQuote => 14
  | dollDblQuote => 15 | dollBrace => 16 | dollBrack => 17
  | dollParen => 18 | dollDblParen => 19 | leftBrack => 20
  | leftParen => 21 | dblLeftParen => 22 | rightBrace => 23
  | rightBrack => 24 | rightParen => 25 | dblRightParen => 26
  | semicolon => 27 | dblSemicolon => 28 | semiFall => 29
  | dblSemiFall => 30 | exclMark => 31 | addAdd => 32 | subSub => 33
  | star => 34 | power => 35 | equal => 36 | nequal => 37 | lequal => 38
  | gequal => 39 | addAssgn => 40 | subAssgn => 41 | mulAssgn => 42
  | quoAssgn => 43 | remAssgn => 44 | andAssgn => 45 | orAssgn => 46
  | xorAssgn => 47 | shlAssgn => 48 | shrAssgn => 49 | rdrOut => 50
  | appOut => 51 | rdrIn => 52 | rdrInOut => 53 | dplIn => 54
  | dplOut => 55 | clbOut => 56 | hdoc => 57 | dashHdoc => 58
  | wordHdoc => 59 | rdrAll => 60 | appAll => 61 | cmdIn => 62
  | cmdOut => 63 | plus => 64 | colPlus => 65 | minus => 66
  | colMinus => 67 | quest => 68 | colQuest => 69 | assgn => 70
  | colAssgn => 71 | percent => 72 | dblPercent => 73 | hash => 74
  | dblHash => 75 | caret => 76 | dblCaret => 77 | comma => 78
  | dblComma => 79 | slash => 80 | dblSlash => 81 | colon => 82
  | tsExists => 83 | tsRegFile => 84 | tsDirect => 85 | tsCharSp => 86
  | tsBlckSp => 87 | tsNmPipe => 88 | tsSocket => 89 | tsSmbLink => 90
  | tsGIDSet => 91 | tsUIDSet => 92 | tsRead => 93 | tsWrite => 94
  | tsExec => 95 | tsNoEmpty => 96 | tsFdTerm => 97 | tsEmpStr => 98
  | tsNempStr => 99 | tsOptSet => 100 | tsVarSet => 101 | tsRefVar => 102
  | tsReMatch => 103 | tsNewer => 104 | tsOlder => 105 | tsDevIno => 106
  | tsEql => 107 | tsNeq => 108 | tsLeq => 109 | tsGeq => 110
  | tsLss => 111 | tsGtr => 112 | globQuest => 113 | globStar => 114
  | globPlus => 115 | globAt => 116 | globExcl => 117
  end%positive.

Definition tokOfCode (c : positive) : token :=
  match c with
  | 2 => _EOF | 3 => _Lit | 4 => _LitWord | 5 => sglQuote | 6 => dblQuote
  | 7 => bckQuote | 8 => and | 9 => andAnd | 10 => or | 11 => orOr
  | 12 => pipeAll | 13 => dollar | 14 => dollSglQuote | 15 => dollDblQuote
  | 16 => dollBrace | 17 => dollBrack | 18 => dollParen
  | 19 => dollDblParen | 20 => leftBrack | 21 => leftParen
  | 22 => dblLeftParen | 23 => rightBrace | 24 => rightBrack
  | 25 => rightParen | 26 => dblRightParen | 27 => semicolon
  | 28 => dblSemicolon | 29 => semiFall | 30 => dblSemiFall
  | 31 => exclMark | 32 => addAdd | 33 => subSub | 34 => star | 35 => power
  | 36 => equal | 37 => nequal | 38 => lequal | 39 => gequal
  | 40 => addAssgn | 41 => subAssgn | 42 => mulAssgn | 43 => quoAssgn
  | 44 => remAssgn | 45 => andAssgn | 46 => orAssgn | 47 => xorAssgn
  | 48 => shlAssgn | 49 => shrAssgn | 50 => rdrOut | 51 => appOut
  | 52 => rdrIn | 53 => rdrInOut | 54 => dplIn | 55 => dplOut
  | 56 => clbOut | 57 => hdoc | 58 => dashHdoc | 59 => wordHdoc
  | 60 => rdrAll | 61 => appAll | 62 => cmdIn | 63 => cmdOut | 64 => plus
  | 65 => colPlus | 66 => minus | 67 => colMinus | 68 => quest
  | 69 => colQuest | 70 => assgn | 71 => colAssgn | 72 => percent
  | 73 => dblPercent | 74 => hash | 75 => dblHash | 76 => caret
  | 77 => dblCaret | 78 => comma | 79 => dblComma | 80 => slash
  | 81 => dblSlash | 82 => colon | 83 => tsExists | 84 => tsRegFile
  | 85 => tsDirect | 86 => tsCharSp | 87 => tsBlckSp | 88 => tsNmPipe
  | 89 => tsSocket | 90 => tsSmbLink | 91 => tsGIDSet | 92 => tsUIDSet
  | 93 => tsRead | 94 => tsWrite | 95 => tsExec | 96 => tsNoEmpty
  | 97 => tsFdTerm | 98 => tsEmpStr | 99 => tsNempStr | 100 => tsOptSet
  | 101 => tsVarSet | 102 => tsRefVar | 103 => tsReMatch | 104 => tsNewer
  | 105 => tsOlder | 106 => tsDevIno | 107 => tsEql | 108 => tsNeq
  | 109 => tsLeq | 110 => tsGeq | 111 => tsLss | 112 => tsGtr
  | 113 => globQuest | 114 => globStar | 115 => globPlus | 116 => globAt
  | 117 => globExcl
  | _ => illegalTok
  end%positive.

Definition tokEq (a b : token) : bool := Pos.eqb (tokCode a) (tokCode b).

(** [t] is one of the tokens [ts] (a Go [case a, b, c:]). *)
Definition tokIn (t : token) (ts : list token) : bool :=
  existsb (tokEq t) ts.

(** Modelled from the spec: [token.String], of the absent [tokens.go];
    the spelling of each symbol is the one of the spec's token surface
    and of the messages of the test tables. *)
Definition tokString (t : token) : string :=
  match t with
  | illegalTok => "illegal" | _EOF => "EOF" | _Lit => "Lit" | _LitWord => "LitWord"
  | sglQuote => "'" | dblQuote => String (ascii_of_nat 34) "" | bckQuote => "`"
  | and => "&" | andAnd => "&&" | or => "|" | orOr => "||" | pipeAll => "|&"
  | dollar => "$" | dollSglQuote => "$'"
  | dollDblQuote => String "$" (String (ascii_of_nat 34) "")
  | dollBrace => "${" | dollBrack => "$[" | dollParen => "$(" | dollDblParen => "$(("
  | leftBrack => "[" | leftParen => "(" | dblLeftParen => "(("
  | rightBrace => "}" | rightBrack => "]" | rightParen => ")" | dblRightParen => "))"
  | semicolon => ";" | dblSemicolon => ";;" | semiFall => ";&" | dblSemiFall => ";;&"
  | exclMark => "!" | addAdd => "++" | subSub => "--" | star => "*" | power => "**"
  | equal => "==" | nequal => "!=" | lequal => "<=" | gequal => ">="
  | addAssgn => "+=" | subAssgn => "-=" | mulAssgn => "*=" | quoAssgn => "/="
  | remAssgn => "%=" | andAssgn => "&=" | orAssgn => "|=" | xorAssgn => "^="
  | shlAssgn => "<<=" | shrAssgn => ">>="
  | rdrOut => ">" | appOut => ">>" | rdrIn => "<" | rdrInOut => "<>"
  | dplIn => "<&" | dplOut => ">&" | clbOut => ">|"
  | hdoc => "<<" | dashHdoc => "<<-" | wordHdoc => "<<<"
  | rdrAll => "&>" | appAll => "&>>"
  | cmdIn => "<(" | cmdOut => ">("
  | plus => "+" | colPlus => ":+" | minus => "-" | colMinus => ":-"
  | quest => "?" | colQuest => ":?" | assgn => "=" | colAssgn => ":="
  | percent => "%" | dblPercent => "%%" | hash => "#" | dblHash => "##"
  | caret => "^" | dblCaret => "^^" | comma => "," | dblComma => ",,"
  | slash => "/" | dblSlash => "//" | colon => ":"
  | tsExists => "-e" | tsRegFile => "-f" | tsDirect => "-d" | tsCharSp => "-c"
  | tsBlckSp => "-b" | tsNmPipe => "-p" | tsSocket => "-S" | tsSmbLink => "-L"
  | tsGIDSet => "-g" | tsUIDSet => "-u" | tsRead => "-r" | tsWrite => "-w"
  | tsExec => "-x" | tsNoEmpty => "-s" | tsFdTerm => "-t" | tsEmpStr => "-z"
  | tsNempStr => "-n" | tsOptSet => "-o" | tsVarSet => "-v" | tsRefVar => "-R"
  | tsReMatch => "=~" | tsNewer => "-nt" | tsOlder => "-ot" | tsDevIno => "-ef"
  | tsEql => "-eq" | tsNeq => "-ne" | tsLeq => "-le" | tsGeq => "-ge"
  | tsLss => "-lt" | tsGtr => "-gt"
  | globQuest => "?(" | globStar => "*(" | globPlus => "+(" | globAt => "@("
  | globExcl => "!("
  end.

(** The named operators of the AST are the tokens they are converted
    from; these are the names [arithmOpLevel] switches on. *)
Module Op.
Definition Add := plus.
Definition Sub := minus.
Definition Mul := star.
Definition Quo := slash.
Definition Rem := percent.
Definition Pow := power.
Definition Eql := equal.
Definition Neq := nequal.
Definition Gtr := rdrOut.
Definition Lss := rdrIn.
Definition Leq := lequal.
Definition Geq := gequal.
Definition And := and.
Definition Or := or.
Definition Xor := caret.
Definition Shr := appOut.
Definition Shl := hdoc.
Definition AndArit := andAnd.
Definition OrArit := orOr.
Definition Comma := comma.
Definition Quest := quest.
Definition Colon := colon.
Definition Assgn := assgn.
Definition AddAssgn := addAssgn.
Definition SubAssgn := subAssgn.
Definition MulAssgn := mulAssgn.
Definition QuoAssgn := quoAssgn.
Definition RemAssgn := remAssgn.
Definition AndAssgn := andAssgn.
Definition OrAssgn := orAssgn.
Definition XorAssgn := xorAssgn.
Definition ShlAssgn := shlAssgn.
Definition ShrAssgn := shrAssgn.
Definition Hdoc := hdoc.
Definition DashHdoc := dashHdoc.
Definition DblSemicolon := dblSemicolon.
Definition TsNot := exclMark.
Definition TsReMatch := tsReMatch.
End Op.

(* ================================================================= *)
(** ** Parse modes and lexical modes *)

Definition ParseMode := Z.
Definition ParseComments : ParseMode := 1.
Definition PosixConformant : ParseMode := 2.

Definition quoteState := Z.
Definition noState : quoteState := 1.
Definition subCmd : quoteState := 2.
Definition subCmdBckquo : quoteState := 4.
Definition sglQuotes : quoteState := 8.
Definition dblQuotes : quoteState := 16.
Definition hdocWord : quoteState := 32.
Definition hdocBody : quoteState := 64.
Definition hdocBodyTabs : quoteState := 128.
Definition arithmExpr_ : quoteState := 256.
Definition arithmExprLet : quoteState := 512.
Definition arithmExprCmd : quoteState := 1024.
Definition arithmExprBrack : quoteState := 2048.
Definition testRegexp : quoteState := 4096.
Definition switchCase : quoteState := 8192.
Definition paramExpName : quoteState := 16384.
Definition paramExpInd : quoteState := 32768.
Definition paramExpOff : quoteState := 65536.
Definition paramExpLen : quoteState := 131072.
Definition paramExpRepl : quoteState := 262144.
Definition paramExpExp : quoteState := 524288.

Definition allRegTokens : quoteState :=
  Z.lor noState (Z.lor subCmd (Z.lor subCmdBckquo (Z.lor hdocWord switchCase))).
Definition allParamArith : quoteState :=
  Z.lor paramExpInd (Z.lor paramExpOff paramExpLen).
Definition allArithmExpr : quoteState :=
  Z.lor arithmExpr_ (Z.lor arithmExprLet (Z.lor arithmExprCmd
    (Z.lor arithmExprBrack allParamArith))).
Definition allRbrack : quoteState := Z.lor arithmExprBrack paramExpInd.
Definition allParamReg : quoteState := Z.lor paramExpName allParamArith.
Definition allParamExp : quoteState :=
  Z.lor allParamReg (Z.lor paramExpRepl paramExpExp).

(** [q&set != 0] *)
Definition inQuote (q set : quoteState) : bool := negb (Z.land q set =? 0).

(* ================================================================= *)
(** ** The syntax tree

    The node types are those [parser.go] builds (their declaration,
    [nodes.go], is not part of the sources at hand); a field is named
    as the parser names it.  A [*T] or interface field that the parser
    may leave nil is an [option].

    Every node is a fresh allocation that nothing else points to, with
    one exception: a [*Redirect] is held by its statement and, for a
    heredoc, by the parser's queue [heredocs], which fills in [Hdoc]
    later.  So a statement holds the address of its redirects in the
    parser's store of [Redirect] objects. *)

Definition Pos := Z.

#[local] Unset Elimination Schemes.

Record Lit : Set := mkLit { ValuePos : Pos; ValueEnd : Pos; Value : string }.

Record Comment : Set := mkComment { Hash : Pos; Text : string }.

(** A [*Redirect]: the index of the object in the store. *)
Definition RedirPtr := nat.

Inductive Word : Set :=
  | MkWord (Parts : list WordPart)
with WordPart : Set :=
  | WLit (l : Lit)
  | SglQuoted (Position : Pos) (Dollar : bool) (Value : string)
  | DblQuoted (Position : Pos) (Dollar : bool) (Parts : list WordPart)
  | CmdSubst (Left Right : Pos) (Stmts : list Stmt)
  | WParamExp (pe : ParamExp)
  | ArithmExp (Left Right : Pos) (Bracket : bool) (X : option ArithmExpr)
  | ProcSubst (OpPos Rparen : Pos) (Op : token) (Stmts : list Stmt)
  | ExtGlob (Op : token) (OpPos : Pos) (Pattern : option Lit)
  | ArrayExpr (Lparen Rparen : Pos) (List : list Word)
with ParamExp : Set :=
  | MkParamExp (Dollar Rbrace : Pos) (Short Length : bool)
      (Param : option Lit) (Ind : option Index) (Slice : option Slice)
      (Repl : option Replace) (Exp : option Expansion)
with Index : Set :=
  | MkIndex (Expr : option ArithmExpr)
with Slice : Set :=
  | MkSlice (Offset Length : option ArithmExpr)
with Replace : Set :=
  | MkReplace (All : bool) (Orig With : option Word)
with Expansion : Set :=
  | MkExpansion (Op : token) (Word : option Word)
with ArithmExpr : Set :=
  | BinaryArithm (OpPos : Pos) (Op : token) (X Y : option ArithmExpr)
  | UnaryArithm (OpPos : Pos) (Op : token) (Post : bool)
      (X : option ArithmExpr)
  | ParenArithm (Lparen Rparen : Pos) (X : option ArithmExpr)
  | AWord (w : Word)
with TestExpr : Set :=
  | BinaryTest (OpPos : Pos) (Op : token) (X Y : option TestExpr)
  | UnaryTest (OpPos : Pos) (Op : token) (X : option TestExpr)
  | ParenTest (Lparen Rparen : Pos) (X : option TestExpr)
  | TWord (w : option Word)   (* a [*Word] in the interface, nil or not *)
with Assign : Set :=
  | MkAssign (Append : bool) (Name : option Lit) (Value : option Word)
with Stmt : Set :=
  | MkStmt (Cmd : option Command) (Position SemiPos : Pos)
      (Negated Background : bool) (Assigns : list Assign)
      (Redirs : list RedirPtr)
with Command : Set :=
  | CallExpr (Args : list Word)
  | Subshell (Lparen Rparen : Pos) (Stmts : list Stmt)
  | Block (Lbrace Rbrace : Pos) (Stmts : list Stmt)
  | IfClause (If Then Fi : Pos) (CondStmts ThenStmts : list Stmt)
      (Elifs : list Elif) (Else : Pos) (ElseStmts : list Stmt)
  | WhileClause (While Do Done : Pos) (CondStmts DoStmts : list Stmt)
  | UntilClause (Until Do Done : Pos) (CondStmts DoStmts : list Stmt)
  | ForClause (For Do Done : Pos) (Loop : Loop) (DoStmts : list Stmt)
  | CaseClause (Case Esac : Pos) (Word : option Word)
      (List : list PatternList)
  | BinaryCmd (OpPos : Pos) (Op : token) (X Y : option Stmt)
  | FuncDecl (Position : Pos) (BashStyle : bool) (Name : Lit)
      (Body : option Stmt)
  | ArithmCmd (Left Right : Pos) (X : option ArithmExpr)
  | TestClause (Left Right : Pos) (X : option TestExpr)
  | DeclClause (Position : Pos) (Variant : string) (Opts : list (option Word))
      (Assigns : list Assign)
  | EvalClause (Eval : Pos) (Stmt : option Stmt)
  | CoprocClause (c : option Coproc)  (* a [*CoprocClause], nil or not *)
  | LetClause (Let : Pos) (Exprs : list ArithmExpr)
with Coproc : Set :=
  | MkCoproc (Coproc : Pos) (Name : option Lit) (Stmt : option Stmt)
with Elif : Set :=
  | MkElif (Elif Then : Pos) (CondStmts ThenStmts : list Stmt)
with Loop : Set :=
  | WordIter (Name : option Lit) (List : list Word)
  | CStyleLoop (Lparen Rparen : Pos) (Init Cond Post : option ArithmExpr)
with PatternList : Set :=
  | MkPatternList (Op : token) (OpPos : Pos) (Patterns : list Word)
      (Stmts : list Stmt).

#[local] Set Elimination Schemes.

Record Redirect : Set := mkRedirect {
  OpPos : Pos; Op : token; N : option Lit;
  RWord : option Word;   (* [Word] *)
  Hdoc : option Word
}.

Record File : Set := mkFile {
  Name : string;
  Stmts : list Stmt;
  Comments : list Comment;
  Lines : list Z   (* offset of the first byte of each line *)
}.

(** [Position] of the absent [nodes.go]: line and column of an offset. *)
Record Position : Set := mkPosition { Offset : Z; Line : Z; Column : Z }.

Record ParseError : Set := mkParseError {
  EPosition : Position;
  Filename : string;
  EText : string    (* [Text] *)
}.

(* ================================================================= *)
(** ** The parser struct *)

(** A Go slice of [*Redirect]: a window [0, slen) on a backing array.
    [heredocs] is only ever cut at its end or grown by [append], so
    its window starts at the first element of its array. *)
Record slice : Set := mkSlice { sarr : nat; slen : Z }.

(** A backing array: its capacity and the elements written so far. *)
Record hdArray : Set := mkArray { acap : Z; elems : list RedirPtr }.

Record saveState : Set := mkSave { squote : quoteState; sburied : Z }.

(** The fields of [parser] the parser and the lexer read and write.
    The allocation batches ([litBatch], [wordBatch], ...) hand out
    zeroed elements that are used once, so an allocation is a fresh
    value; [helperBuf] is the scratch buffer of [unquotedWordBytes],
    whose result is stored in [hdocStop] at once. *)
Record parser : Type := mkParser {
  src : string;   (* the input *)
  f : option File;   (* [*File] *)
  mode : ParseMode;
  spaced : bool;
  newLine : bool;
  err : option ParseError;   (* [error], nil or a [*ParseError] *)
  tok : token;
  val : string;
  pos : Pos;
  npos : Z;
  quote : quoteState;
  asPos : Z;
  buriedHdocs : Z;
  heredocs : slice;   (* [[]*Redirect] *)
  hdocStop : option string;   (* [[]byte], nil or not *)
  redirs : list Redirect;   (* the [Redirect] objects allocated so far *)
  arrays : list hdArray;   (* the backing arrays of [heredocs] *)
  errLog : list ParseError   (* ghost: every error stored in [err], oldest first *)
}.

Definition setSrc_ (v : string) (p : parser) : parser :=
  {| src := v; f := f p; mode := mode p; spaced := spaced p; newLine :=
     newLine p; err := err p; tok := tok p; val := val p; pos := pos p; npos
     := npos p; quote := quote p; asPos := asPos p; buriedHdocs :=
     buriedHdocs p; heredocs := heredocs p; hdocStop := hdocStop p; redirs
     := redirs p; arrays := arrays p; errLog := errLog p |}.
Definition setF_ (v : option File) (p : parser) : parser :=
  {| src := src p; f := v; mode := mode p; spaced := spaced p; newLine :=
     newLine p; err := err p; tok := tok p; val := val p; pos := pos p; npos
     := npos p; quote := quote p; asPos := asPos p; buriedHdocs :=
     buriedHdocs p; heredocs := heredocs p; hdocStop := hdocStop p; redirs
     := redirs p; arrays := arrays p; errLog := errLog p |}.
Definition setMode_ (v : ParseMode) (p : parser) : parser :=
  {| src := src p; f := f p; mode := v; spaced := spaced p; newLine :=
     newLine p; err := err p; tok := tok p; val := val p; pos := pos p; npos
     := npos p; quote := quote p; asPos := asPos p; buriedHdocs :=
     buriedHdocs p; heredocs := heredocs p; hdocStop := hdocStop p; redirs
     := redirs p; arrays := arrays p; errLog := errLog p |}.
Definition setSpaced_ (v : bool) (p : parser) : parser :=
  {| src := src p; f := f p; mode := mode p; spaced := v; newLine := newLine
     p; err := err p; tok := tok p; val := val p; pos := pos p; npos := npos
     p; quote := quote p; asPos := asPos p; buriedHdocs := buriedHdocs p;
     heredocs := heredocs p; hdocStop := hdocStop p; redirs := redirs p;
     arrays := arrays p; errLog := errLog p |}.
Definition setNewLine_ (v : bool) (p : parser) : parser :=
  {| src := src p; f := f p; mode := mode p; spaced := spaced p; newLine :=
     v; err := err p; tok := tok p; val := val p; pos := pos p; npos := npos
     p; quote := quote p; asPos := asPos p; buriedHdocs := buriedHdocs p;
     heredocs := heredocs p; hdocStop := hdocStop p; redirs := redirs p;
     arrays := arrays p; errLog := errLog p |}.
Definition setErr_ (v : option ParseError) (p : parser) : parser :=
  {| src := src p; f := f p; mode := mode p; spaced := spaced p; newLine :=
     newLine p; err := v; tok := tok p; val := val p; pos := pos p; npos :=
     npos p; quote := quote p; asPos := asPos p; buriedHdocs := buriedHdocs
     p; heredocs := heredocs p; hdocStop := hdocStop p; redirs := redirs p;
     arrays := arrays p; errLog := errLog p |}.
Definition setTok_ (v : token) (p : parser) : parser :=
  {| src := src p; f := f p; mode := mode p; spaced := spaced p; newLine :=
     newLine p; err := err p; tok := v; val := val p; pos := pos p; npos :=
     npos p; quote := quote p; asPos := asPos p; buriedHdocs := buriedHdocs
     p; heredocs := heredocs p; hdocStop := hdocStop p; redirs := redirs p;
     arrays := arrays p; errLog := errLog p |}.
Definition setVal_ (v : string) (p : parser) : parser :=
  {| src := src p; f := f p; mode := mode p; spaced := spaced p; newLine :=
     newLine p; err := err p; tok := tok p; val := v; pos := pos p; npos :=
     npos p; quote := quote p; asPos := asPos p; buriedHdocs := buriedHdocs
     p; heredocs := heredocs p; hdocStop := hdocStop p; redirs := redirs p;
     arrays := arrays p; errLog := errLog p |}.
Definition setPos_ (v : Pos) (p : parser) : parser :=
  {| src := src p; f := f p; mode := mode p; spaced := spaced p; newLine :=
     newLine p; err := err p; tok := tok p; val := val p; pos := v; npos :=
     npos p; quote := quote p; asPos := asPos p; buriedHdocs := buriedHdocs
     p; heredocs := heredocs p; hdocStop := hdocStop p; redirs := redirs p;
     arrays := arrays p; errLog := errLog p |}.
Definition setNpos_ (v : Z) (p : parser) : parser :=
  {| src := src p; f := f p; mode := mode p; spaced := spaced p; newLine :=
     newLine p; err := err p; tok := tok p; val := val p; pos := pos p; npos
     := v; quote := quote p; asPos := asPos p; buriedHdocs := buriedHdocs p;
     heredocs := heredocs p; hdocStop := hdocStop p; redirs := redirs p;
     arrays := arrays p; errLog := errLog p |}.
Definition setQuote_ (v : quoteState) (p : parser) : parser :=
  {| src := src p; f := f p; mode := mode p; spaced := spaced p; newLine :=
     newLine p; err := err p; tok := tok p; val := val p; pos := pos p; npos
     := npos p; quote := v; asPos := asPos p; buriedHdocs := buriedHdocs p;
     heredocs := heredocs p; hdocStop := hdocStop p; redirs := redirs p;
     arrays := arrays p; errLog := errLog p |}.
Definition setAsPos_ (v : Z) (p : parser) : parser :=
  {| src := src p; f := f p; mode := mode p; spaced := spaced p; newLine :=
     newLine p; err := err p; tok := tok p; val := val p; pos := pos p; npos
     := npos p; quote := quote p; asPos := v; buriedHdocs := buriedHdocs p;
     heredocs := heredocs p; hdocStop := hdocStop p; redirs := redirs p;
     arrays := arrays p; errLog := errLog p |}.
Definition setBuriedHdocs_ (v : Z) (p : parser) : parser :=
  {| src := src p; f := f p; mode := mode p; spaced := spaced p; newLine :=
     newLine p; err := err p; tok := tok p; val := val p; pos := pos p; npos
     := npos p; quote := quote p; asPos := asPos p; buriedHdocs := v;
     heredocs := heredocs p; hdocStop := hdocStop p; redirs := redirs p;
     arrays := arrays p; errLog := errLog p |}.
Definition setHeredocs_ (v : slice) (p : parser) : parser :=
  {| src := src p; f := f p; mode := mode p; spaced := spaced p; newLine :=
     newLine p; err := err p; tok := tok p; val := val p; pos := pos p; npos
     := npos p; quote := quote p; asPos := asPos p; buriedHdocs :=
     buriedHdocs p; heredocs := v; hdocStop := hdocStop p; redirs := redirs
     p; arrays := arrays p; errLog := errLog p |}.
Definition setHdocStop_ (v : option string) (p : parser) : parser :=
  {| src := src p; f := f p; mode := mode p; spaced := spaced p; newLine :=
     newLine p; err := err p; tok := tok p; val := val p; pos := pos p; npos
     := npos p; quote := quote p; asPos := asPos p; buriedHdocs :=
     buriedHdocs p; heredocs := heredocs p; hdocStop := v; redirs := redirs
     p; arrays := arrays p; errLog := errLog p |}.
Definition setRedirs_ (v : list Redirect) (p : parser) : parser :=
  {| src := src p; f := f p; mode := mode p; spaced := spaced p; newLine :=
     newLine p; err := err p; tok := tok p; val := val p; pos := pos p; npos
     := npos p; quote := quote p; asPos := asPos p; buriedHdocs :=
     buriedHdocs p; heredocs := heredocs p; hdocStop := hdocStop p; redirs
     := v; arrays := arrays p; errLog := errLog p |}.
Definition setArrays_ (v : list hdArray) (p : parser) : parser :=
  {| src := src p; f := f p; mode := mode p; spaced := spaced p; newLine :=
     newLine p; err := err p; tok := tok p; val := val p; pos := pos p; npos
     := npos p; quote := quote p; asPos := asPos p; buriedHdocs :=
     buriedHdocs p; heredocs := heredocs p; hdocStop := hdocStop p; redirs
     := redirs p; arrays := v; errLog := errLog p |}.
Definition setErrLog_ (v : list ParseError) (p : parser) : parser :=
  {| src := src p; f := f p; mode := mode p; spaced := spaced p; newLine :=
     newLine p; err := err p; tok := tok p; val := val p; pos := pos p; npos
     := npos p; quote := quote p; asPos := asPos p; buriedHdocs :=
     buriedHdocs p; heredocs := heredocs p; hdocStop := hdocStop p; redirs
     := redirs p; arrays := arrays p; errLog := v |}.

(* ================================================================= *)
(** ** The monad of parser methods *)

(** A method either returns a value and the updated struct, or the
    run stops: [Panic] is a Go run-time panic (a nil dereference, an
    index out of range), [OutOfFuel] is the end of the recursion
    budget of the model. *)
Inductive result (A : Type) : Type :=
  | Ok (a : A) (p : parser)
  | Panic
  | OutOfFuel.
Arguments Panic {A}.
Arguments OutOfFuel {A}.

Definition M (A : Type) : Type := parser -> result A.

Definition ret {A : Type} (a : A) : M A := fun p => Ok a p.

Definition bind {A B : Type} (m : M A) (k : A -> M B) : M B :=
  fun p => match m p with
           | Ok a p' => k a p'
           | Panic => Panic
           | OutOfFuel => OutOfFuel
           end.

Declare Scope parser_scope.
Delimit Scope parser_scope with parser.
Notation "x <- m ;; k" := (bind m (fun x => k))
  (at level 61, m at next level, right associativity) : parser_scope.
Notation "' pat <- m ;; k" := (bind m (fun x => match x with pat => k end))
  (at level 61, pat pattern, m at next level, right associativity) : parser_scope.
Notation "m ;; k" := (bind m (fun _ => k))
  (at level 61, right associativity) : parser_scope.
Local Open Scope parser_scope.

Definition panic {A : Type} : M A := fun _ => Panic.
Definition outOfFuel {A : Type} : M A := fun _ => OutOfFuel.
Definition get : M parser := fun p => Ok p p.
Definition gets {A : Type} (g : parser -> A) : M A := fun p => Ok (g p) p.
Definition modify (h : parser -> parser) : M unit := fun p => Ok tt (h p).
Definition when (b : bool) (m : M unit) : M unit := if b then m else ret tt.

(** A value that Go takes from a pointer, a slice or a string, with
    the panic of a nil pointer or of an index out of range. *)
Definition deref {A : Type} (o : option A) : M A :=
  match o with Some a => ret a | None => panic end.

Definition setSrc v := modify (setSrc_ v).
Definition setMode v := modify (setMode_ v).
Definition setSpaced v := modify (setSpaced_ v).
Definition setNewLine v := modify (setNewLine_ v).
Definition setErr v := modify (setErr_ v).
Definition setTok v := modify (setTok_ v).
Definition setVal v := modify (setVal_ v).
Definition setPos v := modify (setPos_ v).
Definition setNpos v := modify (setNpos_ v).
Definition setQuote v := modify (setQuote_ v).
Definition setAsPos v := modify (setAsPos_ v).
Definition setBuriedHdocs v := modify (setBuriedHdocs_ v).
Definition setHeredocs v := modify (setHeredocs_ v).
Definition setHdocStop v := modify (setHdocStop_ v).
Definition setRedirs v := modify (setRedirs_ v).
Definition setArrays v := modify (setArrays_ v).
Definition setErrLog v := modify (setErrLog_ v).

(** [p.f.X = ...]: a write through the [*File]. *)
Definition modFile (h : File -> File) : M unit :=
  fl <- bind (gets f) deref;; modify (setF_ (Some (h fl))).
Definition getFile : M File := bind (gets f) deref.

Definition addNpos (k : Z) : M unit := n <- gets npos;; setNpos (n + k).

(* ================================================================= *)
(** ** Bytes and strings *)

Definition nl : ascii := "010"%char.
Definition tab : ascii := "009"%char.
Definition cr : ascii := "013"%char.
Definition dq : ascii := "034"%char.
Definition bsl : ascii := "\"%char.
Definition nul : ascii := "000"%char.

Definition str1 (b : ascii) : string := String b "".
Definition isb (a b : ascii) : bool := Ascii.eqb a b.
Definition byteIn (b : ascii) (set : string) : bool :=
  existsb (isb b) (list_ascii_of_string set).

Definition lenZ (s : string) : Z := Z.of_nat (String.length s).

(** [s[i]], or nothing where Go panics. *)
Definition byteZ (s : string) (i : Z) : option ascii :=
  if i <? 0 then None else String.get (Z.to_nat i) s.

(** [s[lo:hi]], or nothing where Go panics. *)
Definition sliceZ (s : string) (lo hi : Z) : option string :=
  if (0 <=? lo) && (lo <=? hi) && (hi <=? lenZ s)
  then Some (String.substring (Z.to_nat lo) (Z.to_nat (hi - lo)) s)
  else None.

(** The byte at [i], or 0 past the end (the lexer's look-ahead). *)
Definition byteAt (s : string) (i : Z) : ascii :=
  match byteZ s i with Some b => b | None => nul end.

Definition srcLen (p : parser) : Z := lenZ (src p).
Definition srcAt (p : parser) (i : Z) : ascii := byteAt (src p) i.

(** [s[lo:]] for [lo] within bounds, as the lexer takes it. *)
Definition suffixZ (s : string) (lo : Z) : string :=
  String.substring (Z.to_nat lo) (String.length s - Z.to_nat lo) s.

Fixpoint hasPrefix (pre s : string) : bool :=
  match pre, s with
  | EmptyString, _ => true
  | String a pre', String b s' => isb a b && hasPrefix pre' s'
  | String _ _, EmptyString => false
  end.

(** [bytes.IndexByte]: the offset of the first [b] in [s]. *)
Fixpoint indexByte (s : string) (b : ascii) : option Z :=
  match s with
  | EmptyString => None
  | String c s' => if isb c b then Some 0
                   else option_map Z.succ (indexByte s' b)
  end.

(** [bytes.Index]. *)
Fixpoint indexStr (s sub : string) : option Z :=
  if hasPrefix sub s then Some 0 else
  match s with
  | EmptyString => None
  | String _ s' => option_map Z.succ (indexStr s' sub)
  end.

(** [%d] *)
Definition itoa (z : Z) : string := NilZero.string_of_int (Z.to_int z).

Definition hexDigit (n : nat) : ascii :=
  match String.get n "0123456789abcdef" with Some c => c | None => "0"%char end.

(** [strconv.Quote], as [%q] prints a string: exact on ASCII; a byte
    of a multi-byte character is kept as it is (Go keeps a printable
    character and escapes the others). *)
Definition quoteByte (b : ascii) : string :=
  let n := nat_of_ascii b in
  if isb b dq then String bsl (str1 dq)
  else if isb b bsl then String bsl (str1 bsl)
  else if isb b nl then "\n"
  else if isb b tab then "\t"
  else if isb b cr then "\r"
  else if Nat.eqb n 7 then "\a"
  else if Nat.eqb n 8 then "\b"
  else if Nat.eqb n 12 then "\f"
  else if Nat.eqb n 11 then "\v"
  else if Nat.ltb n 32 || Nat.eqb n 127
       then "\x" ++ str1 (hexDigit (n / 16)) ++ str1 (hexDigit (n mod 16))
  else str1 b.

Definition quoteGo (s : string) : string :=
  str1 dq ++ String.concat "" (map quoteByte (list_ascii_of_string s)) ++ str1 dq.

Definition isLower (b : ascii) : bool :=
  let n := nat_of_ascii b in Nat.leb 97 n && Nat.leb n 122.

Definition readableStr (s : string) : string :=
  (* don't quote tokens like & or } *)
  match s with
  | String c _ => if isLower c then quoteGo s else s
  | EmptyString => s
  end.

(* ================================================================= *)
(** ** Positions and errors *)

(** Modelled from the spec: [File.Position], of the absent [nodes.go].
    "A File carries a table mapping each source line number to the
    byte offset of its first byte, used to derive (line, column) on
    demand": the line of a 1-based offset is the last one that starts
    before it, the column is the distance to that start. *)
Fixpoint searchLines (ls : list Z) (p : Z) (i : Z) (found : option (Z * Z))
  : option (Z * Z) :=
  match ls with
  | [] => found
  | l :: ls' => searchLines ls' p (i + 1) (if l <? p then Some (i, l) else found)
  end.

(** Modelled from the spec: [File.Position]: line and column of a
    1-based offset, from the line table. *)
Definition filePosition (fl : File) (p : Pos) : Position :=
  match searchLines (Lines fl) p 0 None with
  | Some (i, l) => mkPosition (p - 1) (i + 1) (p - l)
  | None => mkPosition (p - 1) 0 0
  end.

(** [ParseError.Error] *)
Definition Error (e : ParseError) : string :=
  let prefix := if String.eqb (Filename e) "" then "" else Filename e ++ ":" in
  prefix ++ itoa (Line (EPosition e)) ++ ":" ++ itoa (Column (EPosition e))
         ++ ": " ++ EText e.

Definition errPass (e : ParseError) : M unit :=
  p <- get;;
  match err p with
  | None =>
      setErr (Some e);;
      setErrLog (errLog p ++ [e]);;
      setNpos (srcLen p);;
      setTok _EOF
  | Some _ => ret tt
  end.

(** [posErr]: the format and its arguments arrive as the text. *)
Definition posErr (ps : Pos) (text : string) : M unit :=
  fl <- getFile;;
  errPass (mkParseError (filePosition fl ps) (Name fl) text).

Definition curErr (text : string) : M unit :=
  ps <- gets pos;; posErr ps text.

Definition bash (p : parser) : bool := Z.land (mode p) PosixConformant =? 0.

(** [if !p.bash() { p.curErr(msg) }]: a construct of the extended
    dialect met under [PosixConformant]. *)
Definition posixRejects (p : parser) (msg : string) : M unit :=
  when (negb (bash p)) (curErr msg).

(* ================================================================= *)
(** ** The recursion of the parser

    The methods of the parser call each other without bound (a word
    holds a command substitution, which holds statements, which hold
    words; the lexer runs the heredoc reader at a newline, which reads
    words).  A method body takes the table [rec] of the methods it
    may re-enter; [fns] below ties the knot level by level.  A Go
    [for] loop is [f_loop]: [step] runs one iteration and says whether
    to go on ([inl]) or leave with a result ([inr]). *)
Record fns : Type := mkFns {
  f_next : M unit;
  f_doHeredocs : M unit;
  f_stmts : list string -> M (list Stmt);
  f_getStmt : bool -> M (option Stmt * bool);
  f_gotStmtPipe : Stmt -> M (option Stmt);
  f_wordPart : M (option WordPart);
  f_arithmExpr : token -> Pos -> Z -> bool -> bool -> M (option ArithmExpr);
  f_arithmExprBase : token -> Pos -> bool -> M (option ArithmExpr);
  f_testExpr : token -> Pos -> Z -> M (option TestExpr);
  f_loop : forall (S R : Type), (S -> M (S + R)) -> S -> M R
}.

(* ================================================================= *)
(** ** The lexer

    Modelled from the spec: the lexer ([lexer.go]: [next], the token
    readers, the literal readers, [readUntil], [hdocLitWord],
    [wordBreak]) is not part of the sources at hand.  The definitions
    of this section follow section 4.1 of the specification (the
    modes, the rules on quotes, escapes and line continuations, the
    dollar forms, the word breaks, the assignment prefix), section 4.2
    on heredoc bodies, and the token surface of section 6; the struct
    fields they maintain ([tok], [val], [pos], [npos], [spaced],
    [newLine], [asPos], the line table) are the ones [parser.go]
    reads. *)
Section Lexer.
Variable rec : fns.

(** Modelled from the spec: [wordBreak], absent.  "Word-break bytes
    are: space, tab, newline, ;, &, |, <, >, (, )". *)
Definition wordBreak (b : ascii) : bool :=
  byteIn b " ;&><|()" || isb b tab || isb b nl.

(** Modelled from the spec: the bytes that form or start a token in
    the regular modes (separators, redirects, parentheses, quotes and
    the dollar forms of the token surface). *)
Definition regOps (b : ascii) : bool := byteIn b ";'()$|&><`" || isb b dq.

(** Modelled from the spec: the bytes that are tokens inside a
    parameter expansion (the operators of the [${...}] state machine). *)
Definition paramOps (b : ascii) : bool := byteIn b "}#:-+=?%[]/^,".

(** Modelled from the spec: the bytes that are tokens inside an
    arithmetic expression (the arithmetic operators of the token
    surface, the parentheses and the closing bracket). *)
Definition arithmOps (b : ascii) : bool := byteIn b "+-!*/%()^<>:=,?|&]".

(** Modelled from the spec: the lexer's update of the line table when
    a newline is crossed ([p.f.Lines = append(p.f.Lines, off)], as
    [parser.go] writes it too). *)
Definition appendLine (off : Z) : M unit :=
  modFile (fun fl => mkFile (Name fl) (Stmts fl) (Comments fl) (Lines fl ++ [off])).

(** Modelled from the spec: a token reader consumes the [k] bytes of
    the token [t]. *)
Definition tokN (k : Z) (t : token) : M token := addNpos k;; ret t.

(** Modelled from the spec: the token that starts with [b] in the
    regular modes, longest match first; the tokens of the extended
    dialect ([((], [|&], [&>], [<<<], [<(], [;&], [$'], [$[], ...) are
    read only when [PosixConformant] is not set. *)
Definition regToken (b : ascii) : M token :=
  p <- get;;
  let b1 := srcAt p (npos p + 1) in
  let b2 := srcAt p (npos p + 2) in
  if isb b "'" then tokN 1 sglQuote
  else if isb b dq then tokN 1 dblQuote
  else if isb b "`" then tokN 1 bckQuote
  else if isb b "&" then
    if isb b1 "&" then tokN 2 andAnd
    else if isb b1 ">" && bash p then
      if isb b2 ">" then tokN 3 appAll else tokN 2 rdrAll
    else tokN 1 and
  else if isb b "|" then
    if isb b1 "|" then tokN 2 orOr
    else if isb b1 "&" && bash p then tokN 2 pipeAll
    else tokN 1 or
  else if isb b "$" then
    if isb b1 "'" && bash p then tokN 2 dollSglQuote
    else if isb b1 dq && bash p then tokN 2 dollDblQuote
    else if isb b1 "{" then tokN 2 dollBrace
    else if isb b1 "[" && bash p then tokN 2 dollBrack
    else if isb b1 "(" then
      if isb b2 "(" then tokN 3 dollDblParen else tokN 2 dollParen
    else tokN 1 dollar
  else if isb b "(" then
    if bash p && isb b1 "(" then tokN 2 dblLeftParen else tokN 1 leftParen
  else if isb b ")" then tokN 1 rightParen
  else if isb b ";" then
    if isb b1 ";" then
      if bash p && isb b2 "&" then tokN 3 dblSemiFall else tokN 2 dblSemicolon
    else if isb b1 "&" && bash p then tokN 2 semiFall
    else tokN 1 semicolon
  else if isb b "<" then
    if isb b1 "<" then
      if isb b2 "-" then tokN 3 dashHdoc
      else if bash p && isb b2 "<" then tokN 3 wordHdoc
      else tokN 2 hdoc
    else if isb b1 ">" then tokN 2 rdrInOut
    else if isb b1 "&" then tokN 2 dplIn
    else if isb b1 "(" && bash p then tokN 2 cmdIn
    else tokN 1 rdrIn
  else (* '>' *)
    if isb b1 ">" then tokN 2 appOut
    else if isb b1 "&" then tokN 2 dplOut
    else if isb b1 "|" then tokN 2 clbOut
    else if isb b1 "(" && bash p then tokN 2 cmdOut
    else tokN 1 rdrOut.

(** Modelled from the spec: the tokens that stay special inside double
    quotes and heredoc bodies ("$, `, \ remain special; others are
    literal"). *)
Definition dqToken (b : ascii) : M token :=
  p <- get;;
  let b1 := srcAt p (npos p + 1) in
  let b2 := srcAt p (npos p + 2) in
  if isb b dq then tokN 1 dblQuote
  else if isb b "`" then tokN 1 bckQuote
  else (* '$' *)
    if isb b1 "{" then tokN 2 dollBrace
    else if isb b1 "[" && bash p then tokN 2 dollBrack
    else if isb b1 "(" then
      if isb b2 "(" then tokN 3 dollDblParen else tokN 2 dollParen
    else tokN 1 dollar.

(** Modelled from the spec: the operator of a parameter expansion that
    starts with [b]. *)
Definition paramToken (b : ascii) : M token :=
  p <- get;;
  let b1 := srcAt p (npos p + 1) in
  if isb b "}" then tokN 1 rightBrace
  else if isb b ":" then
    if isb b1 "+" then tokN 2 colPlus
    else if isb b1 "-" then tokN 2 colMinus
    else if isb b1 "?" then tokN 2 colQuest
    else if isb b1 "=" then tokN 2 colAssgn
    else tokN 1 colon
  else if isb b "+" then tokN 1 plus
  else if isb b "-" then tokN 1 minus
  else if isb b "?" then tokN 1 quest
  else if isb b "=" then tokN 1 assgn
  else if isb b "%" then
    if isb b1 "%" then tokN 2 dblPercent else tokN 1 percent
  else if isb b "#" then
    if isb b1 "#" then tokN 2 dblHash else tokN 1 hash
  else if isb b "[" then tokN 1 leftBrack
  else if isb b "]" then tokN 1 rightBrack
  else if isb b "^" then
    if isb b1 "^" then tokN 2 dblCaret else tokN 1 caret
  else if isb b "," then
    if isb b1 "," then tokN 2 dblComma else tokN 1 comma
  else (* '/' *)
    if isb b1 "/" then tokN 2 dblSlash else tokN 1 slash.

(** Modelled from the spec: the arithmetic operator that starts with
    [b], longest match first. *)
Definition arithmToken (b : ascii) : M token :=
  p <- get;;
  let b1 := srcAt p (npos p + 1) in
  let b2 := srcAt p (npos p + 2) in
  if isb b "!" then
    if isb b1 "=" then tokN 2 nequal else tokN 1 exclMark
  else if isb b "=" then
    if isb b1 "=" then tokN 2 equal else tokN 1 assgn
  else if isb b "(" then tokN 1 leftParen
  else if isb b ")" then tokN 1 rightParen
  else if isb b "&" then
    if isb b1 "&" then tokN 2 andAnd
    else if isb b1 "=" then tokN 2 andAssgn
    else tokN 1 and
  else if isb b "|" then
    if isb b1 "|" then tokN 2 orOr
    else if isb b1 "=" then tokN 2 orAssgn
    else tokN 1 or
  else if isb b "<" then
    if isb b1 "<" then
      if isb b2 "=" then tokN 3 shlAssgn else tokN 2 hdoc
    else if isb b1 "=" then tokN 2 lequal
    else tokN 1 rdrIn
  else if isb b ">" then
    if isb b1 ">" then
      if isb b2 "=" then tokN 3 shrAssgn else tokN 2 appOut
    else if isb b1 "=" then tokN 2 gequal
    else tokN 1 rdrOut
  else if isb b "+" then
    if isb b1 "+" then tokN 2 addAdd
    else if isb b1 "=" then tokN 2 addAssgn
    else tokN 1 plus
  else if isb b "-" then
    if isb b1 "-" then tokN 2 subSub
    else if isb b1 "=" then tokN 2 subAssgn
    else tokN 1 minus
  else if isb b "%" then
    if isb b1 "=" then tokN 2 remAssgn else tokN 1 percent
  else if isb b "*" then
    if isb b1 "*" then tokN 2 power
    else if isb b1 "=" then tokN 2 mulAssgn
    else tokN 1 star
  else if isb b "/" then
    if isb b1 "=" then tokN 2 quoAssgn else tokN 1 slash
  else if isb b "^" then
    if isb b1 "=" then tokN 2 xorAssgn else tokN 1 caret
  else if isb b "]" then tokN 1 rightBrack
  else if isb b "," then tokN 1 comma
  else if isb b "?" then tokN 1 quest
  else (* ':' *) tokN 1 colon.

(** Modelled from the spec: [readUntil], absent: the bytes from the
    cursor up to the first [b], and whether there is one. *)
Definition readUntil (b : ascii) : M (string * bool) :=
  p <- get;;
  let rem := suffixZ (src p) (npos p) in
  match indexByte rem b with
  | Some i => ret (String.substring 0 (Z.to_nat i) rem, true)
  | None => ret (rem, false)
  end.

(** Modelled from the spec: a literal reader ends by setting the token
    ([_Lit], or [_LitWord] for a literal ended by a word break) and
    its value. *)
Definition finishLit (t : token) (bs : string) : M unit :=
  setTok t;; setVal bs.

(** Modelled from the spec: an escaped byte in a literal.  The
    backslash and the byte stay in the value, except for a line
    continuation, which "is elided from token values" ([keep] is set
    inside double quotes and heredoc bodies, where it is preserved).
    [k] goes on with the value read so far. *)
Definition escaped (keep : bool) (bs : string) (k : string -> M unit) : M unit :=
  p <- get;;
  if npos p =? srcLen p - 1 then
    addNpos 1;; finishLit _LitWord (bs ++ str1 bsl)
  else
    let b := srcAt p (npos p + 1) in
    addNpos 2;;
    if isb b nl then
      appendLine (npos p + 2);;
      k (if keep then bs ++ String bsl (str1 b) else bs)
    else k (bs ++ String bsl (str1 b)).

(** Modelled from the spec: a literal in the regular modes; it ends at
    a word break, a quote, a dollar form or an extended glob, and the
    offset of an assignment's [=] (of its [+] for [+=]) is recorded in
    [asPos]. *)
Fixpoint advanceLitNoneLoop (n : nat) (bs : string) : M unit :=
  match n with
  | O => outOfFuel
  | S n' =>
    p <- get;;
    if srcLen p <=? npos p then finishLit _LitWord bs else
    let b := srcAt p (npos p) in
    let push := addNpos 1;; advanceLitNoneLoop n' (bs ++ str1 b) in
    if isb b bsl then escaped false bs (advanceLitNoneLoop n')
    else if wordBreak b || isb b cr then finishLit _LitWord bs
    else if byteIn b "?*+@!" then
      if bash p && isb (srcAt p (npos p + 1)) "(" then finishLit _Lit bs
      else push
    else if isb b "`" then
      finishLit (if quote p =? subCmdBckquo then _LitWord else _Lit) bs
    else if isb b dq || isb b "'" || isb b "$" then finishLit _Lit bs
    else if isb b "=" then
      (if asPos p =? 0 then
         let i := lenZ bs in
         if (0 <? i) && isb (byteAt bs (i - 1)) "+"
         then setAsPos (i - 1) else setAsPos i
       else ret tt);;
      push
    else push
  end.

(** Modelled from the spec: the literal reader of the regular modes. *)
Definition advanceLitNone : M unit :=
  p <- get;;
  setAsPos 0;;
  advanceLitNoneLoop (S (String.length (src p))) "".

(** Modelled from the spec: a literal in the other modes; it ends at
    the bytes that are tokens in the mode [q]. *)
Fixpoint advanceLitOtherLoop (n : nat) (q : quoteState) (bs : string) : M unit :=
  match n with
  | O => outOfFuel
  | S n' =>
    p <- get;;
    if srcLen p <=? npos p then finishLit _LitWord bs else
    let b := srcAt p (npos p) in
    let push := addNpos 1;; advanceLitOtherLoop n' q (bs ++ str1 b) in
    if isb b bsl then escaped false bs (advanceLitOtherLoop n' q)
    else if q =? sglQuotes then
      if isb b nl then appendLine (npos p + 1);; push
      else if isb b "'" then finishLit _Lit bs
      else push
    else if isb b "`" || isb b "$" then finishLit _Lit bs
    else if q =? paramExpExp then
      if isb b "}" then finishLit _LitWord bs
      else if isb b dq then finishLit _Lit bs
      else push
    else if q =? paramExpRepl then
      if isb b "}" || isb b "/" then finishLit _LitWord bs else push
    else if wordBreak b || regOps b
            || (inQuote q allArithmExpr && arithmOps b)
            || (inQuote q allParamExp && paramOps b)
            || (inQuote q allRbrack && isb b "]")
    then finishLit _LitWord bs
    else push
  end.

(** Modelled from the spec: [advanceLitOther], absent, which
    [parser.go] calls for the name of a short parameter expansion. *)
Definition advanceLitOther (q : quoteState) : M unit :=
  p <- get;;
  advanceLitOtherLoop (S (String.length (src p))) q "".

(** Modelled from the spec: a literal inside double quotes: it ends at
    the closing quote or at [$] or a backquote, and its newlines are
    added to the line table. *)
Fixpoint advanceLitDquoteLoop (n : nat) (bs : string) : M unit :=
  match n with
  | O => outOfFuel
  | S n' =>
    p <- get;;
    if srcLen p <=? npos p then finishLit _LitWord bs else
    let b := srcAt p (npos p) in
    let push := addNpos 1;; advanceLitDquoteLoop n' (bs ++ str1 b) in
    if isb b bsl then escaped true bs (advanceLitDquoteLoop n')
    else if isb b dq then finishLit _LitWord bs
    else if isb b "`" || isb b "$" then finishLit _Lit bs
    else if isb b nl then appendLine (npos p + 1);; push
    else push
  end.

(** Modelled from the spec: the literal reader of [dblQuotes]. *)
Definition advanceLitDquote : M unit :=
  p <- get;;
  advanceLitDquoteLoop (S (String.length (src p))) "".

(** Modelled from the spec: the offset after the TABs at [i] ("the
    tabs variant strips leading TABs from each line before comparing
    to the stop word"). *)
Fixpoint skipTabs (n : nat) (s : string) (i : Z) : Z :=
  match n with
  | O => i
  | S n' => if isb (byteAt s i) tab then skipTabs n' s (i + 1) else i
  end.

(** Modelled from the spec: whether the line that starts at [i] is the
    stop word of the heredoc being read ("a line equal to the stop
    word"); the result is the offset just past the stop word. *)
Definition stopLine (p : parser) (i : Z) : option Z :=
  match hdocStop p with
  | None => None
  | Some stop =>
    let i' := if quote p =? hdocBodyTabs
              then skipTabs (String.length (src p)) (src p) i else i in
    let e := i' + lenZ stop in
    if (i' <=? srcLen p) && hasPrefix stop (suffixZ (src p) i')
       && ((e =? srcLen p) || isb (srcAt p e) nl)
    then Some e else None
  end.

(** Modelled from the spec: a literal in a heredoc body whose stop
    word was not quoted; it ends at [$] or a backquote, or with the
    line before the stop word. *)
Fixpoint advanceLitHdocLoop (n : nat) (bs : string) : M unit :=
  match n with
  | O => outOfFuel
  | S n' =>
    p <- get;;
    if srcLen p <=? npos p then finishLit _LitWord bs else
    let b := srcAt p (npos p) in
    let push := addNpos 1;; advanceLitHdocLoop n' (bs ++ str1 b) in
    if isb b bsl then escaped true bs (advanceLitHdocLoop n')
    else if isb b "`" || isb b "$" then finishLit _Lit bs
    else if isb b nl then
      addNpos 1;; appendLine (npos p + 1);;
      p1 <- get;;
      match stopLine p1 (npos p1) with
      | Some e => finishLit _LitWord (bs ++ str1 nl);; setNpos e;; setHdocStop None
      | None => advanceLitHdocLoop n' (bs ++ str1 nl)
      end
    else push
  end.

(** Modelled from the spec: the cursor is at the start of a line. *)
Definition atLineStart (p : parser) : bool :=
  (npos p =? 0) || isb (srcAt p (npos p - 1)) nl.

(** Modelled from the spec: the literal reader of [hdocBody] and
    [hdocBodyTabs]; at the stop word the body ends ([hdocStop] is
    set to nil, and the lexer then gives no more tokens of the body). *)
Definition advanceLitHdoc : M unit :=
  p <- get;;
  match (if atLineStart p then stopLine p (npos p) else None) with
  | Some e => setTok illegalTok;; setNpos e;; setHdocStop None
  | None => advanceLitHdocLoop (S (String.length (src p))) ""
  end.

(** Modelled from the spec: [testRegexp], "right-hand side of [=~]":
    the pattern runs to the closing [ ]]]. *)
Definition advanceLitRe : M unit :=
  p <- get;;
  let rem := suffixZ (src p) (npos p) in
  setTok _LitWord;;
  match indexStr rem " ]]" with
  | None => setVal rem;; setNpos (srcLen p)
  | Some e => setVal (String.substring 0 (Z.to_nat e) rem);; addNpos e
  end.

(** Modelled from the spec: skip blanks, newlines and line
    continuations before a token; a newline drains the pending
    heredocs ("at the first newline outside a current nested context,
    doHeredocs drains the queue").  The result tells whether a token
    starts at the cursor. *)
Fixpoint skipSpace (n : nat) : M bool :=
  match n with
  | O => outOfFuel
  | S n' =>
    p <- get;;
    let b := srcAt p (npos p) in
    let again :=
      (p' <- get;;
       if srcLen p' <=? npos p' then setTok _EOF;; ret false
       else skipSpace n') in
    if isb b " " || isb b tab || isb b cr then
      setSpaced true;; addNpos 1;; again
    else if isb b nl then
      if quote p =? arithmExprLet then
        setTok illegalTok;; setNewLine true;; setSpaced true;; ret false
      else
        setSpaced true;;
        addNpos 1;;
        appendLine (npos p + 1);;
        setNewLine true;;
        p1 <- get;;
        if buriedHdocs p1 <? slen (heredocs p1) then
          f_doHeredocs rec;;
          t <- gets tok;;
          if tokEq t _EOF then ret false else again
        else again
    else if isb b bsl then
      if (npos p <? srcLen p - 1) && isb (srcAt p (npos p + 1)) nl then
        addNpos 2;; appendLine (npos p + 2);; again
      else ret true
    else ret true
  end.

(** Modelled from the spec: a comment kept in the file under
    [ParseComments]. *)
Definition addComment (c : Comment) : M unit :=
  modFile (fun fl => mkFile (Name fl) (Stmts fl) (Comments fl ++ [c]) (Lines fl)).

(** Modelled from the spec: [next], absent: the next token in the
    current mode.  At the end of the input, and once the token is EOF,
    the token is EOF. *)
Definition next_body : M unit :=
  p <- get;;
  if tokEq (tok p) _EOF || (srcLen p <=? npos p) then setTok _EOF else
  setSpaced false;; setNewLine false;;
  let b := srcAt p (npos p) in
  let q := quote p in
  setPos (npos p + 1);;
  if (q =? hdocWord) && wordBreak b then
    setTok illegalTok;; setSpaced true
  else if q =? paramExpRepl then
    if isb b "}" then bind (tokN 1 rightBrace) setTok
    else if isb b "/" then bind (tokN 1 slash) setTok
    else if isb b "`" || isb b dq || isb b "$" then bind (dqToken b) setTok
    else advanceLitOther q
  else if q =? dblQuotes then
    if isb b "`" || isb b dq || isb b "$" then bind (dqToken b) setTok
    else advanceLitDquote
  else if (q =? hdocBody) || (q =? hdocBodyTabs) then
    if isb b "`" || isb b "$" then bind (dqToken b) setTok
    else match hdocStop p with
         | None => setTok illegalTok
         | Some _ => advanceLitHdoc
         end
  else if q =? paramExpExp then
    if isb b "}" then bind (tokN 1 rightBrace) setTok
    else if isb b "`" || isb b dq || isb b "$" then bind (dqToken b) setTok
    else advanceLitOther q
  else if q =? sglQuotes then
    if isb b "'" then bind (tokN 1 sglQuote) setTok
    else advanceLitOther q
  else
    more <- skipSpace (S (String.length (src p)));;
    if negb more then ret tt else
    p <- get;;
    let b := srcAt p (npos p) in
    setPos (npos p + 1);;
    if inQuote q allRegTokens then
      if regOps b then bind (regToken b) setTok
      else if isb b "#" then
        addNpos 1;;
        '(bs, _) <- readUntil nl;;
        addNpos (lenZ bs);;
        when (negb (Z.land (mode p) ParseComments =? 0))
             (addComment (mkComment (npos p + 1) bs));;
        f_next rec
      else if byteIn b "?*+@!" then
        if bash p && isb (srcAt p (npos p + 1)) "(" then
          addNpos 2;;
          setTok (if isb b "?" then globQuest
                  else if isb b "*" then globStar
                  else if isb b "+" then globPlus
                  else if isb b "@" then globAt
                  else globExcl)
        else advanceLitNone
      else advanceLitNone
    else if inQuote q allArithmExpr && arithmOps b then
      bind (arithmToken b) setTok
    else if inQuote q allParamExp && paramOps b then
      bind (paramToken b) setTok
    else if q =? testRegexp then advanceLitRe
    else if regOps b then bind (regToken b) setTok
    else advanceLitOther q.

(** Modelled from the spec: the lines of a heredoc body whose stop
    word was quoted, up to the stop word; the result is the offset
    where the body ends. *)
Fixpoint hdocLitLoop (n : nat) (endp : Z) : M Z :=
  match n with
  | O => outOfFuel
  | S n' =>
    p <- get;;
    if srcLen p <=? npos p then ret (srcLen p) else
    let start := npos p in
    '(bs, found) <- readUntil nl;;
    (if found then addNpos (lenZ bs + 1);; appendLine (start + lenZ bs + 1)
     else setNpos (srcLen p));;
    let line := if quote p =? hdocBodyTabs
                then suffixZ bs (skipTabs (String.length bs) bs 0) else bs in
    if (match hdocStop p with
        | Some stop => String.eqb line stop
        | None => false end)
    then ret start
    else hdocLitLoop n' start
  end.

(** Modelled from the spec: [hdocLitWord], absent: the body of a
    heredoc whose stop word was quoted, verbatim, as one literal. *)
Definition hdocLitWord : M Word :=
  p <- get;;
  let start := npos p in
  endp <- hdocLitLoop (S (String.length (src p))) start;;
  p' <- get;;
  body <- deref (sliceZ (src p) start endp);;
  ret (MkWord [WLit (mkLit (start + 1) (npos p' + 1) body)]).
End Lexer.

(* ================================================================= *)
(** ** Nodes: fields of a statement, extents of a word *)

Definition newStmt (ps : Pos) : Stmt := MkStmt None ps 0 false false [] [].

Definition stmtCmd (s : Stmt) : option Command :=
  let 'MkStmt c _ _ _ _ _ _ := s in c.
Definition stmtPosition (s : Stmt) : Pos :=
  let 'MkStmt _ ps _ _ _ _ _ := s in ps.
Definition stmtNegated (s : Stmt) : bool :=
  let 'MkStmt _ _ _ n _ _ _ := s in n.
Definition stmtAssigns (s : Stmt) : list Assign :=
  let 'MkStmt _ _ _ _ _ a _ := s in a.
Definition stmtRedirs (s : Stmt) : list RedirPtr :=
  let 'MkStmt _ _ _ _ _ _ r := s in r.

Definition stmtSetCmd (c : option Command) (s : Stmt) : Stmt :=
  let 'MkStmt _ ps sp n b a r := s in MkStmt c ps sp n b a r.
Definition stmtSetSemiPos (sp : Pos) (s : Stmt) : Stmt :=
  let 'MkStmt c ps _ n b a r := s in MkStmt c ps sp n b a r.
Definition stmtSetNegated (n : bool) (s : Stmt) : Stmt :=
  let 'MkStmt c ps sp _ b a r := s in MkStmt c ps sp n b a r.
Definition stmtSetBackground (b : bool) (s : Stmt) : Stmt :=
  let 'MkStmt c ps sp n _ a r := s in MkStmt c ps sp n b a r.
Definition stmtAddAssign (x : Assign) (s : Stmt) : Stmt :=
  let 'MkStmt c ps sp n b a r := s in MkStmt c ps sp n b (a ++ [x]) r.
Definition stmtAddRedir (x : RedirPtr) (s : Stmt) : Stmt :=
  let 'MkStmt c ps sp n b a r := s in MkStmt c ps sp n b a (r ++ [x]).

Definition wordParts_ (w : Word) : list WordPart := let 'MkWord ps := w in ps.

(** Modelled from the spec: [Pos] and [End] of a word part, of the
    absent [nodes.go].  "End equals the byte just past the node's last
    source byte"; [Pos] is the offset of its first byte. *)
Definition wordPartPos (wp : WordPart) : Pos :=
  match wp with
  | WLit l => ValuePos l
  | SglQuoted ps _ _ => ps
  | DblQuoted ps _ _ => ps
  | CmdSubst l _ _ => l
  | WParamExp (MkParamExp d _ _ _ _ _ _ _ _) => d
  | ArithmExp l _ _ _ => l
  | ProcSubst op _ _ _ => op
  | ExtGlob _ op _ => op
  | ArrayExpr l _ _ => l
  end.

(** Modelled from the spec: [End] of a word part, "the byte just
    past the node's last source byte". *)
Fixpoint wordPartEnd (wp : WordPart) : Pos :=
  match wp with
  | WLit l => ValueEnd l
  | SglQuoted ps d v => ps + (if d then 1 else 0) + 1 + lenZ v + 1
  | DblQuoted ps d parts =>
      (fix lastEnd (l : list WordPart) (e : Pos) : Pos :=
         match l with
         | [] => e
         | x :: l' => lastEnd l' (wordPartEnd x)
         end) parts (ps + (if d then 1 else 0) + 1) + 1
  | CmdSubst _ r _ => r + 1
  | WParamExp (MkParamExp d rb short _ param _ _ _ _) =>
      if short then match param with Some l => ValueEnd l | None => d + 1 end
      else rb + 1
  | ArithmExp _ r br _ => if br then r + 1 else r + 2
  | ProcSubst _ r _ _ => r + 1
  | ExtGlob _ op pat =>
      match pat with Some l => ValueEnd l + 1 | None => op + 2 end
  | ArrayExpr _ r _ => r + 1
  end.

(** Modelled from the spec: [Word.Pos], the offset of the first part. *)
Definition wordPos (w : Word) : Pos :=
  match wordParts_ w with
  | wp :: _ => wordPartPos wp
  | [] => 0
  end.

(** Modelled from the spec: [Word.End], the end of the last part. *)
Definition wordEnd (w : Word) : Pos :=
  match wordParts_ w with
  | [] => 0
  | wp :: ps => wordPartEnd (last ps wp)
  end.

(** [unquotedWordPart]: the bytes a part of a heredoc stop word
    stands for, and whether it was quoted; nothing where Go panics
    ([x.Value[0]] of an empty literal, a slice out of range). *)
Fixpoint unquotedWordPart (srcs : string) (wp : WordPart) : option (string * bool) :=
  match wp with
  | WLit l =>
      match Value l with
      | EmptyString => None
      | String c rest => if isb c bsl then Some (rest, true)
                         else Some (Value l, false)
      end
  | SglQuoted _ _ v => Some (v, true)
  | DblQuoted _ _ parts =>
      option_map (fun s => (s, true))
        ((fix parts2 (l : list WordPart) : option string :=
            match l with
            | [] => Some ""
            | x :: l' =>
                match unquotedWordPart srcs x, parts2 l' with
                | Some (s, _), Some s' => Some (s ++ s')
                | _, _ => None
                end
            end) parts)
  | _ =>
      (* catch-all for unusual cases such as ParamExp *)
      option_map (fun s => (s, false))
        (sliceZ srcs (wordPartPos wp - 1) (wordPartEnd wp - 1))
  end.

Fixpoint unquotedParts (srcs : string) (l : list WordPart) : option (string * bool) :=
  match l with
  | [] => Some ("", false)
  | wp :: l' =>
      match unquotedWordPart srcs wp, unquotedParts srcs l' with
      | Some (s, u), Some (s', u') => Some (s ++ s', u || u')
      | _, _ => None
      end
  end.

Definition isSome {A : Type} (o : option A) : bool :=
  match o with Some _ => true | None => false end.
Definition isNone {A : Type} (o : option A) : bool := negb (isSome o).

Definition strIn (s : string) (l : list string) : bool := existsb (String.eqb s) l.

Definition writeAt {A : Type} (l : list A) (i : nat) (v : A) : list A :=
  firstn i l ++ [v] ++ skipn (S i) l.

Definition arithmOpLevel (op : token) : Z :=
  if tokIn op [Op.Comma] then 0
  else if tokIn op [Op.AddAssgn; Op.SubAssgn; Op.MulAssgn; Op.QuoAssgn;
                    Op.RemAssgn; Op.AndAssgn; Op.OrAssgn; Op.XorAssgn;
                    Op.ShlAssgn; Op.ShrAssgn] then 1
  else if tokIn op [Op.Assgn] then 2
  else if tokIn op [Op.Quest; Op.Colon] then 3
  else if tokIn op [Op.AndArit; Op.OrArit] then 4
  else if tokIn op [Op.And; Op.Or; Op.Xor] then 5
  else if tokIn op [Op.Eql; Op.Neq] then 6
  else if tokIn op [Op.Lss; Op.Gtr; Op.Leq; Op.Geq] then 7
  else if tokIn op [Op.Shl; Op.Shr] then 8
  else if tokIn op [Op.Add; Op.Sub] then 9
  else if tokIn op [Op.Mul; Op.Quo; Op.Rem] then 10
  else if tokIn op [Op.Pow] then 11
  else -1.

Definition stopToken (t : token) : bool :=
  tokIn t [_EOF; semicolon; and; or; andAnd; orOr; pipeAll; dblSemicolon;
           semiFall; dblSemiFall; rightParen].

Definition redirToks : list token :=
  [rdrOut; appOut; rdrIn; dplIn; dplOut; clbOut; rdrInOut;
   hdoc; dashHdoc; wordHdoc; rdrAll; appAll].

Definition wordStartToks : list token :=
  [_Lit; dollBrace; dollDblParen; dollParen; dollar; cmdIn; cmdOut;
   sglQuote; dollSglQuote; dblQuote; dollDblQuote; dollBrack;
   globQuest; globStar; globPlus; globAt; globExcl].

Definition litRedir (srcs : string) (np : Z) : bool :=
  (np + 1 <? lenZ srcs)
  && (isb (byteAt srcs np) ">" || isb (byteAt srcs np) "<")
  && negb (isb (byteAt srcs (np + 1)) "(").

Definition bashDeclareWord (s : string) : bool :=
  strIn s ["declare"; "local"; "export"; "readonly"; "typeset"; "nameref"].

(** The command a literal word heads: the [switch] of [gotStmtPipe]
    on [p.val], whose cases for the clauses of the extended dialect
    are guarded by [p.bash()]. *)
Inductive head : Set :=
  | HRbrace | HBlock | HIf | HWhile | HUntil | HFor | HCase
  | HTest | HDecl | HEval | HCoproc | HLet | HFunction
  | HWord.

Definition cmdHead (bashMode : bool) (v : string) : head :=
  if String.eqb v "}" then HRbrace
  else if String.eqb v "{" then HBlock
  else if String.eqb v "if" then HIf
  else if String.eqb v "while" then HWhile
  else if String.eqb v "until" then HUntil
  else if String.eqb v "for" then HFor
  else if String.eqb v "case" then HCase
  else if bashMode && String.eqb v "[[" then HTest
  else if bashMode && bashDeclareWord v then HDecl
  else if bashMode && String.eqb v "eval" then HEval
  else if bashMode && String.eqb v "coproc" then HCoproc
  else if bashMode && String.eqb v "let" then HLet
  else if bashMode && String.eqb v "function" then HFunction
  else HWord.

Definition isBashCompoundCommand (t : token) (v : string) : bool :=
  if tokIn t [leftParen; dblLeftParen] then true
  else if tokEq t _LitWord then
    strIn v ["{"; "if"; "while"; "until"; "for"; "case"; "[["; "eval";
             "coproc"; "let"; "function"]
    || bashDeclareWord v
  else false.

(** Modelled from the spec: [testUnaryOp] and [testBinaryOp], of the
    absent [tokens.go]: the test operator a word spells, or
    [illegalTok] ("unary/binary test operators" of the token
    surface). *)
Definition testUnaryOp (v : string) : token :=
  if String.eqb v "!" then exclMark
  else match find (fun t => String.eqb v (tokString t))
         [tsExists; tsRegFile; tsDirect; tsCharSp; tsBlckSp; tsNmPipe;
          tsSocket; tsSmbLink; tsGIDSet; tsUIDSet; tsRead; tsWrite;
          tsExec; tsNoEmpty; tsFdTerm; tsEmpStr; tsNempStr; tsOptSet;
          tsVarSet; tsRefVar] with
       | Some t => t
       | None => illegalTok
       end.

(** Modelled from the spec: [testBinaryOp], the binary test operator
    a word spells, or [illegalTok]. *)
Definition testBinaryOp (v : string) : token :=
  match find (fun t => String.eqb v (tokString t))
    [assgn; equal; nequal; tsReMatch; tsNewer; tsOlder; tsDevIno; tsEql;
     tsNeq; tsLeq; tsGeq; tsLss; tsGtr] with
  | Some t => t
  | None => illegalTok
  end.

(* ================================================================= *)
(** ** The parser ([parser.go]) *)

Definition setN (v : option Lit) (r : Redirect) : Redirect :=
  mkRedirect (OpPos r) (Op r) v (RWord r) (Hdoc r).
Definition setOp (o : token) (ps : Pos) (r : Redirect) : Redirect :=
  mkRedirect ps o (N r) (RWord r) (Hdoc r).
Definition setRWord (v : option Word) (r : Redirect) : Redirect :=
  mkRedirect (OpPos r) (Op r) (N r) v (Hdoc r).
Definition setHdoc (v : option Word) (r : Redirect) : Redirect :=
  mkRedirect (OpPos r) (Op r) (N r) (RWord r) v.

Definition peekArithmEnd (p : parser) : bool :=
  tokEq (tok p) rightParen && (npos p <? srcLen p) && isb (srcAt p (npos p)) ")".

Definition peekRedir (p : parser) : bool :=
  if tokEq (tok p) _LitWord then litRedir (src p) (npos p)
  else tokIn (tok p) redirToks.

Fixpoint validIdentFrom (bashMode : bool) (i : nat) (s : string) : bool :=
  match s with
  | EmptyString => true
  | String c s' =>
      let n := nat_of_ascii c in
      ((Nat.leb 97 n && Nat.leb n 122)
       || (Nat.leb 65 n && Nat.leb n 90)
       || isb c "_"
       || (Nat.ltb 0 i && Nat.leb 48 n && Nat.leb n 57)
       || (Nat.ltb 0 i && (isb c "[" || isb c "]") && bashMode))
      && validIdentFrom bashMode (S i) s'
  end.

Section Parser.
Variable rec : fns.
Local Abbreviation next := (f_next rec).
Local Abbreviation loop := (@f_loop rec _ _).

Definition lit (ps : Pos) (v : string) : M Lit :=
  n <- gets npos;; ret (mkLit ps (n + 1) v).

Definition preNested (q : quoteState) : M saveState :=
  p <- get;;
  setBuriedHdocs (slen (heredocs p));;
  setQuote q;;
  ret (mkSave (quote p) (buriedHdocs p)).

Definition postNested (s : saveState) : M unit :=
  setQuote (squote s);; setBuriedHdocs (sburied s).

Definition unquotedWordBytes (w : option Word) : M (string * bool) :=
  w' <- deref w;;
  p <- get;;
  deref (unquotedParts (src p) (wordParts_ w')).

(** *** The store of [Redirect] objects and the queue of heredocs *)

(** [&Redirect{}] *)
Definition newRedirect : M RedirPtr :=
  rs <- gets redirs;;
  setRedirs (rs ++ [mkRedirect 0 illegalTok None None None])%list;;
  ret (List.length rs).

Definition redirect (r : RedirPtr) : M Redirect :=
  rs <- gets redirs;; deref (nth_error rs r).

Definition updRedirect (r : RedirPtr) (h : Redirect -> Redirect) : M unit :=
  c <- redirect r;;
  rs <- gets redirs;;
  setRedirs (writeAt rs r (h c)).

(** [p.heredocs = append(p.heredocs, r)]: written in place while
    the backing array has room, else copied to a new array of twice
    the capacity (Go's growth for a short slice of pointers). *)
Definition appendHeredoc (r : RedirPtr) : M unit :=
  p <- get;;
  let h := heredocs p in
  a <- deref (nth_error (arrays p) (sarr h));;
  if slen h <? acap a then
    setArrays (writeAt (arrays p) (sarr h)
                 (mkArray (acap a) (writeAt (elems a) (Z.to_nat (slen h)) r)));;
    setHeredocs (mkSlice (sarr h) (slen h + 1))
  else
    let newcap := if acap a =? 0 then 1 else 2 * acap a in
    setArrays (arrays p ++
               [mkArray newcap (firstn (Z.to_nat (slen h)) (elems a) ++ [r])])%list;;
    setHeredocs (mkSlice (List.length (arrays p)) (slen h + 1)).

(** [hdocs[i]] for [hdocs := p.heredocs[lo:]] taken on array [a]:
    the element is read from the array when the loop gets to it. *)
Definition readHdocs (a : nat) (lo i : Z) : M RedirPtr :=
  p <- get;;
  arr <- deref (nth_error (arrays p) a);;
  deref (nth_error (elems arr) (Z.to_nat (lo + i))).

(** *** Tokens *)

Definition got (t : token) : M bool :=
  t' <- gets tok;;
  if tokEq t' t then next;; ret true else ret false.

Definition gotRsrv (v : string) : M bool :=
  p <- get;;
  if tokEq (tok p) _LitWord && String.eqb (val p) v
  then next;; ret true else ret false.

Definition gotSameLine (t : token) : M bool :=
  p <- get;;
  if negb (newLine p) && tokEq (tok p) t
  then next;; ret true else ret false.

(** *** Errors *)

Definition followErr (ps : Pos) (left right : string) : M unit :=
  posErr ps (readableStr left ++ " must be followed by " ++ right).

Definition followErrExp (ps : Pos) (left : string) : M unit :=
  followErr ps left "an expression".

Definition follow (lpos : Pos) (left : string) (t : token) : M Pos :=
  ps <- gets pos;;
  ok <- got t;;
  when (negb ok) (followErr lpos left (tokString t));;
  ret ps.

Definition followRsrv (lpos : Pos) (left v : string) : M Pos :=
  ps <- gets pos;;
  ok <- gotRsrv v;;
  when (negb ok) (followErr lpos left (quoteGo v));;
  ret ps.

Definition followStmts (left : string) (lpos : Pos) (stops : list string)
  : M (list Stmt) :=
  semi <- gotSameLine semicolon;;
  if semi then ret [] else
  sts <- f_stmts rec stops;;
  nlb <- gets newLine;;
  when ((Z.of_nat (List.length sts) <? 1) && negb nlb)
       (followErr lpos left "a statement list");;
  ret sts.

Definition quoteErr (lpos : Pos) (q : token) : M unit :=
  t <- gets tok;;
  posErr lpos ("reached " ++ tokString t ++ " without closing quote "
               ++ tokString q).

Definition matchingErr (lpos : Pos) (left right : string) : M unit :=
  t <- gets tok;;
  posErr lpos ("reached " ++ tokString t ++ " without matching "
               ++ left ++ " with " ++ right).

Definition matched (lpos : Pos) (left right : token) : M Pos :=
  ps <- gets pos;;
  ok <- got right;;
  when (negb ok) (matchingErr lpos (tokString left) (tokString right));;
  ret ps.

(** [stmtEnd]; [npos0] is [n.Pos()], the opening keyword. *)
Definition stmtEnd (npos0 : Pos) (start end_ : string) : M Pos :=
  ps <- gets pos;;
  ok <- gotRsrv end_;;
  when (negb ok)
       (posErr npos0 (start ++ " statement must end with " ++ quoteGo end_));;
  ret ps.

Definition invalidStmtStart : M unit :=
  t <- gets tok;;
  if tokIn t [semicolon; and; or; andAnd; orOr] then
    curErr (tokString t ++ " can only immediately follow a statement")
  else if tokEq t rightParen then
    curErr (tokString t ++ " can only be used to close a subshell")
  else
    curErr (tokString t ++ " is not a valid start for a statement").

(** *** Words *)

Definition wordParts : M (list WordPart) :=
  loop (fun wps : list WordPart =>
          n <- f_wordPart rec;;
          match n with
          | None => ret (inr wps)
          | Some wp =>
              sp <- gets spaced;;
              if sp then ret (inr (wps ++ [wp])%list) else ret (inl (wps ++ [wp])%list)
          end) [].

Definition getWord : M (option Word) :=
  p <- get;;
  if tokEq (tok p) _LitWord then
    l <- lit (pos p) (val p);;
    next;;
    ret (Some (MkWord [WLit l]))
  else
    parts <- wordParts;;
    if 0 <? Z.of_nat (List.length parts) then ret (Some (MkWord parts))
    else ret None.

Definition getWordOrEmpty : M Word :=
  parts <- wordParts;;
  if Z.of_nat (List.length parts) =? 0 then
    p <- get;;
    let oldNpos := npos p in
    (* force Lit.Pos() == Lit.End() *)
    setNpos (pos p - 1);;
    l <- lit (pos p) "";;
    setNpos oldNpos;;
    ret (MkWord [WLit l])
  else ret (MkWord parts).

Definition getLit : M (option Lit) :=
  p <- get;;
  if tokIn (tok p) [_Lit; _LitWord] then
    l <- lit (pos p) (val p);;
    next;;
    ret (Some l)
  else ret None.

Definition followWordTok (t : token) (ps : Pos) : M (option Word) :=
  w <- getWord;;
  when (isNone w) (followErr ps (tokString t) "a word");;
  ret w.

Definition followWord (s : string) (ps : Pos) : M (option Word) :=
  w <- getWord;;
  when (isNone w) (followErr ps s "a word");;
  ret w.

(** *** Heredocs *)

Definition doHeredocs_body : M unit :=
  setTok illegalTok;;
  p <- get;;
  let old := quote p in
  let h := heredocs p in
  let lo := buriedHdocs p in
  (* hdocs := p.heredocs[p.buriedHdocs:]
     p.heredocs = p.heredocs[:p.buriedHdocs] *)
  if (lo <? 0) || (slen h <? lo) then panic else
  setHeredocs (mkSlice (sarr h) lo);;
  loop (fun i : Z =>
          if slen h - lo <=? i then ret (inr tt) else
          r <- readHdocs (sarr h) lo i;;
          c <- redirect r;;
          setQuote (if tokEq (Op c) Op.DashHdoc then hdocBodyTabs else hdocBody);;
          '(stop, quoted) <- unquotedWordBytes (RWord c);;
          setHdocStop (Some stop);;
          p1 <- get;;
          when ((0 <? i) && (npos p1 <? srcLen p1) && isb (srcAt p1 (npos p1)) nl)
               (addNpos 1;; appendLine (npos p1 + 1));;
          (if negb quoted then
             next;;
             w <- getWordOrEmpty;;
             updRedirect r (setHdoc (Some w))
           else
             w <- hdocLitWord;;
             updRedirect r (setHdoc (Some w)));;
          ret (inl (i + 1))) 0;;
  setQuote old.

(** *** Statement lists *)

Definition stmts_body (stops : list string) : M (list Stmt) :=
  q <- gets quote;;
  loop (fun st : list Stmt * bool =>
          let '(sts, gotEnd) := st in
          p <- get;;
          let t := tok p in
          if tokEq t _EOF then ret (inr sts)
          else if tokEq t _LitWord && strIn (val p) stops then ret (inr sts)
          else if tokEq t rightParen && (q =? subCmd) then ret (inr sts)
          else if tokEq t bckQuote && (q =? subCmdBckquo) then ret (inr sts)
          else if tokIn t [dblSemicolon; semiFall; dblSemiFall]
                  && (q =? switchCase) then ret (inr sts)
          else
            when (tokIn t [dblSemicolon; semiFall; dblSemiFall])
                 (curErr (tokString t ++ " can only be used in a case clause"));;
            nlb <- gets newLine;;
            when (negb nlb && negb gotEnd)
                 (curErr "statements must be separated by &, ; or a newline");;
            t' <- gets tok;;
            if tokEq t' _EOF then ret (inr sts) else
            '(s, e) <- f_getStmt rec true;;
            match s with
            | None => invalidStmtStart;; ret (inl (sts, gotEnd))
            | Some s' => ret (inl ((sts ++ [s'])%list, e))
            end) ([], true).

(** *** Word parts *)

Definition couldBeArithm : M bool :=
  (* save state *)
  p <- get;;
  let oldTok := tok p in
  let oldNpos := npos p in
  fl <- getFile;;
  let oldLines := List.length (Lines fl) in
  next;;
  could <- loop (fun lparens : Z =>
          p1 <- get;;
          let t := tok p1 in
          if tokEq t _EOF then ret (inr false)
          else if tokIn t [leftParen; dollParen] then
            next;; ret (inl (lparens + 1))
          else if tokIn t [dollDblParen; dblLeftParen] then
            next;; ret (inl (lparens + 2))
          else if tokEq t rightParen then
            if lparens =? 0 then ret (inr (peekArithmEnd p1))
            else next;; ret (inl (lparens - 1))
          else next;; ret (inl lparens)) 0;;
  (* recover state *)
  setTok oldTok;;
  setNpos oldNpos;;
  modFile (fun fl => mkFile (Name fl) (Stmts fl) (Comments fl)
                            (firstn oldLines (Lines fl)));;
  ret could.

Definition arithmEnd (ltok : token) (lpos : Pos) (old : saveState) : M Pos :=
  p <- get;;
  (if peekArithmEnd p then addNpos 1
   else matchingErr lpos (tokString ltok) (tokString dblRightParen));;
  postNested old;;
  ps <- gets pos;;
  next;;
  ret ps.

Definition paramExp : M ParamExp :=
  dollarPos <- gets pos;;
  old <- preNested paramExpName;;
  next;;
  t0 <- gets tok;;
  when (tokEq t0 dblHash) (setTok hash;; addNpos (-1));;
  length <- (if tokIn t0 [dblHash; hash] then
               p1 <- get;;
               if (npos p1 <? srcLen p1) && negb (isb (srcAt p1 (npos p1)) "}")
               then next;; ret true
               else ret false
             else ret false);;
  p2 <- get;;
  param <- (if tokIn (tok p2) [_Lit; _LitWord] then
              l <- lit (pos p2) (val p2);; next;; ret (Some l)
            else if tokIn (tok p2) [dollar; quest; hash; minus] then
              l <- lit (pos p2) (tokString (tok p2));; next;; ret (Some l)
            else
              when (negb length)
                   (posErr dollarPos "parameter expansion requires a literal");;
              ret None);;
  p3 <- get;;
  if tokEq (tok p3) rightBrace then
    postNested old;;
    next;;
    ret (MkParamExp dollarPos (pos p3) false length param None None None None)
  else
  ind <- (if tokEq (tok p3) leftBrack then
            posixRejects p3 "arrays are a bash feature";;
            lpos <- gets pos;;
            setQuote paramExpInd;;
            next;;
            t <- gets tok;;
            when (tokEq t star) (setTok _LitWord;; setVal "*");;
            e <- f_arithmExpr rec leftBrack lpos 0 false false;;
            when (isNone e) (followErrExp lpos "[");;
            setQuote paramExpName;;
            _ <- matched lpos leftBrack rightBrack;;
            ret (Some (MkIndex e))
          else ret None);;
  p4 <- get;;
  if tokEq (tok p4) rightBrace then
    postNested old;;
    next;;
    ret (MkParamExp dollarPos (pos p4) false length param ind None None None)
  else
  '(slice_, repl, exp) <-
    (if tokIn (tok p4) [slash; dblSlash] then
       posixRejects p4 "search and replace is a bash feature";;
       t1 <- gets tok;;
       setQuote paramExpRepl;;
       next;;
       orig <- getWordOrEmpty;;
       t2 <- gets tok;;
       when (tokEq t2 slash) (setQuote paramExpExp;; next);;
       wth <- getWordOrEmpty;;
       ret (None, Some (MkReplace (tokEq t1 dblSlash) (Some orig) (Some wth)), None)
     else if tokEq (tok p4) colon then
       posixRejects p4 "slicing is a bash feature";;
       colonPos <- gets pos;;
       setQuote paramExpOff;;
       next;;
       t1 <- gets tok;;
       off <- (if negb (tokEq t1 colon) then
                 o <- f_arithmExpr rec colon colonPos 0 false false;;
                 when (isNone o) (followErrExp colonPos ":");;
                 ret o
               else ret None);;
       colonPos2 <- gets pos;;
       setQuote paramExpLen;;
       g <- got colon;;
       len <- (if g then
                 l <- f_arithmExpr rec colon colonPos2 0 false false;;
                 when (isNone l) (followErrExp colonPos2 ":");;
                 ret l
               else ret None);;
       ret (Some (MkSlice off len), None, None)
     else
       when (tokIn (tok p4) [caret; dblCaret; comma; dblComma])
            (posixRejects p4 "case expansions are a bash feature");;
       t1 <- gets tok;;
       setQuote paramExpExp;;
       next;;
       w <- getWordOrEmpty;;
       ret (None, None, Some (MkExpansion t1 (Some w))));;
  postNested old;;
  rb <- gets pos;;
  _ <- matched dollarPos dollBrace rightBrace;;
  ret (MkParamExp dollarPos rb false length param ind slice_ repl exp).

(** The lines of a single-quoted string: the cursor moves over its
    bytes and each newline starts a line. *)
Fixpoint sglQuoteLines (bs : string) : M unit :=
  match bs with
  | EmptyString => ret tt
  | String b bs' =>
      addNpos 1;;
      (if isb b nl then n <- gets npos;; appendLine n else ret tt);;
      sglQuoteLines bs'
  end.

(** The byte loop of an extended glob: the pattern runs to the
    parenthesis that closes it. *)
Fixpoint extGlobLoop (rem : string) (start lparens : Z) : M (option Lit * Z) :=
  match rem with
  | EmptyString => ret (None, lparens)
  | String b rem' =>
      if isb b "(" then addNpos 1;; extGlobLoop rem' start (lparens + 1)
      else if isb b ")" then
        if lparens - 1 <? 0 then
          p <- get;;
          v <- deref (sliceZ (src p) start (npos p));;
          l <- lit (start + 1) v;;
          addNpos 1;;
          ret (Some l, lparens - 1)
        else addNpos 1;; extGlobLoop rem' start (lparens - 1)
      else addNpos 1;; extGlobLoop rem' start lparens
  end.

Definition wordPart_body : M (option WordPart) :=
  p <- get;;
  let t := tok p in
  if tokIn t [_Lit; _LitWord] then
    l <- lit (pos p) (val p);;
    next;;
    ret (Some (WLit l))
  else if tokEq t dollBrace then
    pe <- paramExp;; ret (Some (WParamExp pe))
  else if tokIn t [dollDblParen; dollBrack] then
    let left := t in
    let arLeft := pos p in
    let bracket := tokEq left dollBrack in
    old <- preNested arithmExpr_;;
    fallback <- (if bracket then setQuote arithmExprBrack;; ret false
                 else c <- couldBeArithm;; ret (negb c));;
    if fallback then
      postNested old;;
      setNpos (arLeft + 1);;
      setTok dollParen;;
      setPos arLeft;;
      wp <- f_wordPart rec;;
      e <- gets err;;
      when (isSome e)
           (setErr None;;
            matchingErr arLeft (tokString dollDblParen) (tokString dblRightParen));;
      ret wp
    else
      next;;
      x <- f_arithmExpr rec left arLeft 0 false false;;
      if bracket then
        t1 <- gets tok;;
        when (negb (tokEq t1 rightBrack))
             (matchingErr arLeft (tokString dollBrack) (tokString rightBrack));;
        postNested old;;
        r <- gets pos;;
        next;;
        ret (Some (ArithmExp arLeft r bracket x))
      else
        r <- arithmEnd dollDblParen arLeft old;;
        ret (Some (ArithmExp arLeft r bracket x))
  else if tokEq t dollParen then
    when (quote p =? hdocWord)
         (curErr "nested statements not allowed in heredoc words");;
    let left := pos p in
    old <- preNested subCmd;;
    next;;
    sts <- f_stmts rec [];;
    postNested old;;
    r <- matched left leftParen rightParen;;
    ret (Some (CmdSubst left r sts))
  else if tokEq t dollar then
    let b := if npos p <? srcLen p then srcAt p (npos p) else nul in
    if isb b nul || wordBreak b || isb b dq || isb b "'" || isb b "`" || isb b "["
    then
      l <- lit (pos p) "$";;
      next;;
      ret (Some (WLit l))
    else
      let dollarPos := pos p in
      setPos (pos p + 1);;
      (if byteIn b "@*#$?!0-" then
         addNpos 1;; setTok _Lit;; setVal (str1 b)
       else advanceLitOther (quote p));;
      l <- getLit;;
      ret (Some (WParamExp
                   (MkParamExp dollarPos 0 true false l None None None None)))
  else if tokIn t [cmdIn; cmdOut] then
    let opPos := pos p in
    old <- preNested subCmd;;
    next;;
    sts <- f_stmts rec [];;
    postNested old;;
    r <- matched opPos t rightParen;;
    ret (Some (ProcSubst opPos r t sts))
  else if tokEq t sglQuote then
    let sqPos := pos p in
    '(bs, found) <- readUntil "'";;
    sglQuoteLines bs;;
    addNpos 1;;
    when (negb found)
         (posErr sqPos ("reached EOF without closing quote " ++ tokString sglQuote));;
    next;;
    ret (Some (SglQuoted sqPos false bs))
  else if tokEq t dollSglQuote then
    let sqPos := pos p in
    let old := quote p in
    setQuote sglQuotes;;
    next;;
    setQuote old;;
    t1 <- gets tok;;
    v <- (if negb (tokEq t1 sglQuote) then v <- gets val;; next;; ret v
          else ret "");;
    ok <- got sglQuote;;
    when (negb ok) (quoteErr sqPos sglQuote);;
    ret (Some (SglQuoted sqPos true v))
  else if tokEq t dblQuote && (quote p =? dblQuotes) then ret None
  else if tokIn t [dblQuote; dollDblQuote] then
    let qPos := pos p in
    let old := quote p in
    setQuote dblQuotes;;
    next;;
    p1 <- get;;
    parts <- (if tokEq (tok p1) _LitWord then
                l <- lit (pos p1) (val p1);; next;; ret [WLit l]
              else wordParts);;
    setQuote old;;
    ok <- got dblQuote;;
    when (negb ok) (quoteErr qPos dblQuote);;
    ret (Some (DblQuoted qPos (tokEq t dollDblQuote) parts))
  else if tokEq t bckQuote then
    if quote p =? subCmdBckquo then ret None else
    when (quote p =? hdocWord)
         (curErr "nested statements not allowed in heredoc words");;
    let left := pos p in
    old <- preNested subCmdBckquo;;
    next;;
    sts <- f_stmts rec [];;
    postNested old;;
    r <- gets pos;;
    ok <- got bckQuote;;
    when (negb ok) (quoteErr left bckQuote);;
    ret (Some (CmdSubst left r sts))
  else if tokIn t [globQuest; globStar; globPlus; globAt; globExcl] then
    let opPos := pos p in
    let start := npos p in
    '(pat, lparens) <- extGlobLoop (suffixZ (src p) start) start 0;;
    next;;
    when (negb (lparens =? -1))
         (ps <- gets pos;; matchingErr ps (tokString t) (tokString rightParen));;
    ret (Some (ExtGlob t opPos pat))
  else ret None.

(** *** Arithmetic expressions *)

(** The part of [arithmExpr] after the left operand. *)
Definition arithmExprRest (left : option ArithmExpr) (level : Z)
           (compact tern : bool) : M (option ArithmExpr) :=
  p <- get;;
  if compact && spaced p then ret left else
  let newLevel := arithmOpLevel (tok p) in
  let newLevel :=
    if negb tern && tokEq (tok p) colon && inQuote (quote p) allParamArith
    then -1 else newLevel in
  invalid <-
    (if newLevel <? 0 then
       if tokIn (tok p) [_Lit; _LitWord] then
         curErr ("not a valid arithmetic operator: " ++ val p);; ret true
       else if tokIn (tok p) [rightParen; _EOF] then ret false
       else if quote p =? arithmExpr_ then
         curErr ("not a valid arithmetic operator: " ++ tokString (tok p));;
         ret true
       else ret false
     else ret false);;
  if invalid then ret None else
  if (newLevel <? 0) || (newLevel <? level) then ret left else
  let opPos := pos p in
  let op := tok p in
  next;;
  sp <- gets spaced;;
  when (compact && sp) (followErrExp opPos (tokString op));;
  y <- f_arithmExpr rec op opPos newLevel compact (tokEq op Op.Quest);;
  when (isNone y) (followErrExp opPos (tokString op));;
  ret (Some (BinaryArithm opPos op left y)).

Definition arithmExpr_body (ftok : token) (fpos : Pos) (level : Z)
           (compact tern : bool) : M (option ArithmExpr) :=
  p <- get;;
  if tokEq (tok p) _EOF || peekArithmEnd p then ret None else
  left <- (if 11 <? level then f_arithmExprBase rec ftok fpos compact
           else f_arithmExpr rec ftok fpos (level + 1) compact false);;
  arithmExprRest left level compact tern.

Definition arithmExprBase_body (ftok : token) (fpos : Pos) (compact : bool)
  : M (option ArithmExpr) :=
  p <- get;;
  let t := tok p in
  if tokIn t [addAdd; subSub; exclMark] then
    let opPos := pos p in
    next;;
    x <- f_arithmExprBase rec t opPos compact;;
    when (isNone x) (followErrExp opPos (tokString t));;
    ret (Some (UnaryArithm opPos t false x))
  else
  (* [inr]: the [return nil] of the backquote case *)
  x <- (if tokEq t leftParen then
          let lparen := pos p in
          next;;
          x <- f_arithmExpr rec leftParen lparen 0 false false;;
          when (isNone x) (posErr lparen "parentheses must enclose an expression");;
          rparen <- matched lparen leftParen rightParen;;
          ret (inl (Some (ParenArithm lparen rparen x)))
        else if tokIn t [plus; minus] then
          let opPos := pos p in
          next;;
          sp <- gets spaced;;
          when (compact && sp) (followErrExp opPos (tokString t));;
          x <- f_arithmExpr rec t opPos 0 compact false;;
          when (isNone x) (followErrExp opPos (tokString t));;
          ret (inl (Some (UnaryArithm opPos t false x)))
        else if tokEq t bckQuote && (quote p =? arithmExprLet) then
          ret (inr tt)
        else
          w <- getWord;;
          ret (inl (option_map AWord w)));;
  match x with
  | inr _ => ret None
  | inl x =>
      p1 <- get;;
      if compact && spaced p1 then ret x else
      if tokIn (tok p1) [addAdd; subSub] then
        next;;
        ret (Some (UnaryArithm (pos p1) (tok p1) true x))
      else ret x
  end.

(** *** Assignments and redirects *)

Definition validIdent : M bool :=
  p <- get;;
  if asPos p <=? 0 then ret false else
  s <- deref (sliceZ (val p) 0 (asPos p));;
  ret (validIdentFrom (bash p) 0 s).

Definition getAssign : M Assign :=
  p <- get;;
  let asPos0 := asPos p in
  nameVal <- deref (sliceZ (val p) 0 asPos0);;
  (* since we're not using the entire p.val *)
  let name := mkLit (pos p) (pos p + asPos0) nameVal in
  c <- deref (byteZ (val p) asPos0);;
  let append := isb c "+" in
  let asPos1 := if append then asPos0 + 1 else asPos0 in
  startVal <- deref (sliceZ (val p) (asPos1 + 1) (lenZ (val p)));;
  start <- lit (pos p + 1) startVal;;
  let value0 :=
    if negb (String.eqb startVal "")
    then Some (MkWord [WLit (mkLit (ValuePos start + asPos1) (ValueEnd start)
                                   startVal)])
    else None in
  next;;
  p1 <- get;;
  if spaced p1 then ret (MkAssign append (Some name) value0) else
  if String.eqb startVal "" && tokEq (tok p1) leftParen then
    posixRejects p1 "arrays are a bash feature";;
    lparen <- gets pos;;
    next;;
    elems <- loop (fun l : list Word =>
              t <- gets tok;;
              if tokEq t _EOF || tokEq t rightParen then ret (inr l) else
              w <- getWord;;
              match w with
              | None => curErr "array elements must be words";; ret (inl l)
              | Some w' => ret (inl (l ++ [w'])%list)
              end) [];;
    rparen <- matched lparen leftParen rightParen;;
    ret (MkAssign append (Some name)
                  (Some (MkWord [ArrayExpr lparen rparen elems])))
  else if negb (newLine p1) && negb (stopToken (tok p1)) then
    w <- getWord;;
    match w, value0 with
    | Some w', None => ret (MkAssign append (Some name) (Some w'))
    | Some w', Some v =>
        ret (MkAssign append (Some name)
                      (Some (MkWord (wordParts_ v ++ wordParts_ w'))))
    | None, _ => ret (MkAssign append (Some name) value0)
    end
  else ret (MkAssign append (Some name) value0).

Definition doRedirect (s : Stmt) : M Stmt :=
  r <- newRedirect;;
  n <- getLit;;
  updRedirect r (setN n);;
  p <- get;;
  let op := tok p in
  let opPos := pos p in
  updRedirect r (setOp op opPos);;
  next;;
  (if tokIn op [Op.Hdoc; Op.DashHdoc] then
     old <- gets quote;;
     setQuote hdocWord;;
     nlb <- gets newLine;;
     when nlb (curErr "heredoc stop word must be on the same line");;
     appendHeredoc r;;
     w <- followWordTok op opPos;;
     updRedirect r (setRWord w);;
     setQuote old;;
     next
   else
     nlb <- gets newLine;;
     when nlb (curErr "redirect word must be on the same line");;
     w <- followWordTok op opPos;;
     updRedirect r (setRWord w));;
  ret (stmtAddRedir r s).

(** *** Commands *)

Definition callExpr (s : Stmt) (w : Word) : M (Command * Stmt) :=
  loop (fun st : Stmt * list Word =>
          let '(s, args) := st in
          p <- get;;
          let t := tok p in
          if newLine p then ret (inr (CallExpr args, s))
          else if tokIn t [_EOF; semicolon; and; or; andAnd; orOr; pipeAll;
                           dblSemicolon; semiFall; dblSemiFall] then
            ret (inr (CallExpr args, s))
          else if tokEq t _LitWord then
            if litRedir (src p) (npos p) then
              s' <- doRedirect s;; ret (inl (s', args))
            else
              l <- lit (pos p) (val p);;
              next;;
              ret (inl (s, (args ++ [MkWord [WLit l]])%list))
          else if tokEq t bckQuote && (quote p =? subCmdBckquo) then
            ret (inr (CallExpr args, s))
          else if tokEq t bckQuote || tokIn t wordStartToks then
            ps <- wordParts;;
            ret (inl (s, (args ++ [MkWord ps])%list))
          else if tokIn t redirToks then
            s' <- doRedirect s;; ret (inl (s', args))
          else if tokEq t rightParen && (quote p =? subCmd) then
            ret (inr (CallExpr args, s))
          else
            curErr "a command can only contain words and redirects";;
            ret (inl (s, args))) (s, [w]).

Definition funcDecl (name : Lit) (ps : Pos) : M Command :=
  '(body, _) <- f_getStmt rec false;;
  when (isNone body) (followErr ps "foo()" "a statement");;
  ret (FuncDecl ps (negb (ps =? ValuePos name)) name body).

Definition subshell : M Command :=
  lparen <- gets pos;;
  old <- preNested subCmd;;
  next;;
  sts <- f_stmts rec [];;
  postNested old;;
  rparen <- matched lparen leftParen rightParen;;
  ret (Subshell lparen rparen sts).

Definition arithmExpCmd : M Command :=
  left <- gets pos;;
  old <- preNested arithmExprCmd;;
  could <- couldBeArithm;;
  if negb could then
    postNested old;;
    setNpos left;;
    setTok leftParen;;
    setPos left;;
    s <- subshell;;
    e <- gets err;;
    when (isSome e)
         (setErr None;;
          matchingErr left (tokString dblLeftParen) (tokString dblRightParen));;
    ret s
  else
    next;;
    x <- f_arithmExpr rec dblLeftParen left 0 false false;;
    right <- arithmEnd dblLeftParen left old;;
    ret (ArithmCmd left right x).

Definition block : M Command :=
  lbrace <- gets pos;;
  next;;
  sts <- f_stmts rec ["}"];;
  rbrace <- gets pos;;
  ok <- gotRsrv "}";;
  when (negb ok) (matchingErr lbrace "{" "}");;
  ret (Block lbrace rbrace sts).

Definition ifClause : M Command :=
  ifPos <- gets pos;;
  next;;
  cond <- followStmts "if" ifPos ["then"];;
  thenPos <- followRsrv ifPos "if <cond>" "then";;
  thenStmts <- followStmts "then" thenPos ["fi"; "elif"; "else"];;
  elifPos0 <- gets pos;;
  elifs <- loop (fun st : Pos * list Elif =>
             let '(elifPos, elifs) := st in
             g <- gotRsrv "elif";;
             if negb g then ret (inr elifs) else
             c <- followStmts "elif" elifPos ["then"];;
             th <- followRsrv elifPos "elif <cond>" "then";;
             ts <- followStmts "then" th ["fi"; "elif"; "else"];;
             ps <- gets pos;;
             ret (inl (ps, (elifs ++ [MkElif elifPos th c ts])%list)))
           (elifPos0, []);;
  elsePos <- gets pos;;
  g <- gotRsrv "else";;
  '(els, elseStmts) <- (if g then
                          sts <- followStmts "else" elsePos ["fi"];;
                          ret (elsePos, sts)
                        else ret (0, []));;
  fi <- stmtEnd ifPos "if" "fi";;
  ret (IfClause ifPos thenPos fi cond thenStmts elifs els elseStmts).

Definition whileClause : M Command :=
  whilePos <- gets pos;;
  next;;
  cond <- followStmts "while" whilePos ["do"];;
  doPos <- followRsrv whilePos "while <cond>" "do";;
  doStmts <- followStmts "do" doPos ["done"];;
  done <- stmtEnd whilePos "while" "done";;
  ret (WhileClause whilePos doPos done cond doStmts).

Definition untilClause : M Command :=
  untilPos <- gets pos;;
  next;;
  cond <- followStmts "until" untilPos ["do"];;
  doPos <- followRsrv untilPos "until <cond>" "do";;
  doStmts <- followStmts "do" doPos ["done"];;
  done <- stmtEnd untilPos "until" "done";;
  ret (UntilClause untilPos doPos done cond doStmts).

Definition loop_ (forPos : Pos) : M Loop :=
  t <- gets tok;;
  if tokEq t dblLeftParen then
    lparen <- gets pos;;
    old <- preNested arithmExprCmd;;
    next;;
    t1 <- gets tok;;
    when (tokEq t1 dblSemicolon) (addNpos (-1);; setTok semicolon);;
    t2 <- gets tok;;
    init <- (if negb (tokEq t2 semicolon)
             then f_arithmExpr rec dblLeftParen lparen 0 false false
             else ret None);;
    scPos <- gets pos;;
    _ <- follow scPos "expression" semicolon;;
    t3 <- gets tok;;
    cond <- (if negb (tokEq t3 semicolon)
             then f_arithmExpr rec semicolon scPos 0 false false
             else ret None);;
    scPos2 <- gets pos;;
    _ <- follow scPos2 "expression" semicolon;;
    t4 <- gets tok;;
    post <- (if negb (tokEq t4 semicolon)
             then f_arithmExpr rec semicolon scPos2 0 false false
             else ret None);;
    rparen <- arithmEnd dblLeftParen lparen old;;
    _ <- gotSameLine semicolon;;
    ret (CStyleLoop lparen rparen init cond post)
  else
    name <- getLit;;
    when (isNone name) (followErr forPos "for" "a literal");;
    g <- gotRsrv "in";;
    if g then
      l <- loop (fun l : list Word =>
             p <- get;;
             if newLine p || tokEq (tok p) _EOF || tokEq (tok p) semicolon
             then ret (inr l) else
             w <- getWord;;
             match w with
             | None => curErr "word list can only contain words";; ret (inl l)
             | Some w' => ret (inl (l ++ [w'])%list)
             end) [];;
      _ <- gotSameLine semicolon;;
      ret (WordIter name l)
    else
      nlb <- gets newLine;;
      (if nlb then ret tt
       else g' <- got semicolon;;
            when (negb g')
                 (followErr forPos "for foo"
                    (quoteGo "in" ++ ", ; or a newline")));;
      ret (WordIter name []).

Definition forClause : M Command :=
  forPos <- gets pos;;
  next;;
  lp <- loop_ forPos;;
  doPos <- followRsrv forPos "for foo [in words]" "do";;
  doStmts <- followStmts "do" doPos ["done"];;
  done <- stmtEnd forPos "for" "done";;
  ret (ForClause forPos doPos done lp doStmts).

Definition patLists : M (list PatternList) :=
  loop (fun pls : list PatternList =>
          p <- get;;
          if tokEq (tok p) _EOF
             || (tokEq (tok p) _LitWord && String.eqb (val p) "esac")
          then ret (inr pls) else
          _ <- got leftParen;;
          pats <- loop (fun pats : list Word =>
                    t <- gets tok;;
                    if tokEq t _EOF then ret (inr pats) else
                    w <- getWord;;
                    pats' <- match w with
                             | None =>
                                 curErr "case patterns must consist of words";;
                                 ret pats
                             | Some w' => ret (pats ++ [w'])%list
                             end;;
                    t1 <- gets tok;;
                    if tokEq t1 rightParen then ret (inr pats') else
                    g <- got or;;
                    when (negb g) (curErr "case patterns must be separated with |");;
                    ret (inl pats')) [];;
          old <- preNested switchCase;;
          next;;
          sts <- f_stmts rec ["esac"];;
          postNested old;;
          p1 <- get;;
          if negb (tokIn (tok p1) [dblSemicolon; semiFall; dblSemiFall]) then
            ret (inr (pls ++ [MkPatternList Op.DblSemicolon (pos p1) pats sts])%list)
          else
            next;;
            ret (inl (pls ++ [MkPatternList (tok p1) (pos p1) pats sts])%list)) [].

Definition caseClause : M Command :=
  casePos <- gets pos;;
  next;;
  w <- followWord "case" casePos;;
  _ <- followRsrv casePos "case x" "in";;
  l <- patLists;;
  esac <- stmtEnd casePos "case" "esac";;
  ret (CaseClause casePos esac w l).

(** *** Test expressions *)

Definition testExprBase (ftok : token) (fpos : Pos) : M (option TestExpr) :=
  p <- get;;
  if tokEq (tok p) _EOF then ret None else
  when (tokEq (tok p) _LitWord && negb (tokEq (testUnaryOp (val p)) illegalTok))
       (setTok (testUnaryOp (val p)));;
  p1 <- get;;
  let t := tok p1 in
  if tokEq t exclMark then
    next;;
    x <- f_testExpr rec Op.TsNot (pos p1) 0;;
    ret (Some (UnaryTest (pos p1) Op.TsNot x))
  else if tokIn t [tsExists; tsRegFile; tsDirect; tsCharSp; tsBlckSp; tsNmPipe;
                   tsSocket; tsSmbLink; tsGIDSet; tsUIDSet; tsRead; tsWrite;
                   tsExec; tsNoEmpty; tsFdTerm; tsEmpStr; tsNempStr; tsOptSet;
                   tsVarSet; tsRefVar] then
    next;;
    w <- followWordTok ftok fpos;;
    ret (Some (UnaryTest (pos p1) t (Some (TWord w))))
  else if tokEq t leftParen then
    next;;
    x <- f_testExpr rec leftParen (pos p1) 0;;
    when (isNone x) (posErr (pos p1) "parentheses must enclose an expression");;
    rparen <- matched (pos p1) leftParen rightParen;;
    ret (Some (ParenTest (pos p1) rparen x))
  else if tokEq t rightParen then ret None
  else
    w <- followWordTok ftok fpos;;
    ret (Some (TWord w)).

Definition testExpr_body (ftok : token) (fpos : Pos) (level : Z)
  : M (option TestExpr) :=
  left <- (if 1 <? level then testExprBase ftok fpos
           else f_testExpr rec ftok fpos (level + 1));;
  if isNone left then ret left else
  p <- get;;
  let t := tok p in
  (* the new level, or nothing for a [return left] *)
  nl_ <- (if tokIn t [andAnd; orOr] then ret (Some 0)
          else if tokEq t _LitWord && String.eqb (val p) "]]" then ret None
          else if tokEq t _LitWord || tokIn t [rdrIn; rdrOut] then ret (Some 1)
          else if tokIn t [_EOF; rightParen] then ret None
          else curErr ("not a valid test operator: " ++ tokString t);;
               ret (Some 0));;
  match nl_ with
  | None => ret left
  | Some newLevel =>
      if newLevel <? level then ret left else
      p1 <- get;;
      when (tokEq (tok p1) _LitWord)
           (setTok (testBinaryOp (val p1));;
            when (tokEq (testBinaryOp (val p1)) illegalTok)
                 (curErr ("not a valid test operator: " ++ val p1)));;
      p2 <- get;;
      let opPos := pos p2 in
      let op := tok p2 in
      (if tokEq op Op.TsReMatch then
         old <- preNested testRegexp;;
         next;;
         postNested old
       else next);;
      y <- f_testExpr rec op opPos newLevel;;
      when (isNone y) (followErrExp opPos (tokString op));;
      ret (Some (BinaryTest opPos op left y))
  end.

Definition testClause : M Command :=
  left <- gets pos;;
  next;;
  t <- gets tok;;
  g <- (if tokEq t _EOF then ret true else gotRsrv "]]");;
  when g (posErr left "test clause requires at least one expression");;
  x <- f_testExpr rec illegalTok left 0;;
  right <- gets pos;;
  ok <- gotRsrv "]]";;
  when (negb ok) (matchingErr left "[[" "]]");;
  ret (TestClause left right x).

(** *** The clauses of the extended dialect *)

Definition declClause : M Command :=
  p <- get;;
  let name := val p in
  let variant := if strIn name ["declare"; "typeset"] then "" else name in
  next;;
  opts <- loop (fun l : list (option Word) =>
            p1 <- get;;
            if negb (tokEq (tok p1) _LitWord) then ret (inr l) else
            c <- deref (byteZ (val p1) 0);;
            if negb (isb c "-") then ret (inr l) else
            w <- getWord;;
            ret (inl (l ++ [w])%list)) [];;
  assigns <- loop (fun l : list Assign =>
            p1 <- get;;
            if newLine p1 || stopToken (tok p1) || peekRedir p1
            then ret (inr l) else
            vi <- (if tokIn (tok p1) [_Lit; _LitWord] then validIdent
                   else ret false);;
            if vi then a <- getAssign;; ret (inl (l ++ [a])%list) else
            w <- getWord;;
            match w with
            | None => ps <- gets pos;; followErr ps name "words";; ret (inl l)
            | Some w' => ret (inl (l ++ [MkAssign false None (Some w')])%list)
            end) [];;
  ret (DeclClause (pos p) variant opts assigns).

Definition evalClause : M Command :=
  evalPos <- gets pos;;
  next;;
  '(s, _) <- f_getStmt rec false;;
  ret (EvalClause evalPos s).

Definition coprocClause : M Command :=
  coprocPos <- gets pos;;
  next;;
  p <- get;;
  if isBashCompoundCommand (tok p) (val p) then
    (* has no name *)
    '(s, _) <- f_getStmt rec false;;
    ret (CoprocClause (Some (MkCoproc coprocPos None s)))
  else
    when (newLine p) (posErr coprocPos "coproc clause requires a command");;
    name <- getLit;;
    '(s, _) <- f_getStmt rec false;;
    match s, name with
    | None, None =>
        posErr coprocPos "coproc clause requires a command";;
        ret (CoprocClause None)
    | None, Some n =>
        (* name was in fact the stmt *)
        ret (CoprocClause (Some (MkCoproc coprocPos None
               (Some (stmtSetCmd (Some (CallExpr [MkWord [WLit n]]))
                                 (newStmt (ValuePos n)))))))
    | Some s', Some n =>
        match stmtCmd s' with
        | Some (CallExpr args) =>
            (* name was in fact the start of a call *)
            ret (CoprocClause (Some (MkCoproc coprocPos None
                   (Some (stmtSetCmd (Some (CallExpr (MkWord [WLit n] :: args)))
                                     s')))))
        | _ => ret (CoprocClause (Some (MkCoproc coprocPos name s)))
        end
    | Some _, None => ret (CoprocClause (Some (MkCoproc coprocPos name s)))
    end.

Definition letClause : M Command :=
  letPos <- gets pos;;
  old <- preNested arithmExprLet;;
  next;;
  exprs <- loop (fun l : list ArithmExpr =>
             p <- get;;
             if newLine p || stopToken (tok p) || peekRedir p
             then ret (inr l) else
             x <- f_arithmExpr rec illegalTok letPos 0 true false;;
             match x with
             | None => ret (inr l)
             | Some x' => ret (inl (l ++ [x'])%list)
             end) [];;
  when (Z.of_nat (List.length exprs) =? 0)
       (posErr letPos "let clause requires at least one expression");;
  postNested old;;
  t <- gets tok;;
  when (tokEq t illegalTok) next;;
  ret (LetClause letPos exprs).

Definition bashFuncDecl : M Command :=
  fpos <- gets pos;;
  next;;
  t <- gets tok;;
  (if negb (tokEq t _LitWord) then
     w <- followWord "function" fpos;;
     e <- gets err;;
     if isNone e then
       w' <- deref w;;
       srcs <- gets src;;
       rawName <- deref (sliceZ srcs (wordPos w' - 1) (wordEnd w' - 1));;
       posErr (wordPos w') ("invalid func name: " ++ quoteGo rawName)
     else ret tt
   else ret tt);;
  p <- get;;
  name <- lit (pos p) (val p);;
  next;;
  g <- gotSameLine leftParen;;
  (if g then _ <- follow (ValuePos name) "foo(" rightParen;; ret tt else ret tt);;
  funcDecl name fpos.

(** *** Statements *)

Definition gotStmtPipe_body (s : Stmt) : M (option Stmt) :=
  p <- get;;
  let t := tok p in
  let v := val p in
  (* [inr]: the [return s] of the backquote case *)
  r <- (if tokEq t leftParen then
          c <- subshell;; ret (inl (stmtSetCmd (Some c) s))
        else if tokEq t dblLeftParen then
          c <- arithmExpCmd;; ret (inl (stmtSetCmd (Some c) s))
        else if tokEq t _LitWord then
          match cmdHead (bash p) v with
          | HRbrace =>
              curErr (v ++ " can only be used to close a block");; ret (inl s)
          | HBlock => c <- block;; ret (inl (stmtSetCmd (Some c) s))
          | HIf => c <- ifClause;; ret (inl (stmtSetCmd (Some c) s))
          | HWhile => c <- whileClause;; ret (inl (stmtSetCmd (Some c) s))
          | HUntil => c <- untilClause;; ret (inl (stmtSetCmd (Some c) s))
          | HFor => c <- forClause;; ret (inl (stmtSetCmd (Some c) s))
          | HCase => c <- caseClause;; ret (inl (stmtSetCmd (Some c) s))
          | HTest => c <- testClause;; ret (inl (stmtSetCmd (Some c) s))
          | HDecl => c <- declClause;; ret (inl (stmtSetCmd (Some c) s))
          | HEval => c <- evalClause;; ret (inl (stmtSetCmd (Some c) s))
          | HCoproc => c <- coprocClause;; ret (inl (stmtSetCmd (Some c) s))
          | HLet => c <- letClause;; ret (inl (stmtSetCmd (Some c) s))
          | HFunction => c <- bashFuncDecl;; ret (inl (stmtSetCmd (Some c) s))
          | HWord =>
              name <- lit (pos p) v;;
              next;;
              g <- gotSameLine leftParen;;
              if g then
                _ <- follow (ValuePos name) "foo(" rightParen;;
                c <- funcDecl name (ValuePos name);;
                ret (inl (stmtSetCmd (Some c) s))
              else
                '(c, s') <- callExpr s (MkWord [WLit name]);;
                ret (inl (stmtSetCmd (Some c) s'))
          end
        else if tokEq t bckQuote && (quote p =? subCmdBckquo) then
          ret (inr s)
        else if tokEq t bckQuote || tokIn t wordStartToks then
          parts <- wordParts;;
          let w := MkWord parts in
          g <- gotSameLine leftParen;;
          e <- gets err;;
          (if g && isNone e then
             srcs <- gets src;;
             rawName <- deref (sliceZ srcs (wordPos w - 1) (wordEnd w - 1));;
             posErr (wordPos w) ("invalid func name: " ++ quoteGo rawName)
           else ret tt);;
          '(c, s') <- callExpr s w;;
          ret (inl (stmtSetCmd (Some c) s'))
        else ret (inl s));;
  match r with
  | inr s' => ret (Some s')
  | inl s1 =>
      s2 <- loop (fun s : Stmt =>
              p1 <- get;;
              if negb (newLine p1) && peekRedir p1
              then s' <- doRedirect s;; ret (inl s')
              else ret (inr s)) s1;;
      if isNone (stmtCmd s2) && (Z.of_nat (List.length (stmtRedirs s2)) =? 0)
         && negb (stmtNegated s2)
         && (Z.of_nat (List.length (stmtAssigns s2)) =? 0)
      then ret None else
      p2 <- get;;
      if tokEq (tok p2) or || tokEq (tok p2) pipeAll then
        next;;
        ps <- gets pos;;
        y <- f_gotStmtPipe rec (newStmt ps);;
        when (isNone y) (followErr (pos p2) (tokString (tok p2)) "a statement");;
        ret (Some (stmtSetCmd (Some (BinaryCmd (pos p2) (tok p2) (Some s2) y))
                              (newStmt (stmtPosition s2))))
      else ret (Some s2)
  end.

Definition getStmt_body (readEnd : bool) : M (option Stmt * bool) :=
  ps <- gets pos;;
  neg <- gotRsrv "!";;
  let s0 := if neg then stmtSetNegated true (newStmt ps) else newStmt ps in
  (* [inl]: a [return] inside the loop; [inr]: [break preLoop] *)
  r <- loop (fun s : Stmt =>
         p <- get;;
         let t := tok p in
         s1 <- (if tokIn t [_Lit; _LitWord] then
                  vi <- validIdent;;
                  if vi then a <- getAssign;; ret (Some (stmtAddAssign a s))
                  else if litRedir (src p) (npos p) then
                    s' <- doRedirect s;; ret (Some s')
                  else ret None
                else if tokIn t redirToks then
                  s' <- doRedirect s;; ret (Some s')
                else ret None);;
         match s1 with
         | None => ret (inr (inr s))
         | Some s' =>
             p1 <- get;;
             if newLine p1 || tokEq (tok p1) _EOF then
               ret (inr (inl (Some s', false)))
             else if tokEq (tok p1) semicolon then
               if readEnd then
                 next;;
                 ret (inr (inl (Some (stmtSetSemiPos (pos p1) s'), true)))
               else ret (inr (inl (Some s', false)))
             else ret (inl s')
         end) s0;;
  match r with
  | inl res => ret res
  | inr s =>
      s1 <- f_gotStmtPipe rec s;;
      match s1 with
      | None => ret (None, false)
      | Some s' =>
          p <- get;;
          let t := tok p in
          if tokIn t [andAnd; orOr] then
            next;;
            '(y, _) <- f_getStmt rec false;;
            when (isNone y) (followErr (pos p) (tokString t) "a statement");;
            let s2 := stmtSetCmd (Some (BinaryCmd (pos p) t (Some s') y))
                                 (newStmt (stmtPosition s')) in
            g <- (if readEnd then gotSameLine semicolon else ret false);;
            ret (Some s2, g)
          else if tokEq t and then
            next;;
            ret (Some (stmtSetBackground true s'), true)
          else if tokEq t semicolon then
            if negb (newLine p) && readEnd then
              next;;
              ret (Some (stmtSetSemiPos (pos p) s'), true)
            else ret (Some s', false)
          else ret (Some s', false)
      end
  end.

(** One iteration of a Go [for] loop. *)
Definition loop_body (S R : Type) (step : S -> M (S + R)) (s : S) : M R :=
  r <- step s;;
  match r with
  | inl s' => @f_loop rec S R step s'
  | inr v => ret v
  end.
End Parser.

(* ================================================================= *)
(** ** Tying the knot, and [Parse] *)

(** No budget left: every method stops. *)
Definition stuck : fns :=
  mkFns outOfFuel outOfFuel (fun _ => outOfFuel) (fun _ => outOfFuel)
        (fun _ => outOfFuel) outOfFuel (fun _ _ _ _ _ => outOfFuel)
        (fun _ _ _ => outOfFuel) (fun _ _ _ => outOfFuel)
        (fun _ _ _ _ => outOfFuel).

(** The methods with a budget of [fuel] nested calls and loop
    iterations. *)
Fixpoint fns_at (fuel : nat) : fns :=
  match fuel with
  | O => stuck
  | S n =>
      let rec := fns_at n in
      mkFns (next_body rec) (doHeredocs_body rec) (stmts_body rec)
            (getStmt_body rec) (gotStmtPipe_body rec) (wordPart_body rec)
            (arithmExpr_body rec) (arithmExprBase_body rec)
            (testExpr_body rec) (fun S R => @loop_body rec S R)
  end.

(** A parser as the pool makes it: [&parser{helperBuf: ...}]. *)
Definition newParser : parser :=
  {| src := ""; f := None; mode := 0; spaced := false; newLine := false;
     err := None; tok := illegalTok; val := ""; pos := 0; npos := 0;
     quote := 0; asPos := 0; buriedHdocs := 0;
     heredocs := mkSlice 0 0; hdocStop := None; redirs := [];
     arrays := [mkArray 0 []]; errLog := [] |}.

Definition reset : M unit :=
  setSpaced false;; setNewLine false;;
  setErr None;;
  setNpos 0;;
  setTok illegalTok;; setQuote noState;;
  h <- gets heredocs;;
  setHeredocs (mkSlice (sarr h) 0);;
  setBuriedHdocs 0.

(** What [Parse] returns. *)
Definition parsed : Type := option File * option ParseError.

Definition parse (rec : fns) (srcs name : string) (md : ParseMode) : M parsed :=
  reset;;
  modify (setF_ (Some (mkFile name [] [] [0])));;
  setSrc srcs;; setMode md;;
  f_next rec;;
  sts <- f_stmts rec [];;
  modFile (fun fl => mkFile (Name fl) sts (Comments fl) (Lines fl));;
  e <- gets err;;
  (* EOF immediately after heredoc word so no newline to trigger it *)
  when (isNone e) (f_doHeredocs rec);;
  p <- get;;
  ret (f p, err p).

(** [Parse], run on a parser fresh from the pool.  The struct it
    leaves behind holds the store of [Redirect] objects that the
    statements of the file point to. *)
Definition Parse (fuel : nat) (srcs name : string) (md : ParseMode)
  : result parsed :=
  parse (fns_at fuel) srcs name md newParser.

(** The error string of a run, if it returned an error. *)
Definition errorOf (r : result parsed) : option string :=
  match r with
  | Ok (_, Some e) _ => Some (Error e)
  | _ => None
  end.

(** The statements of a run. *)
Definition stmtsOf (r : result parsed) : option (list Stmt) :=
  match r with
  | Ok (Some fl, _) _ => Some (Stmts fl)
  | _ => None
  end.

(* ================================================================= *)
(** ** Predicates of the statements below *)

(** The struct points to a [File] with the given name and statement
    list. *)
Definition fileHolds (name : string) (sts : list Stmt) (p : parser) : Prop :=
  exists fl, f p = Some fl /\ Name fl = name /\ Stmts fl = sts.

(** A method keeps the [File] in place: if it returns, from a struct
    that points to a file with name [name] and statements [sts], so
    does the struct it leaves. *)
Definition keeps (name : string) (sts : list Stmt) {A : Type} (m : M A) : Prop :=
  forall p a p', fileHolds name sts p -> m p = Ok a p' -> fileHolds name sts p'.

(** All the methods of a table keep the [File] in place. *)
Record recKeeps (name : string) (sts : list Stmt) (rec : fns) : Prop :=
  mkRecKeeps {
  k_next : keeps name sts (f_next rec);
  k_doHeredocs : keeps name sts (f_doHeredocs rec);
  k_stmts : forall stops, keeps name sts (f_stmts rec stops);
  k_getStmt : forall readEnd, keeps name sts (f_getStmt rec readEnd);
  k_gotStmtPipe : forall s, keeps name sts (f_gotStmtPipe rec s);
  k_wordPart : keeps name sts (f_wordPart rec);
  k_arithmExpr : forall ftok fpos level compact tern,
      keeps name sts (f_arithmExpr rec ftok fpos level compact tern);
  k_arithmExprBase : forall ftok fpos compact,
      keeps name sts (f_arithmExprBase rec ftok fpos compact);
  k_testExpr : forall ftok fpos level,
      keeps name sts (f_testExpr rec ftok fpos level);
  k_loop : forall (S R : Type) (step : S -> M (S + R)),
      (forall s, keeps name sts (step s)) ->
      forall s, keeps name sts (@f_loop rec S R step s)
}.

(** The value and the struct of a run that returned. *)
Definition resultOf (x : result parsed) : parsed :=
  match x with Ok r _ => r | _ => (None, None) end.

Definition parserOf {A : Type} (x : result A) : parser :=
  match x with Ok _ p => p | _ => newParser end.

(** The run returned. *)
Definition returns {A : Type} (x : result A) : bool :=
  match x with Ok _ _ => true | _ => false end.

(** [Parse] returned and the error is nil. *)
Definition accepts (x : result parsed) : bool :=
  match x with Ok (_, None) _ => true | _ => false end.

(** The [Redirect] objects of a run, in the order of their creation:
    operator, and whether [Hdoc] is set. *)
Definition redirsOf (x : result parsed) : list (token * bool) :=
  map (fun c => (Op c, isSome (Hdoc c))) (redirs (parserOf x)).

(** The errors stored in [p.err] during a run, oldest first. *)
Definition errorsOf (x : result parsed) : list string :=
  map Error (errLog (parserOf x)).

Definition lines (l : list string) : string := String.concat (str1 nl) l.

(** Two heredocs on a line; the body of the first holds a command
    substitution with two heredocs of its own. *)
Definition nestedHeredocs : string :=
  lines ["cat <<A <<B"; "$(cat <<C <<D"; "c"; "C"; "d"; "D"; ")"; "A"; "b"; "B"; ""].

(** The struct as [paramExp] has it when it reads the offset of
    [${foo:1:2}]: mode [paramExpOff], the literal [1] as the token. *)
Definition atSliceOffset : parser :=
  match (setSrc "${foo:1:2}";;
         modify (setF_ (Some (mkFile "" [] [] [0])));;
         setNpos 6;; setQuote paramExpOff;;
         f_next (fns_at 4)) newParser with
  | Ok _ p => p
  | _ => newParser
  end.

(** Whatever [m] returns, [m'] returns too. *)
Definition refines {A : Type} (m m' : M A) : Prop :=
  forall p a p', m p = Ok a p' -> m' p = Ok a p'.

(** Whatever the methods of [rec] return, those of [rec'] return. *)
Record recRefines (rec rec' : fns) : Prop := mkRecRefines {
  r_next : refines (f_next rec) (f_next rec');
  r_doHeredocs : refines (f_doHeredocs rec) (f_doHeredocs rec');
  r_stmts : forall stops, refines (f_stmts rec stops) (f_stmts rec' stops);
  r_getStmt : forall readEnd,
      refines (f_getStmt rec readEnd) (f_getStmt rec' readEnd);
  r_gotStmtPipe : forall s,
      refines (f_gotStmtPipe rec s) (f_gotStmtPipe rec' s);
  r_wordPart : refines (f_wordPart rec) (f_wordPart rec');
  r_arithmExpr : forall ftok fpos level compact tern,
      refines (f_arithmExpr rec ftok fpos level compact tern)
              (f_arithmExpr rec' ftok fpos level compact tern);
  r_arithmExprBase : forall ftok fpos compact,
      refines (f_arithmExprBase rec ftok fpos compact)
              (f_arithmExprBase rec' ftok fpos compact);
  r_testExpr : forall ftok fpos level,
      refines (f_testExpr rec ftok fpos level)
              (f_testExpr rec' ftok fpos level);
  r_loop : forall (S R : Type) (step step' : S -> M (S + R)),
      (forall s, refines (step s) (step' s)) ->
      forall s, refines (@f_loop rec S R step s) (@f_loop rec' S R step' s)
}.

(* ================================================================= *)
(** ** Predicates of the further properties *)

(** The struct as [Parse] has it when it calls [p.stmts()]: reset,
    given the input and the mode, the first token read. *)
Definition startOf (fuel : nat) (srcs : string) (md : ParseMode) : parser :=
  parserOf ((reset;;
             modify (setF_ (Some (mkFile "" [] [] [0])));;
             setSrc srcs;; setMode md;;
             f_next (fns_at fuel)) newParser).

(** The struct at the first token of an arithmetic expression. *)
Definition arithmAt (srcs : string) : parser :=
  parserOf ((setSrc srcs;;
             modify (setF_ (Some (mkFile "" [] [] [0])));;
             setQuote arithmExpr_;;
             f_next (fns_at 4)) newParser).

(** A queue of two pending heredocs, in a backing array that is full. *)
Definition twoPending : parser :=
  parserOf ((appendHeredoc 0%nat;; appendHeredoc 1%nat) newParser).

(** The heads that [gotStmtPipe] hands to a clause of their own. *)
Definition isClause (h : head) : bool :=
  match h with HWord | HRbrace => false | _ => true end.

(** A byte that may start a name: a letter or an underscore. *)
Definition nameStart (c : ascii) : bool :=
  let n := nat_of_ascii c in
  (Nat.leb 97 n && Nat.leb n 122) || (Nat.leb 65 n && Nat.leb n 90) || isb c "_".

(** A byte that may follow in a name: also a digit and, in the
    extended dialect, a bracket. *)
Definition nameChar (bashMode : bool) (c : ascii) : bool :=
  let n := nat_of_ascii c in
  nameStart c || (Nat.leb 48 n && Nat.leb n 57)
  || ((isb c "[" || isb c "]") && bashMode).

(** A part of a heredoc stop word that quotes it: a quoted string, or
    a literal that starts with a backslash. *)
Definition quotes (wp : WordPart) : bool :=
  match wp with
  | WLit l => match Value l with String c _ => isb c bsl | EmptyString => false end
  | SglQuoted _ _ _ => true
  | DblQuoted _ _ _ => true
  | _ => false
  end.

(** The level of the operator at the root of an expression, if the
    root is a binary node. *)
Definition binaryLevel (e : option ArithmExpr) : option Z :=
  match e with
  | Some (BinaryArithm _ op _ _) => Some (arithmOpLevel op)
  | _ => None
  end.

(** A binary root is of level [level] at least. *)
Definition rootAbove (level : Z) (e : option ArithmExpr) : Prop :=
  forall l, binaryLevel e = Some l -> level <= l.

(** Through the binary, unary and parenthesised nodes of an
    expression (not into its words): a left operand that is a binary
    node has an operator of a higher level than its parent, a right
    operand one of the same level or higher. *)
Fixpoint climbs (e : ArithmExpr) : bool :=
  match e with
  | BinaryArithm _ op x y =>
      match x with
      | Some (BinaryArithm _ op' _ _) => arithmOpLevel op <? arithmOpLevel op'
      | _ => true
      end
      && match y with
         | Some (BinaryArithm _ op' _ _) => arithmOpLevel op <=? arithmOpLevel op'
         | _ => true
         end
      && match x with Some x' => climbs x' | None => true end
      && match y with Some y' => climbs y' | None => true end
  | UnaryArithm _ _ _ x => match x with Some x' => climbs x' | None => true end
  | ParenArithm _ _ x => match x with Some x' => climbs x' | None => true end
  | AWord _ => true
  end.

Definition climbsOpt (e : option ArithmExpr) : bool :=
  match e with Some e' => climbs e' | None => true end.

(** [newLevel] as [arithmExpr] computes it from the current token. *)
Definition effLevel (tern : bool) (p : parser) : Z :=
  if negb tern && tokEq (tok p) colon && inQuote (quote p) allParamArith
  then -1 else arithmOpLevel (tok p).

(** [arithmExpr] at [level] builds no node from this struct: it is
    past a space in compact mode, or the token is no operator of that
    level. *)
Definition stops (level : Z) (compact : bool) (p : parser) : Prop :=
  compact && spaced p = true \/ effLevel false p < level.

(** The test of [gotStmtPipe] for its [return nil]: a statement that
    holds nothing. *)
Definition emptyStmt (s : Stmt) : bool :=
  isNone (stmtCmd s) && (Z.of_nat (List.length (stmtRedirs s)) =? 0)
  && negb (stmtNegated s)
  && (Z.of_nat (List.length (stmtAssigns s)) =? 0).

(** Where the loop of [callExpr] returns: after a newline, at a token
    that ends a command, at the backquote or parenthesis that closes
    the command substitution it is in. *)
Definition callEnds (p : parser) : bool :=
  newLine p
  || tokIn (tok p) [_EOF; semicolon; and; or; andAnd; orOr; pipeAll;
                    dblSemicolon; semiFall; dblSemiFall]
  || (tokEq (tok p) bckQuote && (quote p =? subCmdBckquo))
  || (tokEq (tok p) rightParen && (quote p =? subCmd)).

(** A statement with more redirects. *)
Definition withRedirs (rs : list RedirPtr) (s : Stmt) : Stmt :=
  let 'MkStmt c ps sp n b a r := s in MkStmt c ps sp n b a (r ++ rs).

(** Where the loop of [stmts] returns, [q] being the mode it started
    in. *)
Definition stmtsEnds (stops : list string) (q : quoteState) (p : parser) : bool :=
  tokEq (tok p) _EOF
  || (tokEq (tok p) _LitWord && strIn (val p) stops)
  || (tokEq (tok p) rightParen && (q =? subCmd))
  || (tokEq (tok p) bckQuote && (q =? subCmdBckquo))
  || (tokIn (tok p) [dblSemicolon; semiFall; dblSemiFall] && (q =? switchCase)).

(** At most one of [Slice], [Repl] and [Exp] is set. *)
Definition oneOperation (pe : ParamExp) : bool :=
  let 'MkParamExp _ _ _ _ _ _ sl rp ex := pe in
  match sl, rp, ex with
  | None, None, None => true
  | Some _, None, None => true
  | None, Some _, None => true
  | None, None, Some _ => true
  | _, _, _ => false
  end.

Definition paramDollar (pe : ParamExp) : Pos :=
  let 'MkParamExp d _ _ _ _ _ _ _ _ := pe in d.

Definition paramShort (pe : ParamExp) : bool :=
  let 'MkParamExp _ _ s _ _ _ _ _ _ := pe in s.

(** The command of the statement is a [*CallExpr]. *)
Definition isCall (s : Stmt) : bool :=
  match stmtCmd s with Some (CallExpr _) => true | _ => false end.

(** A coproc clause that is not nil and has a name. *)
Definition coprocNamed (c : Command) : bool :=
  match c with
  | CoprocClause (Some (MkCoproc _ (Some _) _)) => true
  | _ => false
  end.

Definition coprocStmt (c : Command) : option Stmt :=
  match c with
  | CoprocClause (Some (MkCoproc _ _ s)) => s
  | _ => None
  end.

(** The struct points to a [File] with the given name whose line
    table starts with offset 0, and an error it holds carries that
    name. *)
Definition named (name : string) (p : parser) : Prop :=
  (exists fl, f p = Some fl /\ Name fl = name /\ exists ls, Lines fl = 0 :: ls) /\
  (forall e, err p = Some e -> Filename e = name).

(** A method keeps [named]. *)
Definition holds (name : string) {A : Type} (m : M A) : Prop :=
  forall p a p', named name p -> m p = Ok a p' -> named name p'.

Record recHolds (name : string) (rec : fns) : Prop := mkRecHolds {
  h_next : holds name (f_next rec);
  h_doHeredocs : holds name (f_doHeredocs rec);
  h_stmts : forall stops, holds name (f_stmts rec stops);
  h_getStmt : forall readEnd, holds name (f_getStmt rec readEnd);
  h_gotStmtPipe : forall s, holds name (f_gotStmtPipe rec s);
  h_wordPart : holds name (f_wordPart rec);
  h_arithmExpr : forall ftok fpos level compact tern,
      holds name (f_arithmExpr rec ftok fpos level compact tern);
  h_arithmExprBase : forall ftok fpos compact,
      holds name (f_arithmExprBase rec ftok fpos compact);
  h_testExpr : forall ftok fpos level,
      holds name (f_testExpr rec ftok fpos level);
  h_loop : forall (S R : Type) (step : S -> M (S + R)),
      (forall s, holds name (step s)) ->
      forall s, holds name (@f_loop rec S R step s)
}.

(** A method leaves the lexer mode [Q] in place. *)
Definition qkeeps (Q : quoteState) {A : Type} (m : M A) : Prop :=
  forall p a p', quote p = Q -> m p = Ok a p' -> quote p' = Q.

(** *** Trees without the clauses of the extended dialect

    [gotStmtPipe] builds a [TestClause], [DeclClause], [EvalClause],
    [CoprocClause], [LetClause] or a [FuncDecl] of the [function] form
    only where [bash] holds.  [pxStmt] and its companions check that a
    tree holds none of them, at any depth: in commands, in command and
    process substitutions, in parameter expansions, in arithmetic and in
    assignments.  The redirections of a statement live in the parser's
    store and are checked there, by [pxRedirect]. *)
Definition pxOpt {A : Type} (f : A -> bool) (o : option A) : bool :=
  match o with Some a => f a | None => true end.

Fixpoint pxWord (w : Word) : bool :=
  let 'MkWord ps := w in forallb pxPart ps
with pxPart (wp : WordPart) : bool :=
  match wp with
  | WLit _ => true
  | SglQuoted _ _ _ => true
  | DblQuoted _ _ ps => forallb pxPart ps
  | CmdSubst _ _ sts => forallb pxStmt sts
  | WParamExp pe => pxParam pe
  | ArithmExp _ _ _ x => pxOpt pxArithm x
  | ProcSubst _ _ _ sts => forallb pxStmt sts
  | ExtGlob _ _ _ => true
  | ArrayExpr _ _ l => forallb pxWord l
  end
with pxParam (pe : ParamExp) : bool :=
  let 'MkParamExp _ _ _ _ _ ind sl rp ex := pe in
  pxOpt pxIndex ind && pxOpt pxSlice sl && pxOpt pxReplace rp
  && pxOpt pxExpansion ex
with pxIndex (i : Index) : bool :=
  let 'MkIndex e := i in pxOpt pxArithm e
with pxSlice (sl : Slice) : bool :=
  let 'MkSlice o l := sl in pxOpt pxArithm o && pxOpt pxArithm l
with pxReplace (r : Replace) : bool :=
  let 'MkReplace _ o w := r in pxOpt pxWord o && pxOpt pxWord w
with pxExpansion (e : Expansion) : bool :=
  let 'MkExpansion _ w := e in pxOpt pxWord w
with pxArithm (e : ArithmExpr) : bool :=
  match e with
  | BinaryArithm _ _ x y => pxOpt pxArithm x && pxOpt pxArithm y
  | UnaryArithm _ _ _ x => pxOpt pxArithm x
  | ParenArithm _ _ x => pxOpt pxArithm x
  | AWord w => pxWord w
  end
with pxAssign (a : Assign) : bool :=
  let 'MkAssign _ _ v := a in pxOpt pxWord v
with pxStmt (s : Stmt) : bool :=
  let 'MkStmt c _ _ _ _ a _ := s in
  pxOpt pxCommand c && forallb pxAssign a
with pxCommand (c : Command) : bool :=
  match c with
  | CallExpr args => forallb pxWord args
  | Subshell _ _ sts => forallb pxStmt sts
  | Block _ _ sts => forallb pxStmt sts
  | IfClause _ _ _ c t el _ e =>
      forallb pxStmt c && forallb pxStmt t && forallb pxElif el
      && forallb pxStmt e
  | WhileClause _ _ _ c d => forallb pxStmt c && forallb pxStmt d
  | UntilClause _ _ _ c d => forallb pxStmt c && forallb pxStmt d
  | ForClause _ _ _ lp d => pxLoop lp && forallb pxStmt d
  | CaseClause _ _ w l => pxOpt pxWord w && forallb pxPatternList l
  | BinaryCmd _ _ x y => pxOpt pxStmt x && pxOpt pxStmt y
  | FuncDecl _ bashStyle _ body => negb bashStyle && pxOpt pxStmt body
  | ArithmCmd _ _ x => pxOpt pxArithm x
  | TestClause _ _ _ => false
  | DeclClause _ _ _ _ => false
  | EvalClause _ _ => false
  | CoprocClause _ => false
  | LetClause _ _ => false
  end
with pxElif (x : Elif) : bool :=
  let 'MkElif _ _ c t := x in forallb pxStmt c && forallb pxStmt t
with pxLoop (lp : Loop) : bool :=
  match lp with
  | WordIter _ l => forallb pxWord l
  | CStyleLoop _ _ i c p =>
      pxOpt pxArithm i && pxOpt pxArithm c && pxOpt pxArithm p
  end
with pxPatternList (x : PatternList) : bool :=
  let 'MkPatternList _ _ ps sts := x in
  forallb pxWord ps && forallb pxStmt sts.

(** The heads of [cmdHead] that need the extended dialect. *)
Definition bashHead (h : head) : bool :=
  match h with
  | HTest | HDecl | HEval | HCoproc | HLet | HFunction => true
  | _ => false
  end.

(** A redirection whose word and here-document body are free of them. *)
Definition pxRedirect (r : Redirect) : bool :=
  pxOpt pxWord (RWord r) && pxOpt pxWord (Hdoc r).

(** The parser is in POSIX mode and its redirection store is free of
    the clauses. *)
Definition pxInv (p : parser) : Prop :=
  bash p = false /\ forallb pxRedirect (redirs p) = true.

(** The check that belongs to each result type of a method; a type
    that holds no tree is always accepted. *)
Class Wf (A : Type) := wfb : A -> bool.

#[export] Instance Wf_plain (A : Type) : Wf A | 100 := fun _ => true.
#[export] Instance Wf_option (A : Type) (W : Wf A) : Wf (option A) := pxOpt wfb.
#[export] Instance Wf_list (A : Type) (W : Wf A) : Wf (list A) := forallb wfb.
#[export] Instance Wf_prod (A B : Type) (WA : Wf A) (WB : Wf B) : Wf (A * B) :=
  fun x => wfb (fst x) && wfb (snd x).
#[export] Instance Wf_sum (A B : Type) (WA : Wf A) (WB : Wf B) : Wf (A + B) :=
  fun x => match x with inl a => wfb a | inr b => wfb b end.
#[export] Instance Wf_Word : Wf Word := pxWord.
#[export] Instance Wf_WordPart : Wf WordPart := pxPart.
#[export] Instance Wf_ParamExp : Wf ParamExp := pxParam.
#[export] Instance Wf_Index : Wf Index := pxIndex.
#[export] Instance Wf_Slice : Wf Slice := pxSlice.
#[export] Instance Wf_Replace : Wf Replace := pxReplace.
#[export] Instance Wf_Expansion : Wf Expansion := pxExpansion.
#[export] Instance Wf_ArithmExpr : Wf ArithmExpr := pxArithm.
#[export] Instance Wf_Assign : Wf Assign := pxAssign.
#[export] Instance Wf_Stmt : Wf Stmt := pxStmt.
#[export] Instance Wf_Command : Wf Command := pxCommand.
#[export] Instance Wf_Elif : Wf Elif := pxElif.
#[export] Instance Wf_Loop : Wf Loop := pxLoop.
#[export] Instance Wf_PatternList : Wf PatternList := pxPatternList.

(** A method started in a state satisfying [pxInv] ends, when it
    returns, in such a state and with a result free of the clauses. *)
Definition post {A : Type} {W : Wf A} (r : result A) : Prop :=
  match r with
  | Ok a p' => pxInv p' /\ wfb a = true
  | _ => True
  end.

Definition goodAt {A : Type} {W : Wf A} (p : parser) (m : M A) : Prop :=
  pxInv p -> post (m p).

Abbreviation good m := (forall p, goodAt p m).

(** The methods reached through the recursion table have the property. *)
Record recGood (rec : fns) : Prop := mkRecGood {
  g_next : good (f_next rec);
  g_doHeredocs : good (f_doHeredocs rec);
  g_stmts : forall stops, good (f_stmts rec stops);
  g_getStmt : forall readEnd, good (f_getStmt rec readEnd);
  g_gotStmtPipe : forall s, pxStmt s = true -> good (f_gotStmtPipe rec s);
  g_wordPart : good (f_wordPart rec);
  g_arithmExpr : forall ftok fpos level compact tern,
      good (f_arithmExpr rec ftok fpos level compact tern);
  g_arithmExprBase : forall ftok fpos compact,
      good (f_arithmExprBase rec ftok fpos compact);
  g_testExpr : forall ftok fpos level,
      good (f_testExpr rec ftok fpos level);
  g_loop : forall (S R : Type) (WS : Wf S) (WR : Wf R) (step : S -> M (S + R)),
      (forall s, wfb s = true -> good (step s)) ->
      forall s, wfb s = true -> good (@f_loop rec S R step s)
}.

(** *** The errors of a run

    The struct as [Parse] hands it to the first [p.next()]: reset,
    with the new file, the input and the mode. *)
Definition initOf (srcs name : string) (md : ParseMode) : parser :=
  parserOf ((reset;;
             modify (setF_ (Some (mkFile name [] [] [0])));;
             setSrc srcs;; setMode md) newParser).

(** The messages of [posixRejects]. *)
Definition bashFeatures : list string :=
  ["arrays are a bash feature"; "search and replace is a bash feature";
   "slicing is a bash feature"; "case expansions are a bash feature"].

Definition bashFeature (text : string) : bool := strIn text bashFeatures.

(** The words that [gotStmtPipe] looks for only where [p.bash()]
    holds. *)
Definition bashWord (v : string) : bool :=
  strIn v ["[["; "eval"; "coproc"; "let"; "function"] || bashDeclareWord v.

(** The error with which [arithmExpCmd] and [wordPart] replace the
    error of the subshell they fell back to. *)
Definition fallbackErr (e : ParseError) : Prop :=
  exists (t left : token),
    (left = dblLeftParen \/ left = dollDblParen) /\
    EText e = "reached " ++ tokString t ++ " without matching "
              ++ tokString left ++ " with " ++ tokString dblRightParen.

(** The stored error against the errors recorded so far: none
    recorded and none stored, or the stored error is the last one
    recorded and every one recorded after the first is the error of a
    fallback. *)
Definition errChain (o : option ParseError) (l : list ParseError) : Prop :=
  match o with
  | None => l = []
  | Some e => exists e0 rest,
      l = e0 :: rest /\ last rest e0 = e /\ Forall fallbackErr rest
  end.

(** [c] occurs in [m]. *)
Fixpoint infixb (c m : string) : bool :=
  hasPrefix c m ||
  match m with
  | EmptyString => false
  | String _ m' => infixb c m'
  end.

(** The mode is the one of the call, the stored error is the end of
    the chain of recorded errors, and in the extended dialect no
    recorded error is a rejection of [posixRejects]. *)
Definition logInv (md : ParseMode) (p : parser) : Prop :=
  mode p = md /\
  errChain (err p) (errLog p) /\
  (Z.land md PosixConformant = 0 ->
   Forall (fun e => bashFeature (EText e) = false) (errLog p)).

(** A method keeps [logInv]. *)
Definition lkeeps (md : ParseMode) {A : Type} (m : M A) : Prop :=
  forall p a p', logInv md p -> m p = Ok a p' -> logInv md p'.

Record recLog (md : ParseMode) (rec : fns) : Prop := mkRecLog {
  lg_next : lkeeps md (f_next rec);
  lg_doHeredocs : lkeeps md (f_doHeredocs rec);
  lg_stmts : forall stops, lkeeps md (f_stmts rec stops);
  lg_getStmt : forall readEnd, lkeeps md (f_getStmt rec readEnd);
  lg_gotStmtPipe : forall s, lkeeps md (f_gotStmtPipe rec s);
  lg_wordPart : lkeeps md (f_wordPart rec);
  lg_arithmExpr : forall ftok fpos level compact tern,
      lkeeps md (f_arithmExpr rec ftok fpos level compact tern);
  lg_arithmExprBase : forall ftok fpos compact,
      lkeeps md (f_arithmExprBase rec ftok fpos compact);
  lg_testExpr : forall ftok fpos level,
      lkeeps md (f_testExpr rec ftok fpos level);
  lg_loop : forall (S R : Type) (step : S -> M (S + R)),
      (forall s, lkeeps md (step s)) ->
      forall s, lkeeps md (@f_loop rec S R step s)
}.

(** The command that belongs to a head of [gotStmtPipe]'s switch: the
    clause of that name, and for a plain word a call or the
    declaration of a function [foo()]. *)
Definition builds (h : head) (c : Command) : bool :=
  match h, c with
  | HBlock, Block _ _ _ => true
  | HIf, IfClause _ _ _ _ _ _ _ _ => true
  | HWhile, WhileClause _ _ _ _ _ => true
  | HUntil, UntilClause _ _ _ _ _ => true
  | HFor, ForClause _ _ _ _ _ => true
  | HCase, CaseClause _ _ _ _ => true
  | HTest, TestClause _ _ _ => true
  | HDecl, DeclClause _ _ _ _ => true
  | HEval, EvalClause _ _ => true
  | HCoproc, CoprocClause _ => true
  | HLet, LetClause _ _ => true
  | HFunction, FuncDecl _ _ _ _ => true
  | HWord, CallExpr _ => true
  | HWord, FuncDecl _ bashStyle _ _ => negb bashStyle
  | _, _ => false
  end.

(** The statement [gotStmtPipe] read first: the left operand where it
    went on to build a pipe. *)
Definition headStmt (s : Stmt) : Stmt :=
  match stmtCmd s with
  | Some (BinaryCmd _ _ (Some x) _) => x
  | _ => s
  end.

(* ================================================================= *)
(** * Properties *)

Lemma tokOfCode_tokCode (t : token) : tokOfCode (tokCode t) = t.
Proof. destruct t; reflexivity. Qed.

Lemma tokEq_true (a b : token) : tokEq a b = true <-> a = b.
Proof.
  unfold tokEq. rewrite Pos.eqb_eq. split; [|congruence].
  intros H. rewrite <- (tokOfCode_tokCode a), <- (tokOfCode_tokCode b).
  now rewrite H.
Qed.

Lemma tokEq_refl (a : token) : tokEq a a = true.
Proof. apply tokEq_true. reflexivity. Qed.

(** ** The [File] stays in place *)

Section Keeps.
Variable name : string.
Variable sts : list Stmt.

Lemma keeps_ret (A : Type) (a : A) : keeps name sts (ret a).
Proof. intros p a' p' H E. inversion E; subst. exact H. Qed.

Lemma keeps_bind (A B : Type) (m : M A) (k : A -> M B) :
  keeps name sts m -> (forall a, keeps name sts (k a)) -> keeps name sts (bind m k).
Proof.
  intros Hm Hk p b p' H E. unfold bind in E.
  destruct (m p) as [a p1| |] eqn:Em; try discriminate.
  exact (Hk a p1 b p' (Hm p a p1 H Em) E).
Qed.

Lemma keeps_panic (A : Type) : keeps name sts (@panic A).
Proof. intros p a p' _ E. discriminate. Qed.

Lemma keeps_outOfFuel (A : Type) : keeps name sts (@outOfFuel A).
Proof. intros p a p' _ E. discriminate. Qed.

Lemma keeps_get : keeps name sts get.
Proof. intros p a p' H E. inversion E; subst. exact H. Qed.

Lemma keeps_gets (A : Type) (g : parser -> A) : keeps name sts (gets g).
Proof. intros p a p' H E. inversion E; subst. exact H. Qed.

Lemma keeps_deref (A : Type) (o : option A) : keeps name sts (deref o).
Proof. destruct o; [apply keeps_ret | apply keeps_panic]. Qed.

Lemma keeps_modify (h : parser -> parser) :
  (forall p, f (h p) = f p) -> keeps name sts (modify h).
Proof.
  intros Hh p a p' [fl [H1 H2]] E. inversion E; subst.
  exists fl. rewrite Hh. auto.
Qed.

Lemma keeps_modFile (h : File -> File) :
  (forall fl, Name (h fl) = Name fl /\ Stmts (h fl) = Stmts fl) ->
  keeps name sts (modFile h).
Proof.
  intros Hh p a p' [fl [H1 [H2 H3]]] E.
  unfold modFile, bind, gets, deref, modify in E. rewrite H1 in E.
  simpl in E. inversion E; subst. exists (h fl). simpl.
  destruct (Hh fl) as [Hn Hs]. rewrite Hn, Hs. auto.
Qed.

Lemma keeps_when (b : bool) (m : M unit) : keeps name sts m -> keeps name sts (when b m).
Proof. intros H. destruct b; [exact H | apply keeps_ret]. Qed.
End Keeps.

Create HintDb keeps.

#[local] Hint Resolve keeps_ret keeps_panic keeps_outOfFuel keeps_get keeps_gets
  keeps_deref keeps_when : keeps.

(** One step of the proof that a body keeps the file: the goal is
    split along the structure of the monadic term. *)
Ltac keeps_setter :=
  unfold setSrc, setMode, setSpaced, setNewLine, setErr, setTok, setVal,
    setPos, setNpos, setQuote, setAsPos, setBuriedHdocs, setHeredocs,
    setHdocStop, setRedirs, setArrays, setErrLog;
  apply keeps_modify; intros; reflexivity.

Ltac keeps_step :=
  match goal with
  | |- keeps _ _ (bind _ _) => apply keeps_bind; [| intros ?]
  | |- keeps _ _ (when _ _) => apply keeps_when
  | |- keeps _ _ (if ?b then _ else _) => destruct b
  | |- keeps _ _ (match ?x with _ => _ end) => destruct x
  | |- keeps _ _ (modFile _) =>
      apply keeps_modFile; intros; split; reflexivity
  | |- keeps _ _ (@f_loop _ _ _ _ _) =>
      match goal with H : recKeeps _ _ _ |- _ => apply (k_loop H); intros ? end
  | |- keeps _ _ _ => solve [eauto 3 with keeps]
  | |- keeps _ _ _ => keeps_setter
  end.

Ltac keeps_auto := cbv beta zeta; repeat (keeps_step; cbv beta zeta).

#[local] Hint Resolve k_next k_doHeredocs k_stmts k_getStmt k_gotStmtPipe
  k_wordPart k_arithmExpr k_arithmExprBase k_testExpr : keeps.

Section KeepsLexer.
Variable name : string.
Variable sts : list Stmt.
Variable rec : fns.
Hypothesis Hrec : recKeeps name sts rec.

Lemma keeps_addNpos k : keeps name sts (addNpos k).
Proof. unfold addNpos. keeps_auto. Qed.

Lemma keeps_appendLine off : keeps name sts (appendLine off).
Proof. unfold appendLine. keeps_auto. Qed.

Hint Resolve keeps_addNpos keeps_appendLine : keeps.

Lemma keeps_tokN k t : keeps name sts (tokN k t).
Proof. unfold tokN. keeps_auto. Qed.
Hint Resolve keeps_tokN : keeps.

Lemma keeps_regToken b : keeps name sts (regToken b).
Proof. unfold regToken. keeps_auto. Qed.

Lemma keeps_dqToken b : keeps name sts (dqToken b).
Proof. unfold dqToken. keeps_auto. Qed.

Lemma keeps_paramToken b : keeps name sts (paramToken b).
Proof. unfold paramToken. keeps_auto. Qed.

Lemma keeps_arithmToken b : keeps name sts (arithmToken b).
Proof. unfold arithmToken. keeps_auto. Qed.

Lemma keeps_readUntil b : keeps name sts (readUntil b).
Proof. unfold readUntil. keeps_auto. Qed.

Lemma keeps_finishLit t bs : keeps name sts (finishLit t bs).
Proof. unfold finishLit. keeps_auto. Qed.
Hint Resolve keeps_regToken keeps_dqToken keeps_paramToken keeps_arithmToken
  keeps_readUntil keeps_finishLit : keeps.

Lemma keeps_escaped keep bs k :
  (forall s, keeps name sts (k s)) -> keeps name sts (escaped keep bs k).
Proof. intros Hk. unfold escaped. keeps_auto. Qed.
Hint Resolve keeps_escaped : keeps.

Lemma keeps_advanceLitNoneLoop n : forall bs, keeps name sts (advanceLitNoneLoop n bs).
Proof. induction n; intros bs; simpl; keeps_auto. Qed.

Lemma keeps_advanceLitOtherLoop n : forall q bs,
    keeps name sts (advanceLitOtherLoop n q bs).
Proof. induction n; intros q bs; simpl; keeps_auto. Qed.

Lemma keeps_advanceLitDquoteLoop n : forall bs,
    keeps name sts (advanceLitDquoteLoop n bs).
Proof. induction n; intros bs; simpl; keeps_auto. Qed.

Lemma keeps_advanceLitHdocLoop n : forall bs,
    keeps name sts (advanceLitHdocLoop n bs).
Proof. induction n; intros bs; simpl; keeps_auto. Qed.
Hint Resolve keeps_advanceLitNoneLoop keeps_advanceLitOtherLoop
  keeps_advanceLitDquoteLoop keeps_advanceLitHdocLoop : keeps.

Lemma keeps_advanceLitNone : keeps name sts advanceLitNone.
Proof. unfold advanceLitNone. keeps_auto. Qed.

Lemma keeps_advanceLitOther q : keeps name sts (advanceLitOther q).
Proof. unfold advanceLitOther. keeps_auto. Qed.

Lemma keeps_advanceLitDquote : keeps name sts advanceLitDquote.
Proof. unfold advanceLitDquote. keeps_auto. Qed.

Lemma keeps_advanceLitHdoc : keeps name sts advanceLitHdoc.
Proof. unfold advanceLitHdoc. keeps_auto. Qed.

Lemma keeps_advanceLitRe : keeps name sts advanceLitRe.
Proof. unfold advanceLitRe. keeps_auto. Qed.
Hint Resolve keeps_advanceLitNone keeps_advanceLitOther keeps_advanceLitDquote
  keeps_advanceLitHdoc keeps_advanceLitRe : keeps.

Lemma keeps_skipSpace n : keeps name sts (skipSpace rec n).
Proof. induction n; simpl; keeps_auto. Qed.

Lemma keeps_addComment c : keeps name sts (addComment c).
Proof. unfold addComment. keeps_auto. Qed.
Hint Resolve keeps_skipSpace keeps_addComment : keeps.

Lemma keeps_next_body : keeps name sts (next_body rec).
Proof. unfold next_body. keeps_auto. Qed.

Lemma keeps_hdocLitLoop n : forall e, keeps name sts (hdocLitLoop n e).
Proof. induction n; intros e; simpl; keeps_auto. Qed.
Hint Resolve keeps_hdocLitLoop : keeps.

Lemma keeps_hdocLitWord : keeps name sts hdocLitWord.
Proof. unfold hdocLitWord. keeps_auto. Qed.
End KeepsLexer.

Section KeepsParser.
Variable name : string.
Variable sts : list Stmt.
Variable rec : fns.
Hypothesis Hrec : recKeeps name sts rec.

Hint Resolve keeps_addNpos keeps_appendLine keeps_readUntil
  keeps_advanceLitOther keeps_next_body keeps_hdocLitWord : keeps.

Lemma keeps_getFile : keeps name sts (getFile).
Proof. unfold getFile. keeps_auto. Qed.
Hint Resolve keeps_getFile : keeps.

Lemma keeps_errPass e : keeps name sts (errPass e).
Proof. unfold errPass. keeps_auto. Qed.
Hint Resolve keeps_errPass : keeps.

Lemma keeps_posErr ps text : keeps name sts (posErr ps text).
Proof. unfold posErr. keeps_auto. Qed.
Hint Resolve keeps_posErr : keeps.

Lemma keeps_curErr text : keeps name sts (curErr text).
Proof. unfold curErr. keeps_auto. Qed.
Hint Resolve keeps_curErr : keeps.

Lemma keeps_posixRejects p msg : keeps name sts (posixRejects p msg).
Proof. unfold posixRejects. keeps_auto. Qed.
Hint Resolve keeps_posixRejects : keeps.

Lemma keeps_lit ps v : keeps name sts (lit ps v).
Proof. unfold lit. keeps_auto. Qed.
Hint Resolve keeps_lit : keeps.

Lemma keeps_preNested q : keeps name sts (preNested q).
Proof. unfold preNested. keeps_auto. Qed.
Hint Resolve keeps_preNested : keeps.

Lemma keeps_postNested s : keeps name sts (postNested s).
Proof. unfold postNested. keeps_auto. Qed.
Hint Resolve keeps_postNested : keeps.

Lemma keeps_unquotedWordBytes w : keeps name sts (unquotedWordBytes w).
Proof. unfold unquotedWordBytes. keeps_auto. Qed.
Hint Resolve keeps_unquotedWordBytes : keeps.

Lemma keeps_newRedirect : keeps name sts (newRedirect).
Proof. unfold newRedirect. keeps_auto. Qed.
Hint Resolve keeps_newRedirect : keeps.

Lemma keeps_redirect r : keeps name sts (redirect r).
Proof. unfold redirect. keeps_auto. Qed.
Hint Resolve keeps_redirect : keeps.

Lemma keeps_updRedirect r h : keeps name sts (updRedirect r h).
Proof. unfold updRedirect. keeps_auto. Qed.
Hint Resolve keeps_updRedirect : keeps.

Lemma keeps_appendHeredoc r : keeps name sts (appendHeredoc r).
Proof. unfold appendHeredoc. keeps_auto. Qed.
Hint Resolve keeps_appendHeredoc : keeps.

Lemma keeps_readHdocs a lo i : keeps name sts (readHdocs a lo i).
Proof. unfold readHdocs. keeps_auto. Qed.
Hint Resolve keeps_readHdocs : keeps.

Lemma keeps_got t : keeps name sts (got rec t).
Proof. unfold got. keeps_auto. Qed.
Hint Resolve keeps_got : keeps.

Lemma keeps_gotRsrv v : keeps name sts (gotRsrv rec v).
Proof. unfold gotRsrv. keeps_auto. Qed.
Hint Resolve keeps_gotRsrv : keeps.

Lemma keeps_gotSameLine t : keeps name sts (gotSameLine rec t).
Proof. unfold gotSameLine. keeps_auto. Qed.
Hint Resolve keeps_gotSameLine : keeps.

Lemma keeps_followErr ps left right : keeps name sts (followErr ps left right).
Proof. unfold followErr. keeps_auto. Qed.
Hint Resolve keeps_followErr : keeps.

Lemma keeps_followErrExp ps left : keeps name sts (followErrExp ps left).
Proof. unfold followErrExp. keeps_auto. Qed.
Hint Resolve keeps_followErrExp : keeps.

Lemma keeps_follow lpos left t : keeps name sts (follow rec lpos left t).
Proof. unfold follow. keeps_auto. Qed.
Hint Resolve keeps_follow : keeps.

Lemma keeps_followRsrv lpos left v : keeps name sts (followRsrv rec lpos left v).
Proof. unfold followRsrv. keeps_auto. Qed.
Hint Resolve keeps_followRsrv : keeps.

Lemma keeps_followStmts left lpos stops : keeps name sts (followStmts rec left lpos stops).
Proof. unfold followStmts. keeps_auto. Qed.
Hint Resolve keeps_followStmts : keeps.

Lemma keeps_quoteErr lpos q : keeps name sts (quoteErr lpos q).
Proof. unfold quoteErr. keeps_auto. Qed.
Hint Resolve keeps_quoteErr : keeps.

Lemma keeps_matchingErr lpos left right : keeps name sts (matchingErr lpos left right).
Proof. unfold matchingErr. keeps_auto. Qed.
Hint Resolve keeps_matchingErr : keeps.

Lemma keeps_matched lpos left right : keeps name sts (matched rec lpos left right).
Proof. unfold matched. keeps_auto. Qed.
Hint Resolve keeps_matched : keeps.

Lemma keeps_stmtEnd npos0 start end_ : keeps name sts (stmtEnd rec npos0 start end_).
Proof. unfold stmtEnd. keeps_auto. Qed.
Hint Resolve keeps_stmtEnd : keeps.

Lemma keeps_invalidStmtStart : keeps name sts (invalidStmtStart).
Proof. unfold invalidStmtStart. keeps_auto. Qed.
Hint Resolve keeps_invalidStmtStart : keeps.

Lemma keeps_wordParts : keeps name sts (wordParts rec).
Proof. unfold wordParts. keeps_auto. Qed.
Hint Resolve keeps_wordParts : keeps.

Lemma keeps_getWord : keeps name sts (getWord rec).
Proof. unfold getWord. keeps_auto. Qed.
Hint Resolve keeps_getWord : keeps.

Lemma keeps_getWordOrEmpty : keeps name sts (getWordOrEmpty rec).
Proof. unfold getWordOrEmpty. keeps_auto. Qed.
Hint Resolve keeps_getWordOrEmpty : keeps.

Lemma keeps_getLit : keeps name sts (getLit rec).
Proof. unfold getLit. keeps_auto. Qed.
Hint Resolve keeps_getLit : keeps.

Lemma keeps_followWordTok t ps : keeps name sts (followWordTok rec t ps).
Proof. unfold followWordTok. keeps_auto. Qed.
Hint Resolve keeps_followWordTok : keeps.

Lemma keeps_followWord s ps : keeps name sts (followWord rec s ps).
Proof. unfold followWord. keeps_auto. Qed.
Hint Resolve keeps_followWord : keeps.

Lemma keeps_doHeredocs_body : keeps name sts (doHeredocs_body rec).
Proof. unfold doHeredocs_body. keeps_auto. Qed.
Hint Resolve keeps_doHeredocs_body : keeps.

Lemma keeps_stmts_body stops : keeps name sts (stmts_body rec stops).
Proof. unfold stmts_body. keeps_auto. Qed.
Hint Resolve keeps_stmts_body : keeps.

Lemma keeps_couldBeArithm : keeps name sts (couldBeArithm rec).
Proof. unfold couldBeArithm. keeps_auto. Qed.
Hint Resolve keeps_couldBeArithm : keeps.

Lemma keeps_arithmEnd ltok lpos old : keeps name sts (arithmEnd rec ltok lpos old).
Proof. unfold arithmEnd. keeps_auto. Qed.
Hint Resolve keeps_arithmEnd : keeps.

Lemma keeps_paramExp : keeps name sts (paramExp rec).
Proof. unfold paramExp. keeps_auto. Qed.
Hint Resolve keeps_paramExp : keeps.

Lemma keeps_sglQuoteLines bs : keeps name sts (sglQuoteLines bs).
Proof. induction bs; simpl; keeps_auto. Qed.
Hint Resolve keeps_sglQuoteLines : keeps.

Lemma keeps_extGlobLoop rem : forall start lparens, keeps name sts (extGlobLoop rem start lparens).
Proof. induction rem; intros start lparens; simpl; keeps_auto. Qed.
Hint Resolve keeps_extGlobLoop : keeps.

Lemma keeps_wordPart_body : keeps name sts (wordPart_body rec).
Proof. unfold wordPart_body. keeps_auto. Qed.
Hint Resolve keeps_wordPart_body : keeps.

Lemma keeps_arithmExprRest left level compact tern : keeps name sts (arithmExprRest rec left level compact tern).
Proof. unfold arithmExprRest. keeps_auto. Qed.
Hint Resolve keeps_arithmExprRest : keeps.

Lemma keeps_arithmExpr_body ftok fpos level compact tern : keeps name sts (arithmExpr_body rec ftok fpos level compact tern).
Proof. unfold arithmExpr_body. keeps_auto. Qed.
Hint Resolve keeps_arithmExpr_body : keeps.

Lemma keeps_arithmExprBase_body ftok fpos compact : keeps name sts (arithmExprBase_body rec ftok fpos compact).
Proof. unfold arithmExprBase_body. keeps_auto. Qed.
Hint Resolve keeps_arithmExprBase_body : keeps.

Lemma keeps_validIdent : keeps name sts (validIdent).
Proof. unfold validIdent. keeps_auto. Qed.
Hint Resolve keeps_validIdent : keeps.

Lemma keeps_getAssign : keeps name sts (getAssign rec).
Proof. unfold getAssign. keeps_auto. Qed.
Hint Resolve keeps_getAssign : keeps.

Lemma keeps_doRedirect s : keeps name sts (doRedirect rec s).
Proof. unfold doRedirect. keeps_auto. Qed.
Hint Resolve keeps_doRedirect : keeps.

Lemma keeps_callExpr s w : keeps name sts (callExpr rec s w).
Proof. unfold callExpr. keeps_auto. Qed.
Hint Resolve keeps_callExpr : keeps.

Lemma keeps_funcDecl nm ps : keeps name sts (funcDecl rec nm ps).
Proof. unfold funcDecl. keeps_auto. Qed.
Hint Resolve keeps_funcDecl : keeps.

Lemma keeps_subshell : keeps name sts (subshell rec).
Proof. unfold subshell. keeps_auto. Qed.
Hint Resolve keeps_subshell : keeps.

Lemma keeps_arithmExpCmd : keeps name sts (arithmExpCmd rec).
Proof. unfold arithmExpCmd. keeps_auto. Qed.
Hint Resolve keeps_arithmExpCmd : keeps.

Lemma keeps_block : keeps name sts (block rec).
Proof. unfold block. keeps_auto. Qed.
Hint Resolve keeps_block : keeps.

Lemma keeps_ifClause : keeps name sts (ifClause rec).
Proof. unfold ifClause. keeps_auto. Qed.
Hint Resolve keeps_ifClause : keeps.

Lemma keeps_whileClause : keeps name sts (whileClause rec).
Proof. unfold whileClause. keeps_auto. Qed.
Hint Resolve keeps_whileClause : keeps.

Lemma keeps_untilClause : keeps name sts (untilClause rec).
Proof. unfold untilClause. keeps_auto. Qed.
Hint Resolve keeps_untilClause : keeps.

Lemma keeps_loop_ forPos : keeps name sts (loop_ rec forPos).
Proof. unfold loop_. keeps_auto. Qed.
Hint Resolve keeps_loop_ : keeps.

Lemma keeps_forClause : keeps name sts (forClause rec).
Proof. unfold forClause. keeps_auto. Qed.
Hint Resolve keeps_forClause : keeps.

Lemma keeps_patLists : keeps name sts (patLists rec).
Proof. unfold patLists. keeps_auto. Qed.
Hint Resolve keeps_patLists : keeps.

Lemma keeps_caseClause : keeps name sts (caseClause rec).
Proof. unfold caseClause. keeps_auto. Qed.
Hint Resolve keeps_caseClause : keeps.

Lemma keeps_testExprBase ftok fpos : keeps name sts (testExprBase rec ftok fpos).
Proof. unfold testExprBase. keeps_auto. Qed.
Hint Resolve keeps_testExprBase : keeps.

Lemma keeps_testExpr_body ftok fpos level : keeps name sts (testExpr_body rec ftok fpos level).
Proof. unfold testExpr_body. keeps_auto. Qed.
Hint Resolve keeps_testExpr_body : keeps.

Lemma keeps_testClause : keeps name sts (testClause rec).
Proof. unfold testClause. keeps_auto. Qed.
Hint Resolve keeps_testClause : keeps.

Lemma keeps_declClause : keeps name sts (declClause rec).
Proof. unfold declClause. keeps_auto. Qed.
Hint Resolve keeps_declClause : keeps.

Lemma keeps_evalClause : keeps name sts (evalClause rec).
Proof. unfold evalClause. keeps_auto. Qed.
Hint Resolve keeps_evalClause : keeps.

Lemma keeps_coprocClause : keeps name sts (coprocClause rec).
Proof. unfold coprocClause. keeps_auto. Qed.
Hint Resolve keeps_coprocClause : keeps.

Lemma keeps_letClause : keeps name sts (letClause rec).
Proof. unfold letClause. keeps_auto. Qed.
Hint Resolve keeps_letClause : keeps.

Lemma keeps_bashFuncDecl : keeps name sts (bashFuncDecl rec).
Proof. unfold bashFuncDecl. keeps_auto. Qed.
Hint Resolve keeps_bashFuncDecl : keeps.

Lemma keeps_gotStmtPipe_body s : keeps name sts (gotStmtPipe_body rec s).
Proof. unfold gotStmtPipe_body. keeps_auto. Qed.
Hint Resolve keeps_gotStmtPipe_body : keeps.

Lemma keeps_getStmt_body readEnd : keeps name sts (getStmt_body rec readEnd).
Proof. unfold getStmt_body. keeps_auto. Qed.
Hint Resolve keeps_getStmt_body : keeps.

Lemma keeps_loop_body (S R : Type) (step : S -> M (S + R)) :
  (forall s, keeps name sts (step s)) -> forall s, keeps name sts (loop_body rec step s).
Proof. intros Hs s. unfold loop_body. keeps_auto. Qed.
End KeepsParser.

Lemma recKeeps_stuck name sts : recKeeps name sts stuck.
Proof. constructor; intros; apply keeps_outOfFuel. Qed.

Lemma recKeeps_fns_at name sts fuel : recKeeps name sts (fns_at fuel).
Proof.
  induction fuel as [|n IH]; [apply recKeeps_stuck|].
  simpl. constructor; simpl; intros.
  - apply keeps_next_body; assumption.
  - apply keeps_doHeredocs_body; assumption.
  - apply keeps_stmts_body; assumption.
  - apply keeps_getStmt_body; assumption.
  - apply keeps_gotStmtPipe_body; assumption.
  - apply keeps_wordPart_body; assumption.
  - apply keeps_arithmExpr_body; assumption.
  - apply keeps_arithmExprBase_body; assumption.
  - apply keeps_testExpr_body; assumption.
  - apply keeps_loop_body; assumption.
Qed.

(** ** The budget does not change what a run returns *)

Lemma refines_refl (A : Type) (m : M A) : refines m m.
Proof. intros p a p' H. exact H. Qed.

Lemma refines_bind (A B : Type) (m m' : M A) (k k' : A -> M B) :
  refines m m' -> (forall a, refines (k a) (k' a)) ->
  refines (bind m k) (bind m' k').
Proof.
  intros Hm Hk p b p' E. unfold bind in *.
  destruct (m p) as [a p1| |] eqn:Em; try discriminate.
  rewrite (Hm _ _ _ Em). exact (Hk a _ _ _ E).
Qed.

Lemma refines_when (b : bool) (m m' : M unit) :
  refines m m' -> refines (when b m) (when b m').
Proof. intros H. destruct b; [exact H | apply refines_refl]. Qed.

Lemma refines_outOfFuel (A : Type) (m : M A) : refines outOfFuel m.
Proof. intros p a p' E. discriminate. Qed.

Create HintDb refines.

#[local] Hint Resolve refines_refl r_next r_doHeredocs r_stmts r_getStmt
  r_gotStmtPipe r_wordPart r_arithmExpr r_arithmExprBase r_testExpr : refines.

Ltac refines_step :=
  match goal with
  | |- refines ?m ?m => apply refines_refl
  | |- refines (bind _ _) (bind _ _) => apply refines_bind; [| intros ?]
  | |- refines (when _ _) (when _ _) => apply refines_when
  | |- refines (if ?b then _ else _) (if ?b then _ else _) => destruct b
  | |- refines (match ?x with _ => _ end) (match ?x with _ => _ end) =>
      destruct x
  | |- refines (@f_loop _ _ _ _ _) (@f_loop _ _ _ _ _) =>
      match goal with H : recRefines _ _ |- _ => apply (r_loop H); intros ? end
  | |- refines _ _ => solve [eauto 3 with refines]
  end.

Ltac refines_auto := cbv beta zeta; repeat (refines_step; cbv beta zeta).

Section Refines.
Variables rec rec' : fns.
Hypothesis Hrec : recRefines rec rec'.

Lemma refines_skipSpace n : refines (skipSpace rec n) (skipSpace rec' n).
Proof. induction n; simpl; refines_auto. Qed.
Hint Resolve refines_skipSpace : refines.

Lemma refines_next_body : refines (next_body rec) (next_body rec').
Proof. unfold next_body. refines_auto. Qed.

Lemma refines_got t : refines (got rec t) (got rec' t).
Proof. unfold got. refines_auto. Qed.
Hint Resolve refines_got : refines.

Lemma refines_gotRsrv v : refines (gotRsrv rec v) (gotRsrv rec' v).
Proof. unfold gotRsrv. refines_auto. Qed.
Hint Resolve refines_gotRsrv : refines.

Lemma refines_gotSameLine t : refines (gotSameLine rec t) (gotSameLine rec' t).
Proof. unfold gotSameLine. refines_auto. Qed.
Hint Resolve refines_gotSameLine : refines.

Lemma refines_follow lpos left t : refines (follow rec lpos left t) (follow rec' lpos left t).
Proof. unfold follow. refines_auto. Qed.
Hint Resolve refines_follow : refines.

Lemma refines_followRsrv lpos left v : refines (followRsrv rec lpos left v) (followRsrv rec' lpos left v).
Proof. unfold followRsrv. refines_auto. Qed.
Hint Resolve refines_followRsrv : refines.

Lemma refines_followStmts left lpos stops : refines (followStmts rec left lpos stops) (followStmts rec' left lpos stops).
Proof. unfold followStmts. refines_auto. Qed.
Hint Resolve refines_followStmts : refines.

Lemma refines_matched lpos left right : refines (matched rec lpos left right) (matched rec' lpos left right).
Proof. unfold matched. refines_auto. Qed.
Hint Resolve refines_matched : refines.

Lemma refines_stmtEnd npos0 start end_ : refines (stmtEnd rec npos0 start end_) (stmtEnd rec' npos0 start end_).
Proof. unfold stmtEnd. refines_auto. Qed.
Hint Resolve refines_stmtEnd : refines.

Lemma refines_wordParts : refines (wordParts rec) (wordParts rec').
Proof. unfold wordParts. refines_auto. Qed.
Hint Resolve refines_wordParts : refines.

Lemma refines_getWord : refines (getWord rec) (getWord rec').
Proof. unfold getWord. refines_auto. Qed.
Hint Resolve refines_getWord : refines.

Lemma refines_getWordOrEmpty : refines (getWordOrEmpty rec) (getWordOrEmpty rec').
Proof. unfold getWordOrEmpty. refines_auto. Qed.
Hint Resolve refines_getWordOrEmpty : refines.

Lemma refines_getLit : refines (getLit rec) (getLit rec').
Proof. unfold getLit. refines_auto. Qed.
Hint Resolve refines_getLit : refines.

Lemma refines_followWordTok t ps : refines (followWordTok rec t ps) (followWordTok rec' t ps).
Proof. unfold followWordTok. refines_auto. Qed.
Hint Resolve refines_followWordTok : refines.

Lemma refines_followWord s ps : refines (followWord rec s ps) (followWord rec' s ps).
Proof. unfold followWord. refines_auto. Qed.
Hint Resolve refines_followWord : refines.

Lemma refines_doHeredocs_body : refines (doHeredocs_body rec) (doHeredocs_body rec').
Proof. unfold doHeredocs_body. refines_auto. Qed.
Hint Resolve refines_doHeredocs_body : refines.

Lemma refines_stmts_body stops : refines (stmts_body rec stops) (stmts_body rec' stops).
Proof. unfold stmts_body. refines_auto. Qed.
Hint Resolve refines_stmts_body : refines.

Lemma refines_couldBeArithm : refines (couldBeArithm rec) (couldBeArithm rec').
Proof. unfold couldBeArithm. refines_auto. Qed.
Hint Resolve refines_couldBeArithm : refines.

Lemma refines_arithmEnd ltok lpos old : refines (arithmEnd rec ltok lpos old) (arithmEnd rec' ltok lpos old).
Proof. unfold arithmEnd. refines_auto. Qed.
Hint Resolve refines_arithmEnd : refines.

Lemma refines_paramExp : refines (paramExp rec) (paramExp rec').
Proof. unfold paramExp. refines_auto. Qed.
Hint Resolve refines_paramExp : refines.

Lemma refines_wordPart_body : refines (wordPart_body rec) (wordPart_body rec').
Proof. unfold wordPart_body. refines_auto. Qed.
Hint Resolve refines_wordPart_body : refines.

Lemma refines_arithmExprRest left level compact tern : refines (arithmExprRest rec left level compact tern) (arithmExprRest rec' left level compact tern).
Proof. unfold arithmExprRest. refines_auto. Qed.
Hint Resolve refines_arithmExprRest : refines.

Lemma refines_arithmExpr_body ftok fpos level compact tern : refines (arithmExpr_body rec ftok fpos level compact tern) (arithmExpr_body rec' ftok fpos level compact tern).
Proof. unfold arithmExpr_body. refines_auto. Qed.
Hint Resolve refines_arithmExpr_body : refines.

Lemma refines_arithmExprBase_body ftok fpos compact : refines (arithmExprBase_body rec ftok fpos compact) (arithmExprBase_body rec' ftok fpos compact).
Proof. unfold arithmExprBase_body. refines_auto. Qed.
Hint Resolve refines_arithmExprBase_body : refines.

Lemma refines_getAssign : refines (getAssign rec) (getAssign rec').
Proof. unfold getAssign. refines_auto. Qed.
Hint Resolve refines_getAssign : refines.

Lemma refines_doRedirect s : refines (doRedirect rec s) (doRedirect rec' s).
Proof. unfold doRedirect. refines_auto. Qed.
Hint Resolve refines_doRedirect : refines.

Lemma refines_callExpr s w : refines (callExpr rec s w) (callExpr rec' s w).
Proof. unfold callExpr. refines_auto. Qed.
Hint Resolve refines_callExpr : refines.

Lemma refines_funcDecl nm ps : refines (funcDecl rec nm ps) (funcDecl rec' nm ps).
Proof. unfold funcDecl. refines_auto. Qed.
Hint Resolve refines_funcDecl : refines.

Lemma refines_subshell : refines (subshell rec) (subshell rec').
Proof. unfold subshell. refines_auto. Qed.
Hint Resolve refines_subshell : refines.

Lemma refines_arithmExpCmd : refines (arithmExpCmd rec) (arithmExpCmd rec').
Proof. unfold arithmExpCmd. refines_auto. Qed.
Hint Resolve refines_arithmExpCmd : refines.

Lemma refines_block : refines (block rec) (block rec').
Proof. unfold block. refines_auto. Qed.
Hint Resolve refines_block : refines.

Lemma refines_ifClause : refines (ifClause rec) (ifClause rec').
Proof. unfold ifClause. refines_auto. Qed.
Hint Resolve refines_ifClause : refines.

Lemma refines_whileClause : refines (whileClause rec) (whileClause rec').
Proof. unfold whileClause. refines_auto. Qed.
Hint Resolve refines_whileClause : refines.

Lemma refines_untilClause : refines (untilClause rec) (untilClause rec').
Proof. unfold untilClause. refines_auto. Qed.
Hint Resolve refines_untilClause : refines.

Lemma refines_loop_ forPos : refines (loop_ rec forPos) (loop_ rec' forPos).
Proof. unfold loop_. refines_auto. Qed.
Hint Resolve refines_loop_ : refines.

Lemma refines_forClause : refines (forClause rec) (forClause rec').
Proof. unfold forClause. refines_auto. Qed.
Hint Resolve refines_forClause : refines.

Lemma refines_patLists : refines (patLists rec) (patLists rec').
Proof. unfold patLists. refines_auto. Qed.
Hint Resolve refines_patLists : refines.

Lemma refines_caseClause : refines (caseClause rec) (caseClause rec').
Proof. unfold caseClause. refines_auto. Qed.
Hint Resolve refines_caseClause : refines.

Lemma refines_testExprBase ftok fpos : refines (testExprBase rec ftok fpos) (testExprBase rec' ftok fpos).
Proof. unfold testExprBase. refines_auto. Qed.
Hint Resolve refines_testExprBase : refines.

Lemma refines_testExpr_body ftok fpos level : refines (testExpr_body rec ftok fpos level) (testExpr_body rec' ftok fpos level).
Proof. unfold testExpr_body. refines_auto. Qed.
Hint Resolve refines_testExpr_body : refines.

Lemma refines_testClause : refines (testClause rec) (testClause rec').
Proof. unfold testClause. refines_auto. Qed.
Hint Resolve refines_testClause : refines.

Lemma refines_declClause : refines (declClause rec) (declClause rec').
Proof. unfold declClause. refines_auto. Qed.
Hint Resolve refines_declClause : refines.

Lemma refines_evalClause : refines (evalClause rec) (evalClause rec').
Proof. unfold evalClause. refines_auto. Qed.
Hint Resolve refines_evalClause : refines.

Lemma refines_coprocClause : refines (coprocClause rec) (coprocClause rec').
Proof. unfold coprocClause. refines_auto. Qed.
Hint Resolve refines_coprocClause : refines.

Lemma refines_letClause : refines (letClause rec) (letClause rec').
Proof. unfold letClause. refines_auto. Qed.
Hint Resolve refines_letClause : refines.

Lemma refines_bashFuncDecl : refines (bashFuncDecl rec) (bashFuncDecl rec').
Proof. unfold bashFuncDecl. refines_auto. Qed.
Hint Resolve refines_bashFuncDecl : refines.

Lemma refines_gotStmtPipe_body s : refines (gotStmtPipe_body rec s) (gotStmtPipe_body rec' s).
Proof. unfold gotStmtPipe_body. refines_auto. Qed.
Hint Resolve refines_gotStmtPipe_body : refines.

Lemma refines_getStmt_body readEnd : refines (getStmt_body rec readEnd) (getStmt_body rec' readEnd).
Proof. unfold getStmt_body. refines_auto. Qed.
Hint Resolve refines_getStmt_body : refines.

Lemma refines_loop_body (S R : Type) (step step' : S -> M (S + R)) :
  (forall s, refines (step s) (step' s)) ->
  forall s, refines (loop_body rec step s) (loop_body rec' step' s).
Proof. intros Hs s. unfold loop_body. refines_auto. Qed.
End Refines.

Lemma recRefines_step (rec rec' : fns) :
  recRefines rec rec' ->
  recRefines
    (mkFns (next_body rec) (doHeredocs_body rec) (stmts_body rec)
           (getStmt_body rec) (gotStmtPipe_body rec) (wordPart_body rec)
           (arithmExpr_body rec) (arithmExprBase_body rec)
           (testExpr_body rec) (fun S R => @loop_body rec S R))
    (mkFns (next_body rec') (doHeredocs_body rec') (stmts_body rec')
           (getStmt_body rec') (gotStmtPipe_body rec') (wordPart_body rec')
           (arithmExpr_body rec') (arithmExprBase_body rec')
           (testExpr_body rec') (fun S R => @loop_body rec' S R)).
Proof.
  intros H. constructor; simpl; intros.
  - apply refines_next_body; assumption.
  - apply refines_doHeredocs_body; assumption.
  - apply refines_stmts_body; assumption.
  - apply refines_getStmt_body; assumption.
  - apply refines_gotStmtPipe_body; assumption.
  - apply refines_wordPart_body; assumption.
  - apply refines_arithmExpr_body; assumption.
  - apply refines_arithmExprBase_body; assumption.
  - apply refines_testExpr_body; assumption.
  - apply refines_loop_body; assumption.
Qed.

Lemma recRefines_stuck (rec : fns) : recRefines stuck rec.
Proof. constructor; intros; apply refines_outOfFuel. Qed.

Lemma recRefines_succ (n : nat) : recRefines (fns_at n) (fns_at (S n)).
Proof.
  induction n as [|n IH]; [apply recRefines_stuck|].
  change (fns_at (S (S n))) with
    (let rec := fns_at (S n) in
     mkFns (next_body rec) (doHeredocs_body rec) (stmts_body rec)
           (getStmt_body rec) (gotStmtPipe_body rec) (wordPart_body rec)
           (arithmExpr_body rec) (arithmExprBase_body rec)
           (testExpr_body rec) (fun S R => @loop_body rec S R)).
  change (fns_at (S n)) with
    (let rec := fns_at n in
     mkFns (next_body rec) (doHeredocs_body rec) (stmts_body rec)
           (getStmt_body rec) (gotStmtPipe_body rec) (wordPart_body rec)
           (arithmExpr_body rec) (arithmExprBase_body rec)
           (testExpr_body rec) (fun S R => @loop_body rec S R)) at 1.
  cbv zeta. apply recRefines_step. exact IH.
Qed.

Lemma recRefines_le (n : nat) : forall m, (n <= m)%nat ->
  recRefines (fns_at n) (fns_at m).
Proof.
  induction n as [|n IH]; intros m Hm; [apply recRefines_stuck|].
  destruct m as [|m]; [lia|].
  simpl. apply recRefines_step. apply IH. lia.
Qed.

Lemma refines_parse (rec rec' : fns) (srcs name : string) (md : ParseMode) :
  recRefines rec rec' ->
  refines (parse rec srcs name md) (parse rec' srcs name md).
Proof. intros H. unfold parse. refines_auto. Qed.

(** A run that returns with some budget returns the same with any
    larger one. *)
Lemma Parse_fuel_mono (n m : nat) (srcs name : string) (md : ParseMode)
      (r : parsed) (p : parser) :
  (n <= m)%nat ->
  Parse n srcs name md = Ok r p -> Parse m srcs name md = Ok r p.
Proof.
  intros Hm H. unfold Parse in *.
  exact (refines_parse srcs name md (recRefines_le Hm) _ H).
Qed.

Lemma Parse_enough (n m : nat) (srcs name : string) (md : ParseMode) :
  (n <= m)%nat -> returns (Parse n srcs name md) = true ->
  Parse m srcs name md = Parse n srcs name md.
Proof.
  intros Hm H. destruct (Parse n srcs name md) as [r p| |] eqn:E;
    try discriminate.
  exact (@Parse_fuel_mono n m srcs name md r p Hm E).
Qed.

(** A statement about a run with a budget of at least 64 is settled
    on the run with 64, once that one returns. *)
Ltac enough_fuel H :=
  repeat match goal with
         | |- context [Parse ?fuel ?s ?n ?md] =>
             lazymatch fuel with
             | 64%nat => fail
             | _ => rewrite (@Parse_enough 64 fuel s n md H
                               ltac:(vm_compute; reflexivity))
             end
         end.

(** ** What [Parse] hands back *)

Lemma bind_Ok (A B : Type) (m : M A) (k : A -> M B) (p : parser) (b : B)
      (p' : parser) :
  bind m k p = Ok b p' -> exists a p1, m p = Ok a p1 /\ k a p1 = Ok b p'.
Proof.
  unfold bind. destruct (m p) as [a p1| |]; try discriminate.
  intros H. exists a, p1. auto.
Qed.

Ltac bind_inv H :=
  let a := fresh "a" in let q := fresh "q" in let E := fresh "E" in
  apply bind_Ok in H; destruct H as (a & q & E & H).

Lemma keeps_setSrc name sts v : keeps name sts (setSrc v).
Proof. keeps_setter. Qed.

Lemma keeps_setMode name sts v : keeps name sts (setMode v).
Proof. keeps_setter. Qed.

Lemma keeps_reset name sts : keeps name sts reset.
Proof. unfold reset. keeps_auto. Qed.

Example Parse_error_keeps_statements :
  stmtsOf (Parse 64 "foo; )" "x.sh" 0)
  = Some [MkStmt (Some (CallExpr [MkWord [WLit (mkLit 1 4 "foo")]]))
                 1 4 false false [] []].
Proof. vm_compute. reflexivity. Qed.

(** ** Errors *)

Lemma setTok_EOF_idem (p : parser) :
  setTok_ _EOF (setTok_ _EOF p) = setTok_ _EOF p.
Proof. reflexivity. Qed.

(** Once the token is EOF, the lexer leaves the struct as it is. *)
Lemma next_body_at_EOF (rec : fns) (p : parser) :
  tok p = _EOF -> next_body rec p = Ok tt p.
Proof.
  intros H. unfold next_body, bind, get. rewrite H. simpl.
  unfold setTok, modify. destruct p; simpl in *. subst. reflexivity.
Qed.

(** C2, the counterexample.  On [((foo] the extended dialect first
    tries an arithmetic command, falls back to nested subshells, and
    replaces the error of that parse with its own: two errors are
    stored in turn, and [Parse] returns the second. *)
Lemma first_error_overwritten :
  let run := Parse 64 "((foo" "" 0 in
  errorsOf run = ["1:2: reached EOF without matching ( with )";
                  "1:1: reached EOF without matching (( with ))"] /\
  errorOf run = Some "1:1: reached EOF without matching (( with ))".
Proof. vm_compute. split; reflexivity. Qed.

(** The same happens in a word, for [$((]. *)
Example first_error_overwritten_in_word :
  errorsOf (Parse 64 "echo $((foo" "" 0)
  = ["1:8: reached EOF without matching ( with )";
     "1:6: reached EOF without matching $(( with ))"].
Proof. vm_compute. reflexivity. Qed.

Lemma append_assoc (a b c : string) : (a ++ b) ++ c = a ++ b ++ c.
Proof. induction a as [|x a IH]; simpl; [reflexivity | now rewrite IH]. Qed.

(** The line table starts with line 1 at offset 0, so every offset
    from 1 on falls on a line. *)
Lemma searchLines_some (ls : list Z) (ps i j l : Z) :
  0 <= i -> 0 <= j -> l < ps ->
  exists j' l', searchLines ls ps i (Some (j, l)) = Some (j', l')
                /\ 0 <= j' /\ l' < ps.
Proof.
  revert i j l. induction ls as [|x ls IH]; intros i j l Hi Hj Hl; simpl.
  - exists j, l. auto.
  - destruct (x <? ps) eqn:E.
    + apply IH; lia.
    + apply IH; lia.
Qed.

Lemma filePosition_one_based (fl : File) (ps : Pos) (ls : list Z) :
  Lines fl = 0 :: ls -> 1 <= ps ->
  1 <= Line (filePosition fl ps) /\ 1 <= Column (filePosition fl ps).
Proof.
  intros Hl Hp. unfold filePosition. rewrite Hl. simpl.
  replace (0 <? ps) with true by (symmetry; apply Z.ltb_lt; lia).
  destruct (@searchLines_some ls ps 1 0 0) as (j & l & E & Hj & Hlt); try lia.
  rewrite E. simpl. lia.
Qed.

(** C3. The error [posErr] stores prints as
    [<filename>:<line>:<column>: <message>] when the file has a name,
    and as [<line>:<column>: <message>] when it has none; line and
    column are counted from 1. *)
Theorem parse_error_format (fl : File) (ps : Pos) (text : string) (p : parser)
        (ls : list Z)
        (Hf : f p = Some fl) (He : err p = None)
        (Hl : Lines fl = 0 :: ls) (Hp : 1 <= ps) :
  exists p' e,
    posErr ps text p = Ok tt p' /\ err p' = Some e /\
    1 <= Line (EPosition e) /\ 1 <= Column (EPosition e) /\
    (Name fl <> "" ->
     Error e = Name fl ++ ":" ++ itoa (Line (EPosition e)) ++ ":"
                       ++ itoa (Column (EPosition e)) ++ ": " ++ text) /\
    (Name fl = "" ->
     Error e = itoa (Line (EPosition e)) ++ ":"
               ++ itoa (Column (EPosition e)) ++ ": " ++ text).
Proof.
  unfold posErr, getFile, errPass, bind, gets, deref, get.
  rewrite Hf. simpl. rewrite He. simpl.
  eexists. eexists. split; [reflexivity|]. split; [reflexivity|].
  destruct (filePosition_one_based fl Hl Hp) as [H1 H2].
  split; [exact H1|]. split; [exact H2|].
  unfold Error. simpl. split; intros Hn.
  - apply String.eqb_neq in Hn. rewrite Hn. apply append_assoc.
  - rewrite Hn. reflexivity.
Qed.

(** The first byte of [some-file.sh] is line 1, column 1. *)
Lemma parse_error_format_witness :
  let fl := mkFile "some-file.sh" [] [] [0] in
  let p := setF_ (Some fl) newParser in
  exists p' e,
    posErr 1 "oops" p = Ok tt p' /\ err p' = Some e /\
    1 <= Line (EPosition e) /\ 1 <= Column (EPosition e) /\
    ("some-file.sh" <> "" -> Error e = "some-file.sh:1:1: oops") /\
    ("some-file.sh" = "" -> Error e = "1:1: oops").
Proof.
  intros fl p.
  destruct (@parse_error_format fl 1 "oops" p [] eq_refl eq_refl eq_refl
              ltac:(lia))
    as (p' & e & H1 & H2 & H3 & H4 & H5 & H6).
  exists p', e. repeat split; try assumption.
  - intros Hn. rewrite (H5 Hn).
    unfold posErr, getFile, errPass, bind, gets, deref, get in H1.
    simpl in H1. inversion H1; subst. simpl in H2. inversion H2; subst.
    reflexivity.
  - intros Hn. discriminate Hn.
Defined.

(** The error of the repository's [TestInputName], and the same
    input without a file name. *)
Example parse_error_named :
  errorOf (Parse 64 "'" "some-file.sh" 0)
  = Some "some-file.sh:1:1: reached EOF without closing quote '"
  /\ errorOf (Parse 64 "'" "" 0)
     = Some "1:1: reached EOF without closing quote '".
Proof. vm_compute. split; reflexivity. Qed.

(** A position on the second line. *)
Example parse_error_second_line :
  errorOf (Parse 64 (lines ["foo <"; "bar"]) "" 0)
  = Some "2:1: redirect word must be on the same line".
Proof. vm_compute. reflexivity. Qed.

(** ** Arithmetic expressions *)

(** C4. The binary operators have twelve precedence levels, 0 (the
    comma) to 11 (the exponent), and a word that is not one has level
    -1; [$((1+2*3))] parses as the sum of 1 and the product of 2 and
    3. *)
Theorem arithm_precedence (fuel : nat) (Hfuel : (64 <= fuel)%nat) :
  (forall op, -1 <= arithmOpLevel op <= 11) /\
  map arithmOpLevel
      [Op.Comma; Op.AddAssgn; Op.Assgn; Op.Quest; Op.AndArit; Op.And;
       Op.Eql; Op.Lss; Op.Shl; Op.Add; Op.Mul; Op.Pow]
  = [0; 1; 2; 3; 4; 5; 6; 7; 8; 9; 10; 11] /\
  accepts (Parse fuel "$((1+2*3))" "" 0) = true /\
  stmtsOf (Parse fuel "$((1+2*3))" "" 0)
  = Some [MkStmt
            (Some (CallExpr [MkWord [ArithmExp 1 9 false
               (Some (BinaryArithm 5 Op.Add
                  (Some (AWord (MkWord [WLit (mkLit 4 5 "1")])))
                  (Some (BinaryArithm 7 Op.Mul
                     (Some (AWord (MkWord [WLit (mkLit 6 7 "2")])))
                     (Some (AWord (MkWord [WLit (mkLit 8 9 "3")])))))))]]))
            1 0 false false [] []].
Proof.
  enough_fuel Hfuel.
  split; [|split; [|split]].
  - intros op. destruct op; vm_compute; split; discriminate.
  - reflexivity.
  - vm_compute. reflexivity.
  - vm_compute. reflexivity.
Qed.

(** With a budget of 64. *)
Lemma arithm_precedence_witness :
  (64 <= 64)%nat /\
  accepts (Parse 64 "$((1+2*3))" "" 0) = true /\
  stmtsOf (Parse 64 "$((1+2*3))" "" 0)
  = Some [MkStmt
            (Some (CallExpr [MkWord [ArithmExp 1 9 false
               (Some (BinaryArithm 5 plus
                  (Some (AWord (MkWord [WLit (mkLit 4 5 "1")])))
                  (Some (BinaryArithm 7 star
                     (Some (AWord (MkWord [WLit (mkLit 6 7 "2")])))
                     (Some (AWord (MkWord [WLit (mkLit 8 9 "3")])))))))]]))
            1 0 false false [] []].
Proof.
  split; [apply le_n|].
  exact (proj2 (proj2 (@arithm_precedence 64 (le_n 64)))).
Defined.

(** In a slice (and in an index) a colon that does not close a
    ternary ends the expression: the operand read so far is the
    result and the colon stays the current token. *)
Lemma arithmExprRest_slice_colon (rec : fns) (left : option ArithmExpr)
      (level : Z) (compact : bool) (p : parser) :
  tok p = colon -> Z.land (quote p) allParamArith <> 0 ->
  compact && spaced p = false ->
  arithmExprRest rec left level compact false p = Ok left p.
Proof.
  intros Ht Hq Hs. unfold arithmExprRest, bind, get. rewrite Hs, Ht.
  unfold inQuote. apply Z.eqb_neq in Hq. rewrite Hq. simpl.
  destruct (quote p =? arithmExpr_) eqn:E.
  - apply Z.eqb_eq in E. rewrite E in Hq. discriminate Hq.
  - reflexivity.
Qed.

(** C5. Inside the offset and the length of a slice (the modes of
    [allParamArith]) a colon met outside a ternary ([tern] false)
    after an operand is not taken as a binary operator: [arithmExpr]
    returns the operand and leaves the colon as the current token.  So
    [${foo:1:2}] is a slice with offset 1 and length 2. *)
Theorem slice_colon_ends_arithm :
  (forall (fuel : nat) (ftok : token) (fpos : Pos) (level : Z)
          (compact : bool) (p p1 : parser) (left : option ArithmExpr),
      tokEq (tok p) _EOF || peekArithmEnd p = false ->
      (if 11 <? level
       then f_arithmExprBase (fns_at fuel) ftok fpos compact
       else f_arithmExpr (fns_at fuel) ftok fpos (level + 1) compact false) p
      = Ok left p1 ->
      tok p1 = colon -> Z.land (quote p1) allParamArith <> 0 ->
      compact && spaced p1 = false ->
      f_arithmExpr (fns_at (S fuel)) ftok fpos level compact false p
      = Ok left p1) /\
  forall fuel, (64 <= fuel)%nat ->
  stmtsOf (Parse fuel "${foo:1:2}" "" 0)
  = Some [MkStmt
            (Some (CallExpr [MkWord [WParamExp
               (MkParamExp 1 10 false false (Some (mkLit 3 6 "foo")) None
                  (Some (MkSlice
                     (Some (AWord (MkWord [WLit (mkLit 7 8 "1")])))
                     (Some (AWord (MkWord [WLit (mkLit 9 10 "2")])))))
                  None None)]]))
            1 0 false false [] []].
Proof.
  split.
  - intros fuel ftok fpos level compact p p1 left Hstart Hleft Ht Hq Hs.
    simpl. unfold arithmExpr_body, bind, get. rewrite Hstart.
    rewrite Hleft. apply arithmExprRest_slice_colon; assumption.
  - intros fuel Hfuel. enough_fuel Hfuel. vm_compute. reflexivity.
Qed.

(** The offset of [${foo:1:2}]: after the literal 1 the token is the
    colon, and [arithmExpr] at level 0 returns the literal. *)
Lemma slice_colon_ends_arithm_witness :
  let inner := f_arithmExpr (fns_at 30) colon 6 1 false false atSliceOffset in
  tok (parserOf inner) = colon /\
  isSome (stmtsOf (Parse 64 "${foo:1:2}" "" 0)) = true /\
  f_arithmExpr (fns_at 31) colon 6 0 false false atSliceOffset
  = Ok (Some (AWord (MkWord [WLit (mkLit 7 8 "1")]))) (parserOf inner).
Proof.
  intros inner. split; [vm_compute; reflexivity|].
  split; [rewrite (proj2 slice_colon_ends_arithm 64%nat (le_n 64));
          reflexivity|].
  apply (proj1 slice_colon_ends_arithm).
  - vm_compute. reflexivity.
  - vm_compute. reflexivity.
  - vm_compute. reflexivity.
  - vm_compute. discriminate.
  - reflexivity.
Defined.

(** Inside a ternary the colon is the operator it is elsewhere. *)
Example slice_ternary :
  stmtsOf (Parse 64 "${foo:a?b:c}" "" 0)
  = Some [MkStmt
            (Some (CallExpr [MkWord [WParamExp
               (MkParamExp 1 12 false false (Some (mkLit 3 6 "foo")) None
                  (Some (MkSlice
                     (Some (BinaryArithm 8 Op.Quest
                        (Some (AWord (MkWord [WLit (mkLit 7 8 "a")])))
                        (Some (BinaryArithm 10 Op.Colon
                           (Some (AWord (MkWord [WLit (mkLit 9 10 "b")])))
                           (Some (AWord (MkWord [WLit (mkLit 11 12 "c")])))))))
                     None))
                  None None)]]))
            1 0 false false [] []].
Proof. vm_compute. reflexivity. Qed.

(** ** The two dialects *)

(** C6. [echo ${foo:1}] is rejected under [PosixConformant] with
    "1:11: slicing is a bash feature"; the extended dialect accepts
    it, as a parameter expansion whose slice has an offset and no
    length. *)
Theorem slicing_by_dialect (fuel : nat) (Hfuel : (64 <= fuel)%nat) :
  errorOf (Parse fuel "echo ${foo:1}" "" PosixConformant)
  = Some "1:11: slicing is a bash feature" /\
  accepts (Parse fuel "echo ${foo:1}" "" 0) = true /\
  stmtsOf (Parse fuel "echo ${foo:1}" "" 0)
  = Some [MkStmt
            (Some (CallExpr
               [MkWord [WLit (mkLit 1 5 "echo")];
                MkWord [WParamExp
                  (MkParamExp 6 13 false false (Some (mkLit 8 11 "foo")) None
                     (Some (MkSlice
                        (Some (AWord (MkWord [WLit (mkLit 12 13 "1")])))
                        None))
                     None None)]]))
            1 0 false false [] []].
Proof. enough_fuel Hfuel. vm_compute. repeat split; reflexivity. Qed.

(** With a budget of 64. *)
Lemma slicing_by_dialect_witness :
  (64 <= 64)%nat /\
  errorOf (Parse 64 "echo ${foo:1}" "" PosixConformant)
  = Some "1:11: slicing is a bash feature" /\
  accepts (Parse 64 "echo ${foo:1}" "" 0) = true.
Proof.
  split; [apply le_n|].
  destruct (@slicing_by_dialect 64 (le_n 64)) as (H1 & H2 & _).
  split; assumption.
Defined.

(** C7. [((foo] fails in both dialects, with a different error: the
    extended dialect reads [((] as one token and reports it at 1:1,
    [PosixConformant] reads two parentheses and reports the inner one
    at 1:2. *)
Theorem unclosed_double_paren (fuel : nat) (Hfuel : (64 <= fuel)%nat) :
  errorOf (Parse fuel "((foo" "" 0)
  = Some "1:1: reached EOF without matching (( with ))" /\
  errorOf (Parse fuel "((foo" "" PosixConformant)
  = Some "1:2: reached EOF without matching ( with )".
Proof. enough_fuel Hfuel. vm_compute. split; reflexivity. Qed.

(** With a budget of 64. *)
Lemma unclosed_double_paren_witness :
  (64 <= 64)%nat /\
  errorOf (Parse 64 "((foo" "" 0)
  = Some "1:1: reached EOF without matching (( with ))" /\
  errorOf (Parse 64 "((foo" "" PosixConformant)
  = Some "1:2: reached EOF without matching ( with )".
Proof. split; [apply le_n|]. exact (@unclosed_double_paren 64 (le_n 64)). Defined.

(** C8, the counterexample.  [let] alone is a plain command under
    [PosixConformant] and an empty let clause in the extended
    dialect. *)
Lemma posix_accepts_extended_rejects :
  accepts (Parse 64 "let" "" PosixConformant) = true /\
  accepts (Parse 64 "let" "" 0) = false /\
  errorOf (Parse 64 "let" "" 0)
  = Some "1:1: let clause requires at least one expression".
Proof. vm_compute. repeat split; reflexivity. Qed.

(** The same for an unclosed [[[]. *)
Example posix_accepts_extended_rejects_test :
  accepts (Parse 64 "[[ foo" "" PosixConformant) = true /\
  errorOf (Parse 64 "[[ foo" "" 0)
  = Some "1:1: reached EOF without matching [[ with ]]".
Proof. vm_compute. split; reflexivity. Qed.

Lemma strIn_cons (v x : string) (l : list string) :
  strIn v (x :: l) = String.eqb v x || strIn v l.
Proof. reflexivity. Qed.

(** ** Heredocs *)

(** A heredoc gets its body at the newline that follows it, and at
    the end of the input when no newline follows the stop word. *)
Example heredoc_body_attached :
  redirsOf (Parse 64 (lines ["foo <<EOF"; "hello"; "EOF"]) "" 0)
  = [(hdoc, true)] /\
  map Hdoc (redirs (parserOf (Parse 64 (lines ["foo <<EOF"; "hello"; "EOF"]) "" 0)))
  = [Some (MkWord [WLit (mkLit 11 20 (lines ["hello"; ""]))])] /\
  map Hdoc (redirs (parserOf (Parse 64 "<<EOF" "" 0)))
  = [Some (MkWord [WLit (mkLit 3 3 "")])].
Proof. vm_compute. repeat split; reflexivity. Qed.

(** C9, at the failing input.  [doHeredocs] takes the pending
    heredocs as [hdocs := p.heredocs[p.buriedHdocs:]] and cuts
    [p.heredocs] back, but both share one backing array: the two
    heredocs of the command substitution in the body of [<<A] are
    appended over the slots of [hdocs], so the second round of the
    loop finds [<<D] where [<<B] was.  [Parse] returns without an
    error, and the redirect [<<B] (the second one created, held by
    the first statement) has no body. *)
Theorem heredoc_body_lost (fuel : nat) (Hfuel : (64 <= fuel)%nat) :
  let run := Parse fuel nestedHeredocs "" 0 in
  accepts run = true /\
  option_map (map stmtRedirs) (stmtsOf run) = Some [[0%nat; 1%nat]] /\
  map RWord (firstn 2 (redirs (parserOf run)))
  = [Some (MkWord [WLit (mkLit 7 8 "A")]);
     Some (MkWord [WLit (mkLit 11 12 "B")])] /\
  redirsOf run = [(hdoc, true); (hdoc, false); (hdoc, true); (hdoc, true)].
Proof.
  cbv zeta. enough_fuel Hfuel. vm_compute. repeat split; reflexivity.
Qed.

(** With a budget of 64. *)
Lemma heredoc_body_lost_witness :
  (64 <= 64)%nat /\
  accepts (Parse 64 nestedHeredocs "" 0) = true /\
  redirsOf (Parse 64 nestedHeredocs "" 0)
  = [(hdoc, true); (hdoc, false); (hdoc, true); (hdoc, true)].
Proof.
  split; [apply le_n|].
  destruct (@heredoc_body_lost 64 (le_n 64)) as (H1 & _ & _ & H2).
  split; assumption.
Defined.

(* ================================================================= *)
(** * Further properties of the parser *)

(** ** Running a method backwards: what a returned run went through *)


Lemma getFile_Ok (p q : parser) (fl : File) :
  getFile p = Ok fl q -> q = p /\ f p = Some fl.
Proof.
  unfold getFile, bind, gets, deref. destruct (f p); simpl; [|discriminate].
  intros H. inversion H; subst. auto.
Qed.

Lemma modFile_Ok (h : File -> File) (p q : parser) (u : unit) :
  modFile h p = Ok u q -> exists fl, f p = Some fl /\ q = setF_ (Some (h fl)) p.
Proof.
  unfold modFile, bind, gets, deref, modify. destruct (f p) as [fl|]; simpl;
    [|discriminate].
  intros H. inversion H; subst. exists fl. auto.
Qed.

Ltac prims_in H :=
  cbv beta iota delta
    [bind get gets ret modify when setSrc setMode setSpaced setNewLine setErr
     setTok setVal setPos setNpos setQuote setAsPos setBuriedHdocs
     setHeredocs setHdocStop setRedirs setArrays setErrLog addNpos lit] in H.

Tactic Notation "binv" hyp(H) "as" ident(a) ident(q) ident(E) :=
  apply bind_Ok in H; destruct H as (a & q & E & H).

Lemma parser_eta (p : parser) :
  p = mkParser (src p) (f p) (mode p) (spaced p) (newLine p) (err p) (tok p)
        (val p) (pos p) (npos p) (quote p) (asPos p) (buriedHdocs p)
        (heredocs p) (hdocStop p) (redirs p) (arrays p) (errLog p).
Proof. destruct p; reflexivity. Qed.

(** ** Words, nesting and look-ahead *)

(** X1. [postNested] undoes [preNested]: saving the lexer mode and
    the count of buried heredocs, entering any mode, and restoring
    the saved state leaves the struct exactly as it was. *)
Theorem nested_round_trip (q : quoteState) (p : parser) :
  (s <- preNested q;; postNested s) p = Ok tt p.
Proof. destruct p; reflexivity. Qed.

(** X2. [getWordOrEmpty] never returns a word without parts: it
    returns the parts [wordParts] read and leaves the struct as
    [wordParts] left it, and when there are none the word is one empty
    literal whose start and end are both the current position. *)
Theorem getWordOrEmpty_never_empty (rec : fns) (p p' : parser) (w : Word)
        (H : getWordOrEmpty rec p = Ok w p') :
  exists parts,
    wordParts rec p = Ok parts p' /\
    w = MkWord (match parts with
                | [] => [WLit (mkLit (pos p') (pos p') "")]
                | _ => parts
                end) /\
    wordParts_ w <> [].
Proof.
  unfold getWordOrEmpty in H. bind_inv H. destruct a as [|wp parts]; simpl in H.
  - prims_in H. simpl in H. inversion H; subst; clear H.
    exists []. rewrite Z.sub_add.
    replace (setNpos_ (npos q) (setNpos_ (pos q - 1) q)) with q
      by (destruct q; reflexivity).
    repeat split; [exact E | discriminate].
  - prims_in H. inversion H; subst; clear H.
    exists (wp :: parts). repeat split; [exact E | discriminate].
Qed.

Lemma getWordOrEmpty_never_empty_witness :
  exists w p', getWordOrEmpty (fns_at 8) (startOf 8 "" 0) = Ok w p' /\
               wordParts_ w <> [].
Proof.
  destruct (getWordOrEmpty (fns_at 8) (startOf 8 "" 0)) as [w p'| |] eqn:E;
    try (vm_compute in E; discriminate).
  exists w, p'. split; [reflexivity|].
  destruct (getWordOrEmpty_never_empty _ _ E) as (parts & _ & _ & H).
  exact H.
Defined.

(** X3. [getWord] returns nil rather than a word without parts: a
    word it returns has at least one part, and it returns nil only
    when the token is not a literal word and [wordParts] read
    nothing. *)
Theorem getWord_nil_or_parts (rec : fns) (p p' : parser) (w : option Word)
        (H : getWord rec p = Ok w p') :
  match w with
  | Some w' => wordParts_ w' <> []
  | None => tok p <> _LitWord /\ wordParts rec p = Ok [] p'
  end.
Proof.
  unfold getWord in H. bind_inv H. unfold get in E. inversion E; subst; clear E.
  destruct (tokEq (tok q) _LitWord) eqn:T.
  - bind_inv H. bind_inv H. prims_in H. inversion H; subst. discriminate.
  - bind_inv H. destruct a as [|wp parts]; simpl in H; prims_in H;
      inversion H; subst; clear H.
    + split; [|exact E]. intros C. rewrite <- tokEq_true in C. congruence.
    + discriminate.
Qed.

Lemma getWord_nil_or_parts_witness :
  exists p', getWord (fns_at 8) (startOf 8 ";" 0) = Ok None p' /\
             tok (startOf 8 ";" 0) <> _LitWord.
Proof.
  destruct (getWord (fns_at 8) (startOf 8 ";" 0)) as [[w|] p'| |] eqn:E;
    try (vm_compute in E; discriminate).
  exists p'. split; [reflexivity|].
  exact (proj1 (getWord_nil_or_parts _ _ E)).
Defined.

(** X4. The look-ahead [couldBeArithm] rewinds: whatever it read,
    the token and the cursor are back to what they were, and the line
    table of the file is no longer than before. *)
Theorem couldBeArithm_rewinds (rec : fns) (p p' : parser) (could : bool)
        (H : couldBeArithm rec p = Ok could p') :
  tok p' = tok p /\ npos p' = npos p /\
  exists fl fl', f p = Some fl /\ f p' = Some fl' /\
                 (List.length (Lines fl') <= List.length (Lines fl))%nat.
Proof.
  unfold couldBeArithm in H.
  binv H as p0 q0 E0. unfold get in E0. inversion E0; subst; clear E0.
  binv H as fl q1 E1. apply getFile_Ok in E1. destruct E1 as [-> Hf].
  binv H as u2 q2 E2. binv H as c q3 E3.
  binv H as u4 q4 E4. prims_in E4. inversion E4; subst; clear E4.
  binv H as u5 q5 E5. prims_in E5. inversion E5; subst; clear E5.
  binv H as u6 q6 E6. apply modFile_Ok in E6. destruct E6 as (fl' & Hf' & ->).
  prims_in H. inversion H; subst; clear H. simpl.
  repeat split. exists fl. eexists. repeat split; [exact Hf|].
  simpl. rewrite length_firstn. apply Nat.le_min_l.
Qed.

Lemma couldBeArithm_rewinds_witness :
  let p := startOf 8 "((1+2))" 0 in
  exists could p', couldBeArithm (fns_at 8) p = Ok could p' /\
                   tok p' = dblLeftParen /\ npos p' = 2.
Proof.
  intros p.
  destruct (couldBeArithm (fns_at 8) p) as [c p'| |] eqn:E;
    try (vm_compute in E; discriminate).
  exists c, p'. split; [reflexivity|].
  destruct (couldBeArithm_rewinds _ _ E) as (H1 & H2 & _).
  rewrite H1, H2. split; vm_compute; reflexivity.
Defined.

(** ** Redirects and commands *)

Lemma doRedirect_result (rec : fns) (s s' : Stmt) (p p' : parser) :
  doRedirect rec s p = Ok s' p' ->
  s' = stmtAddRedir (List.length (redirs p)) s.
Proof.
  intros H.
  unfold doRedirect in H.
  binv H as r q0 E0. unfold newRedirect in E0. prims_in E0.
  inversion E0; subst; clear E0.
  binv H as n q1 E1. binv H as u2 q2 E2. binv H as p3 q3 E3.
  binv H as u4 q4 E4. binv H as u5 q5 E5. binv H as u6 q6 E6.
  prims_in H. inversion H; subst. reflexivity.
Qed.

(** X5. [doRedirect] adds exactly one redirect to the statement, at
    the end of its list, and it is a [Redirect] allocated by this
    call; the command, the position, the flags and the assignments of
    the statement are untouched. *)
Theorem doRedirect_adds_one (rec : fns) (s s' : Stmt) (p p' : parser)
        (H : doRedirect rec s p = Ok s' p') :
  stmtRedirs s' = (stmtRedirs s ++ [List.length (redirs p)])%list /\
  stmtCmd s' = stmtCmd s /\ stmtPosition s' = stmtPosition s /\
  stmtNegated s' = stmtNegated s /\ stmtAssigns s' = stmtAssigns s.
Proof.
  rewrite (doRedirect_result _ _ _ H). destruct s. simpl.
  repeat split; reflexivity.
Qed.

Lemma doRedirect_adds_one_witness :
  exists s' p', doRedirect (fns_at 8) (newStmt 1) (startOf 8 ">f" 0) = Ok s' p' /\
                stmtRedirs s' = [0%nat].
Proof.
  destruct (doRedirect (fns_at 8) (newStmt 1) (startOf 8 ">f" 0))
    as [s' p'| |] eqn:E; try (vm_compute in E; discriminate).
  exists s', p'. split; [reflexivity|].
  exact (proj1 (doRedirect_adds_one _ _ _ E)).
Defined.

(** X6. The two lists of compound commands agree: [coprocClause]
    takes the token after [coproc] for the start of a compound command
    ([isBashCompoundCommand]) exactly when [gotStmtPipe], in the
    extended dialect, would hand it to a subshell, an arithmetic
    command or a clause of its own. *)
Theorem compound_heads_agree (t : token) (v : string) :
  isBashCompoundCommand t v
  = tokIn t [leftParen; dblLeftParen]
    || (tokEq t _LitWord && isClause (cmdHead true v)).
Proof.
  unfold isBashCompoundCommand.
  destruct (tokIn t [leftParen; dblLeftParen]); [reflexivity|].
  destruct (tokEq t _LitWord); [|reflexivity].
  cbv beta iota delta [orb andb].
  destruct (String.eqb v "}") eqn:E0.
  { apply String.eqb_eq in E0. subst v. reflexivity. }
  unfold cmdHead, bashDeclareWord, strIn, existsb. rewrite E0.
  repeat match goal with
         | |- context [String.eqb v ?c] =>
             destruct (String.eqb v c); cbv beta iota delta [orb andb isClause];
             try reflexivity
         end.
Qed.

(** ** Assignments *)

Lemma validIdentFrom_cons (bm : bool) (i : nat) (c : ascii) (s : string) :
  validIdentFrom bm i (String c s)
  = (let n := nat_of_ascii c in
     (Nat.leb 97 n && Nat.leb n 122)
     || (Nat.leb 65 n && Nat.leb n 90)
     || isb c "_"
     || (Nat.ltb 0 i && Nat.leb 48 n && Nat.leb n 57)
     || (Nat.ltb 0 i && (isb c "[" || isb c "]") && bm))
    && validIdentFrom bm (S i) s.
Proof. reflexivity. Qed.

Lemma validIdentFrom_rest (bm : bool) (r : string) : forall i,
  validIdentFrom bm (S i) r = forallb (nameChar bm) (list_ascii_of_string r).
Proof.
  induction r as [|c r IH]; intros i; [reflexivity|].
  rewrite validIdentFrom_cons, IH.
  change (list_ascii_of_string (String c r)) with (c :: list_ascii_of_string r).
  change (Nat.ltb 0 (S i)) with true.
  cbn [forallb]. unfold nameChar, nameStart. cbv zeta.
  f_equal;
  destruct (Nat.leb 97 (nat_of_ascii c) && Nat.leb (nat_of_ascii c) 122);
  destruct (Nat.leb 65 (nat_of_ascii c) && Nat.leb (nat_of_ascii c) 90);
  destruct (isb c "_"); destruct (Nat.leb 48 (nat_of_ascii c));
  destruct (Nat.leb (nat_of_ascii c) 57); destruct (isb c "[");
  destruct (isb c "]"); destruct bm; reflexivity.
Qed.

Lemma validIdentFrom_first (bm : bool) (c : ascii) (r : string) :
  validIdentFrom bm 0 (String c r)
  = nameStart c && forallb (nameChar bm) (list_ascii_of_string r).
Proof.
  rewrite validIdentFrom_cons, validIdentFrom_rest.
  change (Nat.ltb 0 0) with false.
  unfold nameStart. cbv zeta. f_equal;
  destruct (Nat.leb 97 (nat_of_ascii c) && Nat.leb (nat_of_ascii c) 122);
  destruct (Nat.leb 65 (nat_of_ascii c) && Nat.leb (nat_of_ascii c) 90);
  destruct (isb c "_"); reflexivity.
Qed.

Lemma sliceZ_nonempty (s t : string) (n : Z) :
  0 < n -> sliceZ s 0 n = Some t -> exists c r, t = String c r.
Proof.
  unfold sliceZ, lenZ. intros Hn H.
  destruct ((0 <=? 0) && (0 <=? n) && (n <=? Z.of_nat (String.length s))) eqn:B;
    [|discriminate].
  inversion H; subst; clear H.
  apply andb_prop in B. destruct B as [_ B]. apply Z.leb_le in B.
  destruct s as [|c s]; [simpl in B; lia|].
  rewrite Z.sub_0_r. destruct (Z.to_nat n) as [|k] eqn:K; [lia|].
  simpl. eauto.
Qed.

(** X7. [validIdent] reads and changes nothing, and accepts exactly
    the prefixes [val[:asPos]] with [asPos > 0] that start with a
    letter or an underscore and go on with letters, digits and
    underscores and, in the extended dialect only, brackets. *)
Theorem validIdent_spec (p p' : parser) (b : bool)
        (H : validIdent p = Ok b p') :
  p' = p /\
  (b = true <->
   0 < asPos p /\
   exists c r, sliceZ (val p) 0 (asPos p) = Some (String c r) /\
               nameStart c = true /\
               forallb (nameChar (bash p)) (list_ascii_of_string r) = true).
Proof.
  unfold validIdent in H. prims_in H.
  destruct (asPos p <=? 0) eqn:A.
  - inversion H; subst. split; [reflexivity|]. apply Z.leb_le in A.
    split; [discriminate | intros [C _]; lia].
  - apply Z.leb_gt in A.
    destruct (sliceZ (val p) 0 (asPos p)) as [t|] eqn:S; simpl in H;
      [|discriminate].
    inversion H; subst; clear H. split; [reflexivity|].
    destruct (sliceZ_nonempty _ A S) as (c & r & ->).
    rewrite validIdentFrom_first. split.
    + intros B. apply andb_prop in B. destruct B as [B1 B2].
      split; [exact A|]. exists c, r. auto.
    + intros (_ & c' & r' & E & B1 & B2). inversion E; subst.
      rewrite B1, B2. reflexivity.
Qed.

Lemma validIdent_spec_witness :
  let p := startOf 8 "a1=b" 0 in
  exists b, validIdent p = Ok b p /\ b = true.
Proof.
  intros p.
  destruct (validIdent p) as [b p'| |] eqn:E; try (vm_compute in E; discriminate).
  destruct (validIdent_spec _ E) as [-> H].
  exists b. split; [reflexivity|]. apply H.
  split; [vm_compute; reflexivity|].
  exists "a"%char, "1". vm_compute. repeat split.
Defined.

(** ** Heredoc stop words *)

Lemma unquotedWordPart_flag (srcs : string) (wp : WordPart) (s : string) (u : bool) :
  unquotedWordPart srcs wp = Some (s, u) -> u = quotes wp.
Proof.
  destruct wp; simpl; intros H;
    try (match type of H with
         | option_map _ ?x = _ => destruct x; simpl in H; [|discriminate]
         end; inversion H; reflexivity).
  - destruct l as [a b v]. simpl in *. destruct v as [|c v]; [discriminate|].
    destruct (isb c bsl); inversion H; reflexivity.
  - inversion H; reflexivity.
Qed.

Lemma unquotedParts_flag (srcs : string) (l : list WordPart) : forall s u,
  unquotedParts srcs l = Some (s, u) -> u = existsb quotes l.
Proof.
  induction l as [|wp l IH]; simpl; intros s u H.
  - inversion H; reflexivity.
  - destruct (unquotedWordPart srcs wp) as [[s1 u1]|] eqn:E1; [|discriminate].
    destruct (unquotedParts srcs l) as [[s2 u2]|] eqn:E2; [|discriminate].
    inversion H; subst. f_equal.
    + exact (unquotedWordPart_flag _ _ E1).
    + exact (IH _ _ eq_refl).
Qed.

(** X8. [unquotedWordBytes] leaves the struct alone and reports a
    stop word as quoted exactly when one of its parts is a single- or
    double-quoted string or a literal that starts with a backslash. *)
Theorem unquotedWordBytes_quoted (w : Word) (p p' : parser) (stop : string)
        (quoted : bool)
        (H : unquotedWordBytes (Some w) p = Ok (stop, quoted) p') :
  p' = p /\ quoted = existsb quotes (wordParts_ w).
Proof.
  unfold unquotedWordBytes in H. simpl in H. prims_in H.
  destruct (unquotedParts (src p) (wordParts_ w)) as [[s u]|] eqn:E;
    simpl in H; [|discriminate].
  inversion H; subst. split; [reflexivity|].
  exact (unquotedParts_flag _ _ E).
Qed.

(** ** Arithmetic expressions climb *)

Lemma arithmOpLevel_range (op : token) : -1 <= arithmOpLevel op <= 11.
Proof. destruct op; vm_compute; split; discriminate. Qed.

Lemma errPass_Ok (e : ParseError) (p p' : parser) (u : unit) :
  errPass e p = Ok u p' ->
  p' = p \/ (tok p' = _EOF /\ spaced p' = spaced p /\ quote p' = quote p).
Proof.
  unfold errPass. intros H. cbv beta iota delta [bind get] in H.
  destruct (err p).
  - prims_in H. inversion H; auto.
  - prims_in H. inversion H; subst. right. simpl. auto.
Qed.

Lemma posErr_Ok (ps : Pos) (text : string) (p p' : parser) (u : unit) :
  posErr ps text p = Ok u p' ->
  p' = p \/ (tok p' = _EOF /\ spaced p' = spaced p /\ quote p' = quote p).
Proof.
  unfold posErr. intros H. binv H as fl q E. apply getFile_Ok in E.
  destruct E as [-> _]. exact (errPass_Ok _ _ H).
Qed.

Lemma curErr_Ok (text : string) (p p' : parser) (u : unit) :
  curErr text p = Ok u p' ->
  p' = p \/ (tok p' = _EOF /\ spaced p' = spaced p /\ quote p' = quote p).
Proof.
  unfold curErr. intros H. binv H as ps q E. prims_in E. inversion E; subst.
  exact (posErr_Ok _ _ _ H).
Qed.

Lemma stops_after_err (level : Z) (compact : bool) (p p' : parser) :
  0 <= level ->
  p' = p \/ (tok p' = _EOF /\ spaced p' = spaced p /\ quote p' = quote p) ->
  stops level compact p -> stops level compact p'.
Proof.
  intros L [->|(T & S & Q)] H; [exact H|].
  right. unfold effLevel. rewrite T. simpl.
  change (arithmOpLevel _EOF) with (-1). lia.
Qed.

Lemma stops_at_EOF (level : Z) (compact : bool) (p : parser) :
  0 <= level -> tok p = _EOF -> stops level compact p.
Proof.
  intros L T. right. unfold effLevel. rewrite T. simpl.
  change (arithmOpLevel _EOF) with (-1). lia.
Qed.

Section Climb.
Variable rec : fns.
Hypothesis Hexpr : forall ftok fpos level compact tern p e p',
    0 <= level -> (tern = true -> level = 3) ->
    f_arithmExpr rec ftok fpos level compact tern p = Ok e p' ->
    stops level compact p' /\ rootAbove level e /\ climbsOpt e = true.
Hypothesis Hbase : forall ftok fpos compact p e p',
    f_arithmExprBase rec ftok fpos compact p = Ok e p' ->
    binaryLevel e = None /\ climbsOpt e = true.

Lemma climb_base_body ftok fpos compact p e p' :
  arithmExprBase_body rec ftok fpos compact p = Ok e p' ->
  binaryLevel e = None /\ climbsOpt e = true.
Proof.
  unfold arithmExprBase_body. intros H.
  binv H as p0 q0 E0. unfold get in E0. inversion E0; subst; clear E0.
  destruct (tokIn (tok q0) [addAdd; subSub; exclMark]).
  { binv H as u1 q1 E1. binv H as x q2 E2. binv H as u3 q3 E3.
    prims_in H. inversion H; subst. split; [reflexivity|].
    exact (proj2 (@Hbase _ _ _ _ _ _ E2)). }
  binv H as x q1 E1.
  assert (X : match x with
              | inl x' => binaryLevel x' = None /\ climbsOpt x' = true
              | inr _ => True
              end).
  { destruct (tokEq (tok q0) leftParen).
    - binv E1 as u2 q2 E2. binv E1 as y q3 E3. binv E1 as u4 q4 E4.
      binv E1 as rp q5 E5. prims_in E1. inversion E1; subst.
      split; [reflexivity|].
      refine (proj2 (proj2 (@Hexpr _ _ _ _ _ _ _ _ _ _ E3))); [lia | discriminate].
    - destruct (tokIn (tok q0) [plus; minus]).
      + binv E1 as u2 q2 E2. binv E1 as sp q3 E3. binv E1 as u4 q4 E4.
        binv E1 as y q5 E5. binv E1 as u6 q6 E6.
        prims_in E1. inversion E1; subst. split; [reflexivity|].
        refine (proj2 (proj2 (@Hexpr _ _ _ _ _ _ _ _ _ _ E5))); [lia | discriminate].
      + destruct (tokEq (tok q0) bckQuote && (quote q0 =? arithmExprLet)).
        * prims_in E1. inversion E1; subst. exact I.
        * binv E1 as w q2 E2. prims_in E1. inversion E1; subst.
          destruct w; split; reflexivity. }
  destruct x as [x|[]].
  - binv H as p2 q2 E2. unfold get in E2. inversion E2; subst; clear E2.
    destruct (compact && spaced q2).
    + prims_in H. inversion H; subst. exact X.
    + destruct (tokIn (tok q2) [addAdd; subSub]).
      * binv H as u3 q3 E3. prims_in H. inversion H; subst.
        split; [reflexivity|]. exact (proj2 X).
      * prims_in H. inversion H; subst. exact X.
  - prims_in H. inversion H; subst. split; reflexivity.
Qed.

Lemma climb_rest left level compact tern p e p' :
  0 <= level -> (tern = true -> level = 3) ->
  stops (level + 1) compact p \/ 11 < level ->
  rootAbove (level + 1) left -> climbsOpt left = true ->
  arithmExprRest rec left level compact tern p = Ok e p' ->
  stops level compact p' /\ rootAbove level e /\ climbsOpt e = true.
Proof.
  intros L T S RA CL H. unfold arithmExprRest in H.
  binv H as p0 q0 E0. unfold get in E0. inversion E0; subst; clear E0.
  assert (RL : rootAbove level left).
  { intros l Hl. specialize (RA l Hl). lia. }
  destruct (compact && spaced q0) eqn:CS.
  { prims_in H. inversion H; subst. split; [left; exact CS|]. auto. }
  cbv zeta in H. fold (effLevel tern q0) in H.
  assert (LOW : effLevel tern q0 < 0 \/ effLevel tern q0 < level ->
                effLevel false q0 < level).
  { unfold effLevel. destruct tern; simpl;
      destruct (tokEq (tok q0) colon && inQuote (quote q0) allParamArith); lia. }
  binv H as invalid q1 E1.
  assert (Q1 : (invalid = true /\
                (q1 = q0 \/ (tok q1 = _EOF /\ spaced q1 = spaced q0 /\
                             quote q1 = quote q0)) /\ effLevel tern q0 < 0)
               \/ (invalid = false /\ q1 = q0)).
  { destruct (effLevel tern q0 <? 0) eqn:N.
    - apply Z.ltb_lt in N.
      destruct (tokIn (tok q0) [_Lit; _LitWord]).
      + binv E1 as u2 q2 E2. prims_in E1. inversion E1; subst.
        left. split; [reflexivity|]. split; [exact (curErr_Ok _ _ E2) | exact N].
      + destruct (tokIn (tok q0) [rightParen; _EOF]).
        * prims_in E1. inversion E1; subst. right. auto.
        * destruct (quote q0 =? arithmExpr_).
          -- binv E1 as u2 q2 E2. prims_in E1. inversion E1; subst.
             left. split; [reflexivity|].
             split; [exact (curErr_Ok _ _ E2) | exact N].
          -- prims_in E1. inversion E1; subst. right. auto.
    - prims_in E1. inversion E1; subst. right. auto. }
  destruct Q1 as [(-> & Q & N)|(-> & ->)].
  { prims_in H. inversion H; subst.
    split; [|split; [intros l Hl; discriminate | reflexivity]].
    apply (stops_after_err L Q). right. apply LOW. left. exact N. }
  destruct ((effLevel tern q0 <? 0) || (effLevel tern q0 <? level)) eqn:B.
  { prims_in H. inversion H; subst.
    split; [|split; [exact RL | exact CL]].
    right. apply LOW. apply orb_prop in B. destruct B as [B|B];
      apply Z.ltb_lt in B; auto. }
  apply orb_false_elim in B. destruct B as [B1 B2].
  apply Z.ltb_ge in B1. apply Z.ltb_ge in B2.
  (* the operator is of the level of the call *)
  assert (RAW : effLevel tern q0 = arithmOpLevel (tok q0)).
  { unfold effLevel in *.
    destruct (negb tern && tokEq (tok q0) colon && inQuote (quote q0) allParamArith);
      [lia | reflexivity]. }
  assert (EQ : arithmOpLevel (tok q0) = level).
  { pose proof (arithmOpLevel_range (tok q0)) as R.
    destruct S as [[S|S]|S]; [congruence| |lia].
    destruct tern.
    - rewrite (T eq_refl) in *. unfold effLevel in S. simpl in S.
      destruct (tokEq (tok q0) colon) eqn:C.
      + apply tokEq_true in C. rewrite C. reflexivity.
      + simpl in S. lia.
    - lia. }
  rewrite RAW in H.
  binv H as u2 q2 E2. binv H as sp q3 E3. binv H as u4 q4 E4.
  binv H as y q5 E5. binv H as u6 q6 E6.
  prims_in H. inversion H; subst e p'; clear H.
  assert (Y : stops (arithmOpLevel (tok q0)) compact q5 /\
              rootAbove (arithmOpLevel (tok q0)) y /\ climbsOpt y = true).
  { refine (@Hexpr _ _ _ _ _ _ _ _ _ _ E5); [lia|].
    intros Q. apply tokEq_true in Q. rewrite Q. reflexivity. }
  destruct Y as (YS & YR & YC). rewrite EQ in *.
  split; [|split].
  - assert (P6 : q6 = q5 \/ (tok q6 = _EOF /\ spaced q6 = spaced q5 /\
                             quote q6 = quote q5)).
    { destruct (isNone y); simpl in E6.
      - unfold followErrExp, followErr in E6. exact (posErr_Ok _ _ _ E6).
      - prims_in E6. inversion E6; auto. }
    exact (stops_after_err L P6 YS).
  - intros l Hl. simpl in Hl. inversion Hl. lia.
  - simpl. rewrite EQ.
    assert (XL : match left with
                 | Some (BinaryArithm _ op' _ _) => level <? arithmOpLevel op'
                 | _ => true
                 end = true).
    { destruct left as [[? op' ? ?| | |]|]; try reflexivity.
      apply Z.ltb_lt. specialize (RA _ eq_refl). lia. }
    assert (YL : match y with
                 | Some (BinaryArithm _ op' _ _) => level <=? arithmOpLevel op'
                 | _ => true
                 end = true).
    { destruct y as [[? op' ? ?| | |]|]; try reflexivity.
      apply Z.leb_le. exact (YR _ eq_refl). }
    rewrite XL, YL. simpl. unfold climbsOpt in CL, YC. rewrite CL, YC.
    reflexivity.
Qed.

Lemma climb_expr_body ftok fpos level compact tern p e p' :
  0 <= level -> (tern = true -> level = 3) ->
  arithmExpr_body rec ftok fpos level compact tern p = Ok e p' ->
  stops level compact p' /\ rootAbove level e /\ climbsOpt e = true.
Proof.
  intros L T H. unfold arithmExpr_body in H.
  binv H as p0 q0 E0. unfold get in E0. inversion E0; subst; clear E0.
  destruct (tokEq (tok q0) _EOF || peekArithmEnd q0) eqn:B.
  { prims_in H. inversion H; subst.
    split; [|split; [intros l Hl; discriminate | reflexivity]].
    right. unfold effLevel.
    apply orb_prop in B. destruct B as [B|B].
    - apply tokEq_true in B. rewrite B. simpl.
      change (arithmOpLevel _EOF) with (-1). lia.
    - unfold peekArithmEnd in B. apply andb_prop in B. destruct B as [B _].
      apply andb_prop in B. destruct B as [B _].
      apply tokEq_true in B. rewrite B. simpl.
      change (arithmOpLevel rightParen) with (-1). lia. }
  binv H as left q1 E1.
  destruct (11 <? level) eqn:C.
  - apply Z.ltb_lt in C. destruct (@Hbase _ _ _ _ _ _ E1) as [B1 B2].
    refine (climb_rest L T _ _ B2 H); [right; exact C|].
    intros l Hl. congruence.
  - apply Z.ltb_ge in C.
    assert (G : stops (level + 1) compact q1 /\ rootAbove (level + 1) left /\
                climbsOpt left = true)
      by (refine (@Hexpr _ _ _ _ _ _ _ _ _ _ E1); [lia | discriminate]).
    destruct G as (S1 & R1 & C1).
    exact (climb_rest L T (or_introl S1) R1 C1 H).
Qed.
End Climb.

Lemma climb_at (fuel : nat) :
  (forall ftok fpos level compact tern p e p',
      0 <= level -> (tern = true -> level = 3) ->
      f_arithmExpr (fns_at fuel) ftok fpos level compact tern p = Ok e p' ->
      stops level compact p' /\ rootAbove level e /\ climbsOpt e = true) /\
  (forall ftok fpos compact p e p',
      f_arithmExprBase (fns_at fuel) ftok fpos compact p = Ok e p' ->
      binaryLevel e = None /\ climbsOpt e = true).
Proof.
  induction fuel as [|n [IH1 IH2]].
  - split; intros; discriminate.
  - split.
    + intros ftok fpos level compact tern p e p' L T H.
      exact (@climb_expr_body (fns_at n) IH1 IH2 ftok fpos level compact tern p e p' L T H).
    + intros ftok fpos compact p e p' H.
      exact (@climb_base_body (fns_at n) IH1 IH2 ftok fpos compact p e p' H).
Qed.

(** X9. Precedence climbing, for every expression [arithmExpr]
    returns when called at level [level >= 0]: a binary node at its
    root has an operator of level [level] or higher, and throughout
    its binary, unary and parenthesised nodes a left operand that is
    binary has an operator of a strictly higher level than its parent
    and a right operand one of the same or a higher level (operators
    of one level nest to the right). *)
Theorem arithmExpr_climbs (fuel : nat) (ftok : token) (fpos : Pos) (level : Z)
        (compact : bool) (p p' : parser) (e : ArithmExpr)
        (L : 0 <= level)
        (H : f_arithmExpr (fns_at fuel) ftok fpos level compact false p
             = Ok (Some e) p') :
  climbs e = true /\ rootAbove level (Some e).
Proof.
  destruct (proj1 (climb_at fuel) ftok fpos level compact false p (Some e) p' L
                  (fun C : false = true => False_ind _ (Bool.diff_false_true C)) H)
    as (_ & R & C).
  split; [exact C | exact R].
Qed.

Lemma arithmExpr_climbs_witness :
  let p := arithmAt "1-2-3))" in
  exists e p', f_arithmExpr (fns_at 40) dollDblParen 1 0 false false p
               = Ok (Some e) p' /\
               climbs e = true.
Proof.
  intros p.
  destruct (f_arithmExpr (fns_at 40) dollDblParen 1 0 false false p)
    as [[e|] p'| |] eqn:E; try (vm_compute in E; discriminate).
  exists e, p'. split; [reflexivity|].
  refine (proj1 (@arithmExpr_climbs 40 dollDblParen 1 0 false p p' e _ E)). lia.
Defined.

(** [1-2-3] is read as [1-(2-3)]. *)
Example arithm_right_nested :
  stmtsOf (Parse 64 "$((1-2-3))" "" 0)
  = Some [MkStmt
            (Some (CallExpr [MkWord [ArithmExp 1 9 false
               (Some (BinaryArithm 5 minus
                  (Some (AWord (MkWord [WLit (mkLit 4 5 "1")])))
                  (Some (BinaryArithm 7 minus
                     (Some (AWord (MkWord [WLit (mkLit 6 7 "2")])))
                     (Some (AWord (MkWord [WLit (mkLit 8 9 "3")])))))))]]))
            1 0 false false [] []].
Proof. vm_compute. reflexivity. Qed.

(** ** Statements *)

Ltac chase E :=
  repeat match type of E with
         | bind _ _ _ = Ok _ _ =>
             let a := fresh "a" in let q := fresh "q" in let E' := fresh "E" in
             apply bind_Ok in E; destruct E as (a & q & E' & E); clear E'
         | (match ?x with _ => _ end) _ = Ok _ _ => destruct x
         end.

(** X10. [gotStmtPipe] returns nil rather than a statement that
    holds nothing (no command, no redirect, no negation, no
    assignment), with one exception: at the backquote that closes a
    command substitution it returns the statement it was given, as it
    is. *)
Theorem gotStmtPipe_never_empty (rec : fns) (s s' : Stmt) (p p' : parser)
        (H : gotStmtPipe_body rec s p = Ok (Some s') p') :
  emptyStmt s' = false
  \/ (tok p = bckQuote /\ quote p = subCmdBckquo /\ s' = s).
Proof.
  unfold gotStmtPipe_body in H.
  binv H as p0 q0 E0. unfold get in E0. inversion E0; subst; clear E0.
  binv H as r q1 E1.
  assert (R : match r with
              | inl _ => True
              | inr s1 => tok q0 = bckQuote /\ quote q0 = subCmdBckquo /\ s1 = s
              end).
  { destruct (tokEq (tok q0) bckQuote && (quote q0 =? subCmdBckquo)) eqn:B;
      chase E1; prims_in E1; inversion E1; subst; try exact I.
    apply andb_prop in B. destruct B as [B1 B2].
    apply tokEq_true in B1. apply Z.eqb_eq in B2. auto. }
  destruct r as [s1|s1].
  - binv H as s2 q2 E2.
    fold (emptyStmt s2) in H. destruct (emptyStmt s2) eqn:C.
    + prims_in H. inversion H.
    + binv H as p3 q3 E3.
      destruct (tokEq (tok p3) or || tokEq (tok p3) pipeAll).
      * chase H. prims_in H. inversion H; subst. left. reflexivity.
      * prims_in H. inversion H; subst. left. exact C.
  - prims_in H. inversion H; subst. right. exact R.
Qed.

Lemma gotStmtPipe_never_empty_witness :
  exists s' p', gotStmtPipe_body (fns_at 8) (newStmt 1) (startOf 8 "foo" 0)
                = Ok (Some s') p' /\
                emptyStmt s' = false.
Proof.
  destruct (gotStmtPipe_body (fns_at 8) (newStmt 1) (startOf 8 "foo" 0))
    as [[s'|] p'| |] eqn:E; try (vm_compute in E; discriminate).
  exists s', p'. split; [reflexivity|].
  destruct (gotStmtPipe_never_empty _ _ _ E) as [C|(C & _)]; [exact C|].
  vm_compute in C. discriminate.
Defined.

(** The exception at work: inside backquotes, [&&] with nothing
    after it is accepted, and its right operand is an empty
    statement; outside, it is an error. *)
Example backquote_empty_statement :
  accepts (Parse 64 "`foo &&`" "" 0) = true /\
  errorOf (Parse 64 "foo &&" "" 0)
  = Some "1:5: && must be followed by a statement".
Proof. vm_compute. split; reflexivity. Qed.

(** A Go [for] loop keeps an invariant that each of its iterations
    keeps, and ends in what an iteration that leaves it ends in. *)
Lemma loop_inv (fuel : nat) :
  forall (S R : Type) (step : S -> M (S + R)) (Inv : S -> parser -> Prop)
         (Post : R -> parser -> Prop),
    (forall s p, Inv s p ->
                 match step s p with
                 | Ok (inl s') p' => Inv s' p'
                 | Ok (inr r) p' => Post r p'
                 | _ => True
                 end) ->
    forall s p, Inv s p ->
                match @f_loop (fns_at fuel) S R step s p with
                | Ok r p' => Post r p'
                | _ => True
                end.
Proof.
  induction fuel as [|n IH]; intros S R step Inv Post Hstep s p Hs.
  - exact I.
  - simpl. unfold loop_body, bind. pose proof (Hstep s p Hs) as H1.
    destruct (step s p) as [[s1|r] p1| |]; try exact I.
    + exact (IH S R step Inv Post Hstep s1 p1 H1).
    + exact H1.
Qed.

Ltac chase_keep E :=
  repeat match type of E with
         | bind _ _ _ = Ok _ _ =>
             let a := fresh "a" in let q := fresh "q" in let E' := fresh "E" in
             apply bind_Ok in E; destruct E as (a & q & E' & E)
         | (match ?x with _ => _ end) _ = Ok _ _ => destruct x
         end.

Lemma stmtAddRedir_withRedirs (r : RedirPtr) (rs : list RedirPtr) (s : Stmt) :
  stmtAddRedir r (withRedirs rs s) = withRedirs (rs ++ [r]) s.
Proof. destruct s. simpl. rewrite app_assoc. reflexivity. Qed.

Lemma withRedirs_nil (s : Stmt) : withRedirs [] s = s.
Proof. destruct s. simpl. rewrite app_nil_r. reflexivity. Qed.

(** X11. [callExpr] returns a call whose first argument is the word
    it was given, with the statement it was given changed only by
    redirects added at the end; and it returns only after a newline,
    at a token that ends a command, or at the backquote or
    parenthesis closing the command substitution it is in. *)
Theorem callExpr_keeps_word (fuel : nat) (s s' : Stmt) (w : Word) (c : Command)
        (p p' : parser)
        (H : callExpr (fns_at fuel) s w p = Ok (c, s') p') :
  (exists args rs, c = CallExpr (w :: args) /\ s' = withRedirs rs s) /\
  callEnds p' = true.
Proof.
  unfold callExpr in H.
  match type of H with
  | @f_loop _ _ _ ?step _ _ = _ =>
      pose proof (@loop_inv fuel _ _ step
                    (fun st _ => exists args rs,
                         snd st = w :: args /\ fst st = withRedirs rs s)
                    (fun r q => (exists args rs,
                         fst r = CallExpr (w :: args) /\ snd r = withRedirs rs s)
                         /\ callEnds q = true))
        as L
  end.
  cbv beta in L.
  assert (G := fun Hs => L Hs (s, [w]) p
                 (ex_intro _ [] (ex_intro _ [] (conj eq_refl (eq_sym (withRedirs_nil s)))))).
  clear L. rewrite H in G. apply G. clear G H.
  intros [s1 args1] q (a & rs & Ha & Hs). simpl in Ha, Hs. subst.
  match goal with |- match ?m with _ => _ end => destruct m as [[[s2 a2]|[c2 s2]] q'| |] eqn:E end;
    try exact I; cbv beta iota zeta in E.
  - chase_keep E; prims_in E; inversion E; subst; simpl;
      try (eexists; eexists; split; reflexivity);
      match goal with
      | D : doRedirect _ _ _ = Ok _ _ |- _ =>
          apply doRedirect_result in D; subst;
          rewrite stmtAddRedir_withRedirs;
          eexists; eexists; split; reflexivity
      end.
  - binv E as p0 q0 E0. unfold get in E0. injection E0 as <- <-.
    unfold callEnds.
    destruct (newLine q) eqn:N.
    { prims_in E. inversion E; subst. rewrite N. simpl.
      split; [eexists; eexists; split; reflexivity | reflexivity]. }
    destruct (tokIn (tok q) [_EOF; semicolon; and; or; andAnd; orOr; pipeAll;
                             dblSemicolon; semiFall; dblSemiFall]) eqn:T1.
    { prims_in E. inversion E; subst. rewrite N, T1. simpl.
      split; [eexists; eexists; split; reflexivity | reflexivity]. }
    destruct (tokEq (tok q) _LitWord) eqn:T2.
    { chase E; prims_in E; inversion E. }
    destruct (tokEq (tok q) bckQuote && (quote q =? subCmdBckquo)) eqn:T3.
    { prims_in E. inversion E; subst. rewrite N, T1, T3. simpl.
      split; [eexists; eexists; split; reflexivity | reflexivity]. }
    destruct (tokEq (tok q) bckQuote || tokIn (tok q) wordStartToks) eqn:T4.
    { chase E; prims_in E; inversion E. }
    destruct (tokIn (tok q) redirToks) eqn:T5.
    { chase E; prims_in E; inversion E. }
    destruct (tokEq (tok q) rightParen && (quote q =? subCmd)) eqn:T6.
    { prims_in E. inversion E; subst. rewrite N, T1, T3, T6. simpl.
      split; [eexists; eexists; split; reflexivity | reflexivity]. }
    chase E; prims_in E; inversion E.
Qed.

Lemma callExpr_keeps_word_witness :
  let p := startOf 8 "a b >f" 0 in
  exists c s' p', callExpr (fns_at 8) (newStmt 1) (MkWord []) p = Ok (c, s') p' /\
                  (exists args rs, c = CallExpr (MkWord [] :: args) /\
                                   s' = withRedirs rs (newStmt 1)) /\
                  callEnds p' = true.
Proof.
  intros p.
  destruct (callExpr (fns_at 8) (newStmt 1) (MkWord []) p) as [[c s'] p'| |] eqn:E;
    try (vm_compute in E; discriminate).
  exists c, s', p'. split; [reflexivity|].
  exact (callExpr_keeps_word _ _ _ _ E).
Defined.

(** ** Heredocs *)

(** X12. With no heredoc pending (all of the queue is buried),
    [doHeredocs] reads nothing: it only sets the token to
    [illegalTok]. *)
Theorem doHeredocs_nothing_pending (fuel : nat) (p : parser)
        (H : buriedHdocs p = slen (heredocs p)) (H0 : 0 <= buriedHdocs p) :
  f_doHeredocs (fns_at (S (S fuel))) p = Ok tt (setTok_ illegalTok p).
Proof.
  simpl. unfold doHeredocs_body, loop_body.
  cbv beta iota zeta delta [bind get gets ret modify setTok setHeredocs setQuote].
  simpl. rewrite H.
  replace (slen (heredocs p) <? 0) with false
    by (symmetry; apply Z.ltb_ge; lia).
  rewrite Z.ltb_irrefl. simpl.
  rewrite Z.sub_diag. simpl.
  destruct p as [? ? ? ? ? ? ? ? ? ? ? ? ? [a l] ? ? ? ?]. reflexivity.
Qed.

Lemma doHeredocs_nothing_pending_witness :
  buriedHdocs newParser = slen (heredocs newParser) /\
  f_doHeredocs (fns_at 2) newParser = Ok tt newParser.
Proof.
  split; [reflexivity|].
  refine (@doHeredocs_nothing_pending 0 newParser eq_refl _).
  vm_compute. discriminate.
Defined.

(** ** Whole runs of [Parse] *)

(** X13. The empty input, under any name and mode: [Parse] returns,
    with a nil error and the file of that name with no statements, no
    comments and the line table [[0]]. *)
Theorem Parse_empty (fuel : nat) (name : string) (md : ParseMode)
        (H : (2 <= fuel)%nat) :
  resultOf (Parse fuel "" name md) = (Some (mkFile name [] [] [0]), None) /\
  returns (Parse fuel "" name md) = true.
Proof.
  destruct fuel as [|[|n]]; [lia | lia |].
  split; reflexivity.
Qed.

Lemma Parse_empty_witness :
  (2 <= 2)%nat /\
  resultOf (Parse 2 "" "x.sh" PosixConformant)
  = (Some (mkFile "x.sh" [] [] [0]), None).
Proof.
  split; [apply le_n|].
  exact (proj1 (@Parse_empty 2 "x.sh" PosixConformant (le_n 2))).
Defined.

(** ** The name of the file, in the file and in the error *)

Section Holds.
Variable name : string.

Lemma holds_ret (A : Type) (a : A) : holds name (ret a).
Proof. intros p a' p' H E. inversion E; subst. exact H. Qed.

Lemma holds_bind (A B : Type) (m : M A) (k : A -> M B) :
  holds name m -> (forall a, holds name (k a)) -> holds name (bind m k).
Proof.
  intros Hm Hk p b p' H E. unfold bind in E.
  destruct (m p) as [a p1| |] eqn:Em; try discriminate.
  exact (Hk a p1 b p' (Hm p a p1 H Em) E).
Qed.

Lemma holds_panic (A : Type) : holds name (@panic A).
Proof. intros p a p' _ E. discriminate. Qed.

Lemma holds_outOfFuel (A : Type) : holds name (@outOfFuel A).
Proof. intros p a p' _ E. discriminate. Qed.

Lemma holds_get : holds name get.
Proof. intros p a p' H E. inversion E; subst. exact H. Qed.

Lemma holds_gets (A : Type) (g : parser -> A) : holds name (gets g).
Proof. intros p a p' H E. inversion E; subst. exact H. Qed.

Lemma holds_deref (A : Type) (o : option A) : holds name (deref o).
Proof. destruct o; [apply holds_ret | apply holds_panic]. Qed.

Lemma holds_modify (h : parser -> parser) :
  (forall p, f (h p) = f p) -> (forall p, err (h p) = err p) ->
  holds name (modify h).
Proof.
  intros Hf He p a p' [H1 H2] E. inversion E; subst.
  split; [rewrite Hf; exact H1 | rewrite He; exact H2].
Qed.

Lemma holds_setErr_None : holds name (setErr None).
Proof.
  intros p a p' [H1 H2] E. inversion E; subst.
  split; [exact H1 | discriminate].
Qed.

Lemma holds_modFile (h : File -> File) :
  (forall fl, Name (h fl) = Name fl /\
              forall ls, Lines fl = 0 :: ls -> exists ls', Lines (h fl) = 0 :: ls') ->
  holds name (modFile h).
Proof.
  intros Hh p a p' [(fl & H1 & H2 & ls & H3) Hn] E.
  apply modFile_Ok in E. destruct E as (fl' & Hf' & ->).
  assert (fl' = fl) by congruence. subst fl'.
  destruct (Hh fl) as [Ha Hb]. destruct (Hb ls H3) as (ls' & Hl').
  split; [|exact Hn].
  exists (h fl). simpl. split; [reflexivity|]. split; [congruence|]. eauto.
Qed.

Lemma holds_when (b : bool) (m : M unit) : holds name m -> holds name (when b m).
Proof. intros H. destruct b; [exact H | apply holds_ret]. Qed.
End Holds.

Create HintDb holds.

#[local] Hint Resolve holds_ret holds_panic holds_outOfFuel holds_get holds_gets
  holds_deref holds_when holds_setErr_None : holds.

Ltac holds_setter :=
  unfold setSrc, setMode, setSpaced, setNewLine, setTok, setVal,
    setPos, setNpos, setQuote, setAsPos, setBuriedHdocs, setHeredocs,
    setHdocStop, setRedirs, setArrays, setErrLog;
  apply holds_modify; intros; reflexivity.

Ltac holds_file :=
  apply holds_modFile; intros ?; split; [reflexivity|];
  let ls := fresh "ls" in let Hl := fresh "Hl" in
  intros ls Hl; simpl; rewrite Hl; simpl; eauto.

Ltac holds_step :=
  match goal with
  | |- holds _ (bind _ _) => apply holds_bind; [| intros ?]
  | |- holds _ (when _ _) => apply holds_when
  | |- holds _ (if ?b then _ else _) => destruct b
  | |- holds _ (match ?x with _ => _ end) => destruct x
  | |- holds _ (modFile _) => holds_file
  | |- holds _ (@f_loop _ _ _ _ _) =>
      match goal with H : recHolds _ _ |- _ => apply (h_loop H); intros ? end
  | |- holds _ _ => solve [eauto 3 with holds]
  | |- holds _ _ => holds_setter
  end.

Ltac holds_auto := cbv beta zeta; repeat (holds_step; cbv beta zeta).

#[local] Hint Resolve h_next h_doHeredocs h_stmts h_getStmt h_gotStmtPipe
  h_wordPart h_arithmExpr h_arithmExprBase h_testExpr : holds.

Section HoldsLexer.
Variable name : string.
Variable rec : fns.
Hypothesis Hrec : recHolds name rec.

Lemma holds_addNpos k : holds name (addNpos k).
Proof. unfold addNpos. holds_auto. Qed.

Lemma holds_appendLine off : holds name (appendLine off).
Proof. unfold appendLine. holds_auto. Qed.

Hint Resolve holds_addNpos holds_appendLine : holds.

Lemma holds_tokN k t : holds name (tokN k t).
Proof. unfold tokN. holds_auto. Qed.
Hint Resolve holds_tokN : holds.

Lemma holds_regToken b : holds name (regToken b).
Proof. unfold regToken. holds_auto. Qed.

Lemma holds_dqToken b : holds name (dqToken b).
Proof. unfold dqToken. holds_auto. Qed.

Lemma holds_paramToken b : holds name (paramToken b).
Proof. unfold paramToken. holds_auto. Qed.

Lemma holds_arithmToken b : holds name (arithmToken b).
Proof. unfold arithmToken. holds_auto. Qed.

Lemma holds_readUntil b : holds name (readUntil b).
Proof. unfold readUntil. holds_auto. Qed.

Lemma holds_finishLit t bs : holds name (finishLit t bs).
Proof. unfold finishLit. holds_auto. Qed.
Hint Resolve holds_regToken holds_dqToken holds_paramToken holds_arithmToken
  holds_readUntil holds_finishLit : holds.

Lemma holds_escaped keep bs k :
  (forall s, holds name (k s)) -> holds name (escaped keep bs k).
Proof. intros Hk. unfold escaped. holds_auto. Qed.
Hint Resolve holds_escaped : holds.

Lemma holds_advanceLitNoneLoop n : forall bs, holds name (advanceLitNoneLoop n bs).
Proof. induction n; intros bs; simpl; holds_auto. Qed.

Lemma holds_advanceLitOtherLoop n : forall q bs,
    holds name (advanceLitOtherLoop n q bs).
Proof. induction n; intros q bs; simpl; holds_auto. Qed.

Lemma holds_advanceLitDquoteLoop n : forall bs,
    holds name (advanceLitDquoteLoop n bs).
Proof. induction n; intros bs; simpl; holds_auto. Qed.

Lemma holds_advanceLitHdocLoop n : forall bs,
    holds name (advanceLitHdocLoop n bs).
Proof. induction n; intros bs; simpl; holds_auto. Qed.
Hint Resolve holds_advanceLitNoneLoop holds_advanceLitOtherLoop
  holds_advanceLitDquoteLoop holds_advanceLitHdocLoop : holds.

Lemma holds_advanceLitNone : holds name advanceLitNone.
Proof. unfold advanceLitNone. holds_auto. Qed.

Lemma holds_advanceLitOther q : holds name (advanceLitOther q).
Proof. unfold advanceLitOther. holds_auto. Qed.

Lemma holds_advanceLitDquote : holds name advanceLitDquote.
Proof. unfold advanceLitDquote. holds_auto. Qed.

Lemma holds_advanceLitHdoc : holds name advanceLitHdoc.
Proof. unfold advanceLitHdoc. holds_auto. Qed.

Lemma holds_advanceLitRe : holds name advanceLitRe.
Proof. unfold advanceLitRe. holds_auto. Qed.
Hint Resolve holds_advanceLitNone holds_advanceLitOther holds_advanceLitDquote
  holds_advanceLitHdoc holds_advanceLitRe : holds.

Lemma holds_skipSpace n : holds name (skipSpace rec n).
Proof. induction n; simpl; holds_auto. Qed.

Lemma holds_addComment c : holds name (addComment c).
Proof. unfold addComment. holds_auto. Qed.
Hint Resolve holds_skipSpace holds_addComment : holds.

Lemma holds_next_body : holds name (next_body rec).
Proof. unfold next_body. holds_auto. Qed.

Lemma holds_hdocLitLoop n : forall e, holds name (hdocLitLoop n e).
Proof. induction n; intros e; simpl; holds_auto. Qed.
Hint Resolve holds_hdocLitLoop : holds.

Lemma holds_hdocLitWord : holds name hdocLitWord.
Proof. unfold hdocLitWord. holds_auto. Qed.
End HoldsLexer.

Section HoldsParser.
Variable name : string.
Variable rec : fns.
Hypothesis Hrec : recHolds name rec.

Hint Resolve holds_addNpos holds_appendLine holds_readUntil
  holds_advanceLitOther holds_next_body holds_hdocLitWord : holds.

Lemma holds_getFile : holds name (getFile).
Proof. unfold getFile. holds_auto. Qed.
Hint Resolve holds_getFile : holds.

Lemma holds_getFile_bind (A : Type) (k : File -> M A) :
  (forall fl ls, Name fl = name -> Lines fl = 0 :: ls -> holds name (k fl)) ->
  holds name (bind getFile k).
Proof.
  intros Hk p a p' Hp E. binv E as fl q E1.
  apply getFile_Ok in E1. destruct E1 as [-> Hfl].
  destruct Hp as [(fl0 & H1 & H2 & ls & H3) Hn].
  assert (fl0 = fl) by congruence. subst fl0.
  refine (Hk fl ls H2 H3 p a p' _ E).
  split; [exists fl; eauto | exact Hn].
Qed.

Lemma holds_errPass e : Filename e = name -> holds name (errPass e).
Proof.
  intros He p a p' [Hf Hn] E. unfold errPass in E.
  cbv beta iota delta [bind get] in E. destruct (err p) eqn:Ee.
  - prims_in E. injection E as _ <-. split; [exact Hf|]. rewrite Ee. exact Hn.
  - prims_in E. injection E as _ <-. split; [exact Hf|].
    simpl. intros e0 H0. injection H0 as <-. exact He.
Qed.

Lemma holds_posErr ps text : holds name (posErr ps text).
Proof.
  intros p a p' Hp E. unfold posErr in E.
  binv E as fl q E1. apply getFile_Ok in E1. destruct E1 as [-> Hfl].
  refine (@holds_errPass _ _ p a p' Hp E). simpl.
  destruct Hp as [(fl0 & H1 & H2 & _) _]. congruence.
Qed.
Hint Resolve holds_posErr : holds.

Lemma holds_curErr text : holds name (curErr text).
Proof. unfold curErr. holds_auto. Qed.
Hint Resolve holds_curErr : holds.

Lemma holds_posixRejects p msg : holds name (posixRejects p msg).
Proof. unfold posixRejects. holds_auto. Qed.
Hint Resolve holds_posixRejects : holds.

Lemma holds_lit ps v : holds name (lit ps v).
Proof. unfold lit. holds_auto. Qed.
Hint Resolve holds_lit : holds.

Lemma holds_preNested q : holds name (preNested q).
Proof. unfold preNested. holds_auto. Qed.
Hint Resolve holds_preNested : holds.

Lemma holds_postNested s : holds name (postNested s).
Proof. unfold postNested. holds_auto. Qed.
Hint Resolve holds_postNested : holds.

Lemma holds_unquotedWordBytes w : holds name (unquotedWordBytes w).
Proof. unfold unquotedWordBytes. holds_auto. Qed.
Hint Resolve holds_unquotedWordBytes : holds.

Lemma holds_newRedirect : holds name (newRedirect).
Proof. unfold newRedirect. holds_auto. Qed.
Hint Resolve holds_newRedirect : holds.

Lemma holds_redirect r : holds name (redirect r).
Proof. unfold redirect. holds_auto. Qed.
Hint Resolve holds_redirect : holds.

Lemma holds_updRedirect r h : holds name (updRedirect r h).
Proof. unfold updRedirect. holds_auto. Qed.
Hint Resolve holds_updRedirect : holds.

Lemma holds_appendHeredoc r : holds name (appendHeredoc r).
Proof. unfold appendHeredoc. holds_auto. Qed.
Hint Resolve holds_appendHeredoc : holds.

Lemma holds_readHdocs a lo i : holds name (readHdocs a lo i).
Proof. unfold readHdocs. holds_auto. Qed.
Hint Resolve holds_readHdocs : holds.

Lemma holds_got t : holds name (got rec t).
Proof. unfold got. holds_auto. Qed.
Hint Resolve holds_got : holds.

Lemma holds_gotRsrv v : holds name (gotRsrv rec v).
Proof. unfold gotRsrv. holds_auto. Qed.
Hint Resolve holds_gotRsrv : holds.

Lemma holds_gotSameLine t : holds name (gotSameLine rec t).
Proof. unfold gotSameLine. holds_auto. Qed.
Hint Resolve holds_gotSameLine : holds.

Lemma holds_followErr ps left right : holds name (followErr ps left right).
Proof. unfold followErr. holds_auto. Qed.
Hint Resolve holds_followErr : holds.

Lemma holds_followErrExp ps left : holds name (followErrExp ps left).
Proof. unfold followErrExp. holds_auto. Qed.
Hint Resolve holds_followErrExp : holds.

Lemma holds_follow lpos left t : holds name (follow rec lpos left t).
Proof. unfold follow. holds_auto. Qed.
Hint Resolve holds_follow : holds.

Lemma holds_followRsrv lpos left v : holds name (followRsrv rec lpos left v).
Proof. unfold followRsrv. holds_auto. Qed.
Hint Resolve holds_followRsrv : holds.

Lemma holds_followStmts left lpos stops : holds name (followStmts rec left lpos stops).
Proof. unfold followStmts. holds_auto. Qed.
Hint Resolve holds_followStmts : holds.

Lemma holds_quoteErr lpos q : holds name (quoteErr lpos q).
Proof. unfold quoteErr. holds_auto. Qed.
Hint Resolve holds_quoteErr : holds.

Lemma holds_matchingErr lpos left right : holds name (matchingErr lpos left right).
Proof. unfold matchingErr. holds_auto. Qed.
Hint Resolve holds_matchingErr : holds.

Lemma holds_matched lpos left right : holds name (matched rec lpos left right).
Proof. unfold matched. holds_auto. Qed.
Hint Resolve holds_matched : holds.

Lemma holds_stmtEnd npos0 start end_ : holds name (stmtEnd rec npos0 start end_).
Proof. unfold stmtEnd. holds_auto. Qed.
Hint Resolve holds_stmtEnd : holds.

Lemma holds_invalidStmtStart : holds name (invalidStmtStart).
Proof. unfold invalidStmtStart. holds_auto. Qed.
Hint Resolve holds_invalidStmtStart : holds.

Lemma holds_wordParts : holds name (wordParts rec).
Proof. unfold wordParts. holds_auto. Qed.
Hint Resolve holds_wordParts : holds.

Lemma holds_getWord : holds name (getWord rec).
Proof. unfold getWord. holds_auto. Qed.
Hint Resolve holds_getWord : holds.

Lemma holds_getWordOrEmpty : holds name (getWordOrEmpty rec).
Proof. unfold getWordOrEmpty. holds_auto. Qed.
Hint Resolve holds_getWordOrEmpty : holds.

Lemma holds_getLit : holds name (getLit rec).
Proof. unfold getLit. holds_auto. Qed.
Hint Resolve holds_getLit : holds.

Lemma holds_followWordTok t ps : holds name (followWordTok rec t ps).
Proof. unfold followWordTok. holds_auto. Qed.
Hint Resolve holds_followWordTok : holds.

Lemma holds_followWord s ps : holds name (followWord rec s ps).
Proof. unfold followWord. holds_auto. Qed.
Hint Resolve holds_followWord : holds.

Lemma holds_doHeredocs_body : holds name (doHeredocs_body rec).
Proof. unfold doHeredocs_body. holds_auto. Qed.
Hint Resolve holds_doHeredocs_body : holds.

Lemma holds_stmts_body stops : holds name (stmts_body rec stops).
Proof. unfold stmts_body. holds_auto. Qed.
Hint Resolve holds_stmts_body : holds.

Lemma holds_couldBeArithm : holds name (couldBeArithm rec).
Proof.
  unfold couldBeArithm.
  apply holds_bind; [holds_auto|]. intros p0.
  apply holds_getFile_bind. intros fl0 ls0 Hn0 Hl0.
  apply holds_bind; [holds_auto|]. intros _.
  apply holds_bind; [holds_auto|]. intros could.
  apply holds_bind; [holds_auto|]. intros _.
  apply holds_bind; [holds_auto|]. intros _.
  apply holds_bind; [|intros; holds_auto].
  apply holds_modFile. intros fl. split; [reflexivity|].
  intros ls Hl. simpl. rewrite Hl0, Hl. simpl. eauto.
Qed.
Hint Resolve holds_couldBeArithm : holds.

Lemma holds_arithmEnd ltok lpos old : holds name (arithmEnd rec ltok lpos old).
Proof. unfold arithmEnd. holds_auto. Qed.
Hint Resolve holds_arithmEnd : holds.

Lemma holds_paramExp : holds name (paramExp rec).
Proof. unfold paramExp. holds_auto. Qed.
Hint Resolve holds_paramExp : holds.

Lemma holds_sglQuoteLines bs : holds name (sglQuoteLines bs).
Proof. induction bs; simpl; holds_auto. Qed.
Hint Resolve holds_sglQuoteLines : holds.

Lemma holds_extGlobLoop rem : forall start lparens, holds name (extGlobLoop rem start lparens).
Proof. induction rem; intros start lparens; simpl; holds_auto. Qed.
Hint Resolve holds_extGlobLoop : holds.

Lemma holds_wordPart_body : holds name (wordPart_body rec).
Proof. unfold wordPart_body. holds_auto. Qed.
Hint Resolve holds_wordPart_body : holds.

Lemma holds_arithmExprRest left level compact tern : holds name (arithmExprRest rec left level compact tern).
Proof. unfold arithmExprRest. holds_auto. Qed.
Hint Resolve holds_arithmExprRest : holds.

Lemma holds_arithmExpr_body ftok fpos level compact tern : holds name (arithmExpr_body rec ftok fpos level compact tern).
Proof. unfold arithmExpr_body. holds_auto. Qed.
Hint Resolve holds_arithmExpr_body : holds.

Lemma holds_arithmExprBase_body ftok fpos compact : holds name (arithmExprBase_body rec ftok fpos compact).
Proof. unfold arithmExprBase_body. holds_auto. Qed.
Hint Resolve holds_arithmExprBase_body : holds.

Lemma holds_validIdent : holds name (validIdent).
Proof. unfold validIdent. holds_auto. Qed.
Hint Resolve holds_validIdent : holds.

Lemma holds_getAssign : holds name (getAssign rec).
Proof. unfold getAssign. holds_auto. Qed.
Hint Resolve holds_getAssign : holds.

Lemma holds_doRedirect s : holds name (doRedirect rec s).
Proof. unfold doRedirect. holds_auto. Qed.
Hint Resolve holds_doRedirect : holds.

Lemma holds_callExpr s w : holds name (callExpr rec s w).
Proof. unfold callExpr. holds_auto. Qed.
Hint Resolve holds_callExpr : holds.

Lemma holds_funcDecl nm ps : holds name (funcDecl rec nm ps).
Proof. unfold funcDecl. holds_auto. Qed.
Hint Resolve holds_funcDecl : holds.

Lemma holds_subshell : holds name (subshell rec).
Proof. unfold subshell. holds_auto. Qed.
Hint Resolve holds_subshell : holds.

Lemma holds_arithmExpCmd : holds name (arithmExpCmd rec).
Proof. unfold arithmExpCmd. holds_auto. Qed.
Hint Resolve holds_arithmExpCmd : holds.

Lemma holds_block : holds name (block rec).
Proof. unfold block. holds_auto. Qed.
Hint Resolve holds_block : holds.

Lemma holds_ifClause : holds name (ifClause rec).
Proof. unfold ifClause. holds_auto. Qed.
Hint Resolve holds_ifClause : holds.

Lemma holds_whileClause : holds name (whileClause rec).
Proof. unfold whileClause. holds_auto. Qed.
Hint Resolve holds_whileClause : holds.

Lemma holds_untilClause : holds name (untilClause rec).
Proof. unfold untilClause. holds_auto. Qed.
Hint Resolve holds_untilClause : holds.

Lemma holds_loop_ forPos : holds name (loop_ rec forPos).
Proof. unfold loop_. holds_auto. Qed.
Hint Resolve holds_loop_ : holds.

Lemma holds_forClause : holds name (forClause rec).
Proof. unfold forClause. holds_auto. Qed.
Hint Resolve holds_forClause : holds.

Lemma holds_patLists : holds name (patLists rec).
Proof. unfold patLists. holds_auto. Qed.
Hint Resolve holds_patLists : holds.

Lemma holds_caseClause : holds name (caseClause rec).
Proof. unfold caseClause. holds_auto. Qed.
Hint Resolve holds_caseClause : holds.

Lemma holds_testExprBase ftok fpos : holds name (testExprBase rec ftok fpos).
Proof. unfold testExprBase. holds_auto. Qed.
Hint Resolve holds_testExprBase : holds.

Lemma holds_testExpr_body ftok fpos level : holds name (testExpr_body rec ftok fpos level).
Proof. unfold testExpr_body. holds_auto. Qed.
Hint Resolve holds_testExpr_body : holds.

Lemma holds_testClause : holds name (testClause rec).
Proof. unfold testClause. holds_auto. Qed.
Hint Resolve holds_testClause : holds.

Lemma holds_declClause : holds name (declClause rec).
Proof. unfold declClause. holds_auto. Qed.
Hint Resolve holds_declClause : holds.

Lemma holds_evalClause : holds name (evalClause rec).
Proof. unfold evalClause. holds_auto. Qed.
Hint Resolve holds_evalClause : holds.

Lemma holds_coprocClause : holds name (coprocClause rec).
Proof. unfold coprocClause. holds_auto. Qed.
Hint Resolve holds_coprocClause : holds.

Lemma holds_letClause : holds name (letClause rec).
Proof. unfold letClause. holds_auto. Qed.
Hint Resolve holds_letClause : holds.

Lemma holds_bashFuncDecl : holds name (bashFuncDecl rec).
Proof. unfold bashFuncDecl. holds_auto. Qed.
Hint Resolve holds_bashFuncDecl : holds.

Lemma holds_gotStmtPipe_body s : holds name (gotStmtPipe_body rec s).
Proof. unfold gotStmtPipe_body. holds_auto. Qed.
Hint Resolve holds_gotStmtPipe_body : holds.

Lemma holds_getStmt_body readEnd : holds name (getStmt_body rec readEnd).
Proof. unfold getStmt_body. holds_auto. Qed.
Hint Resolve holds_getStmt_body : holds.

Lemma holds_loop_body (S R : Type) (step : S -> M (S + R)) :
  (forall s, holds name (step s)) -> forall s, holds name (loop_body rec step s).
Proof. intros Hs s. unfold loop_body. holds_auto. Qed.
End HoldsParser.

Lemma recHolds_stuck name : recHolds name stuck.
Proof. constructor; intros; apply holds_outOfFuel. Qed.

Lemma recHolds_fns_at name fuel : recHolds name (fns_at fuel).
Proof.
  induction fuel as [|n IH]; [apply recHolds_stuck|].
  simpl. constructor; simpl; intros.
  - apply holds_next_body; assumption.
  - apply holds_doHeredocs_body; assumption.
  - apply holds_stmts_body; assumption.
  - apply holds_getStmt_body; assumption.
  - apply holds_gotStmtPipe_body; assumption.
  - apply holds_wordPart_body; assumption.
  - apply holds_arithmExpr_body; assumption.
  - apply holds_arithmExprBase_body; assumption.
  - apply holds_testExpr_body; assumption.
  - apply holds_loop_body; assumption.
Qed.


Lemma Parse_named (fuel : nat) (srcs name : string) (md : ParseMode)
      (r : parsed) (p : parser) :
  Parse fuel srcs name md = Ok r p -> named name p /\ r = (f p, err p).
Proof.
  intros H. unfold Parse, parse in H.
  binv H as u0 q0 E0. binv H as u1 q1 E1.
  assert (N1 : named name q1).
  { unfold reset in E0. prims_in E0. injection E0 as _ <-.
    prims_in E1. injection E1 as _ <-. split; simpl.
    - eexists. split; [reflexivity|]. split; [reflexivity|]. eexists. reflexivity.
    - discriminate. }
  pose proof (recHolds_fns_at name fuel) as K.
  match type of H with
  | bind ?a (fun _ => bind ?b (fun _ => bind ?c (fun _ => bind ?d (fun sts => bind (@?e sts) (fun _ => bind ?g (fun e0 => bind (@?h e0) (fun _ => ?k))))))) _ = _ =>
      assert (Hm : holds name
                (bind a (fun _ => bind b (fun _ => bind c (fun _ => bind d
                (fun sts => bind (e sts) (fun _ => bind g (fun e0 => h e0))))))))
  end.
  { holds_auto. }
  binv H as u2 q2 E2. binv H as u3 q3 E3. binv H as u4 q4 E4.
  binv H as sts q5 E5. binv H as u6 q6 E6. binv H as e0 q7 E7.
  binv H as u8 q8 E8. prims_in H. injection H as <- <-.
  split; [|reflexivity].
  refine (Hm q1 u8 q8 N1 _).
  unfold bind. rewrite E2, E3, E4, E5, E6, E7. exact E8.
Qed.

(** X14. An error [Parse] returns carries the name [Parse] was
    given, in every run that returns. *)
Theorem Parse_error_named (fuel : nat) (srcs name : string) (md : ParseMode)
        (fl : option File) (e : ParseError) (p : parser)
        (H : Parse fuel srcs name md = Ok (fl, Some e) p) :
  Filename e = name.
Proof.
  destruct (Parse_named _ _ _ _ H) as [[_ N] R].
  injection R as _ R. exact (N e (eq_sym R)).
Qed.

(** X15. In every run of [Parse] that returns, the line table of
    the file starts with offset 0: no look-ahead rewinds it past its
    first entry. *)
Theorem Parse_line_table (fuel : nat) (srcs name : string) (md : ParseMode)
        (r : parsed) (p : parser)
        (H : Parse fuel srcs name md = Ok r p) :
  exists fl ls, fst r = Some fl /\ Lines fl = 0 :: ls.
Proof.
  destruct (Parse_named _ _ _ _ H) as [[(fl & F & _ & ls & L) _] R].
  subst r. exists fl, ls. simpl. auto.
Qed.

Lemma unquotedWordBytes_quoted_witness :
  unquotedWordBytes (Some (MkWord [SglQuoted 1 false "EOF"])) newParser
  = Ok ("EOF", true) newParser /\
  true = existsb quotes [SglQuoted 1 false "EOF"].
Proof.
  split; [reflexivity|].
  exact (proj2 (@unquotedWordBytes_quoted (MkWord [SglQuoted 1 false "EOF"])
                  newParser newParser "EOF" true eq_refl)).
Defined.

(** ** The queue of heredocs is a slice *)

Lemma nth_error_writeAt (A : Type) (l : list A) (i : nat) (v : A) :
  (i <= List.length l)%nat -> nth_error (writeAt l i v) i = Some v.
Proof.
  intros H. unfold writeAt.
  rewrite nth_error_app2; rewrite length_firstn, Nat.min_l by exact H;
    [|apply le_n].
  rewrite Nat.sub_diag. reflexivity.
Qed.

(** X16. What [doHeredocs] sets up with [hdocs := p.heredocs[lo:]]
    and [p.heredocs = p.heredocs[:lo]]: while the backing array has
    room, the next [append] to the cut queue writes over [hdocs[0]],
    the first heredoc still to be read. *)
Theorem truncated_append_overwrites (p : parser) (r : RedirPtr) (a : hdArray)
        (lo : Z)
        (Ha : nth_error (arrays p) (sarr (heredocs p)) = Some a)
        (Hlo : 0 <= lo < slen (heredocs p))
        (Hcap : slen (heredocs p) <= acap a)
        (Hel : slen (heredocs p) <= Z.of_nat (List.length (elems a))) :
  exists p',
    (setHeredocs (mkSlice (sarr (heredocs p)) lo);; appendHeredoc r) p = Ok tt p' /\
    heredocs p' = mkSlice (sarr (heredocs p)) (lo + 1) /\
    readHdocs (sarr (heredocs p)) lo 0 p' = Ok r p'.
Proof.
  unfold appendHeredoc.
  cbv beta iota zeta delta [bind get modify setHeredocs setArrays]. simpl.
  rewrite Ha. simpl.
  replace (lo <? acap a) with true by (symmetry; apply Z.ltb_lt; lia).
  eexists. split; [reflexivity|]. split; [reflexivity|].
  unfold readHdocs. cbv beta iota zeta delta [bind get]. simpl.
  rewrite nth_error_writeAt.
  - simpl. rewrite Z.add_0_r. rewrite nth_error_writeAt; [reflexivity|]. lia.
  - apply Nat.lt_le_incl. apply nth_error_Some. rewrite Ha. discriminate.
Qed.

Lemma truncated_append_overwrites_witness :
  exists p',
    (setHeredocs (mkSlice (sarr (heredocs twoPending)) 1);; appendHeredoc 7%nat)
      twoPending = Ok tt p' /\
    readHdocs (sarr (heredocs twoPending)) 1 0 twoPending = Ok 1%nat twoPending /\
    readHdocs (sarr (heredocs twoPending)) 1 0 p' = Ok 7%nat p'.
Proof.
  assert (A1 : nth_error (arrays twoPending) (sarr (heredocs twoPending))
               = Some (mkArray 2 [0; 1]%nat)) by reflexivity.
  assert (A2 : 0 <= 1 < slen (heredocs twoPending))
    by (vm_compute; split; [discriminate | reflexivity]).
  assert (A3 : slen (heredocs twoPending) <= acap (mkArray 2 [0; 1]%nat))
    by (vm_compute; discriminate).
  assert (A4 : slen (heredocs twoPending)
               <= Z.of_nat (List.length (elems (mkArray 2 [0; 1]%nat))))
    by (vm_compute; discriminate).
  destruct (@truncated_append_overwrites twoPending 7%nat _ 1 A1 A2 A3 A4)
    as (p' & H1 & _ & H3).
  exists p'. split; [exact H1|]. split; [reflexivity | exact H3].
Defined.

(** ** Where [stmts] stops *)

Section QKeeps.
Variable Q : quoteState.

Lemma qkeeps_ret (A : Type) (a : A) : qkeeps Q (ret a).
Proof. intros p a' p' H E. injection E as _ <-. exact H. Qed.

Lemma qkeeps_bind (A B : Type) (m : M A) (k : A -> M B) :
  qkeeps Q m -> (forall a, qkeeps Q (k a)) -> qkeeps Q (bind m k).
Proof.
  intros Hm Hk p b p' H E. unfold bind in E.
  destruct (m p) as [a p1| |] eqn:Em; try discriminate.
  exact (Hk a p1 b p' (Hm p a p1 H Em) E).
Qed.

Lemma qkeeps_panic (A : Type) : qkeeps Q (@panic A).
Proof. intros p a p' _ E. discriminate. Qed.

Lemma qkeeps_outOfFuel (A : Type) : qkeeps Q (@outOfFuel A).
Proof. intros p a p' _ E. discriminate. Qed.

Lemma qkeeps_get : qkeeps Q get.
Proof. intros p a p' H E. injection E as _ <-. exact H. Qed.

Lemma qkeeps_gets (A : Type) (g : parser -> A) : qkeeps Q (gets g).
Proof. intros p a p' H E. injection E as _ <-. exact H. Qed.

Lemma qkeeps_deref (A : Type) (o : option A) : qkeeps Q (deref o).
Proof. destruct o; [apply qkeeps_ret | apply qkeeps_panic]. Qed.

Lemma qkeeps_modify (h : parser -> parser) :
  (forall p, quote (h p) = quote p) -> qkeeps Q (modify h).
Proof. intros Hh p a p' H E. injection E as _ <-. rewrite Hh. exact H. Qed.

Lemma qkeeps_modFile (h : File -> File) : qkeeps Q (modFile h).
Proof.
  intros p a p' H E. apply modFile_Ok in E. destruct E as (fl & _ & ->).
  exact H.
Qed.

Lemma qkeeps_when (b : bool) (m : M unit) : qkeeps Q m -> qkeeps Q (when b m).
Proof. intros H. destruct b; [exact H | apply qkeeps_ret]. Qed.
End QKeeps.

Create HintDb qkeeps.

#[local] Hint Resolve qkeeps_ret qkeeps_panic qkeeps_outOfFuel qkeeps_get
  qkeeps_gets qkeeps_deref qkeeps_when qkeeps_modFile : qkeeps.

Ltac qkeeps_setter :=
  unfold setSrc, setMode, setSpaced, setNewLine, setErr, setTok, setVal,
    setPos, setNpos, setAsPos, setBuriedHdocs, setHeredocs,
    setHdocStop, setRedirs, setArrays, setErrLog;
  apply qkeeps_modify; intros; reflexivity.

Ltac qkeeps_step :=
  match goal with
  | |- qkeeps _ (bind _ _) => apply qkeeps_bind; [| intros ?]
  | |- qkeeps _ (when _ _) => apply qkeeps_when
  | |- qkeeps _ (if ?b then _ else _) => destruct b
  | |- qkeeps _ (match ?x with _ => _ end) => destruct x
  | |- qkeeps _ _ => solve [eauto 3 with qkeeps]
  | |- qkeeps _ _ => qkeeps_setter
  end.

Ltac qkeeps_auto := cbv beta zeta; repeat (qkeeps_step; cbv beta zeta).

Section QuoteLexer.
Variable Q : quoteState.
Variable rec : fns.
Hypothesis Hnext : qkeeps Q (f_next rec).
Hypothesis Hhdocs : qkeeps Q (f_doHeredocs rec).

Lemma qkeeps_addNpos k : qkeeps Q (addNpos k).
Proof. unfold addNpos. qkeeps_auto. Qed.

Lemma qkeeps_appendLine off : qkeeps Q (appendLine off).
Proof. unfold appendLine. qkeeps_auto. Qed.

Hint Resolve qkeeps_addNpos qkeeps_appendLine : qkeeps.

Lemma qkeeps_tokN k t : qkeeps Q (tokN k t).
Proof. unfold tokN. qkeeps_auto. Qed.
Hint Resolve qkeeps_tokN : qkeeps.

Lemma qkeeps_regToken b : qkeeps Q (regToken b).
Proof. unfold regToken. qkeeps_auto. Qed.

Lemma qkeeps_dqToken b : qkeeps Q (dqToken b).
Proof. unfold dqToken. qkeeps_auto. Qed.

Lemma qkeeps_paramToken b : qkeeps Q (paramToken b).
Proof. unfold paramToken. qkeeps_auto. Qed.

Lemma qkeeps_arithmToken b : qkeeps Q (arithmToken b).
Proof. unfold arithmToken. qkeeps_auto. Qed.

Lemma qkeeps_readUntil b : qkeeps Q (readUntil b).
Proof. unfold readUntil. qkeeps_auto. Qed.

Lemma qkeeps_finishLit t bs : qkeeps Q (finishLit t bs).
Proof. unfold finishLit. qkeeps_auto. Qed.
Hint Resolve qkeeps_regToken qkeeps_dqToken qkeeps_paramToken qkeeps_arithmToken
  qkeeps_readUntil qkeeps_finishLit : qkeeps.

Lemma qkeeps_escaped keep bs k :
  (forall s, qkeeps Q (k s)) -> qkeeps Q (escaped keep bs k).
Proof. intros Hk. unfold escaped. qkeeps_auto. Qed.
Hint Resolve qkeeps_escaped : qkeeps.

Lemma qkeeps_advanceLitNoneLoop n : forall bs, qkeeps Q (advanceLitNoneLoop n bs).
Proof. induction n; intros bs; simpl; qkeeps_auto. Qed.

Lemma qkeeps_advanceLitOtherLoop n : forall q bs,
    qkeeps Q (advanceLitOtherLoop n q bs).
Proof. induction n; intros q bs; simpl; qkeeps_auto. Qed.

Lemma qkeeps_advanceLitDquoteLoop n : forall bs,
    qkeeps Q (advanceLitDquoteLoop n bs).
Proof. induction n; intros bs; simpl; qkeeps_auto. Qed.

Lemma qkeeps_advanceLitHdocLoop n : forall bs,
    qkeeps Q (advanceLitHdocLoop n bs).
Proof. induction n; intros bs; simpl; qkeeps_auto. Qed.
Hint Resolve qkeeps_advanceLitNoneLoop qkeeps_advanceLitOtherLoop
  qkeeps_advanceLitDquoteLoop qkeeps_advanceLitHdocLoop : qkeeps.

Lemma qkeeps_advanceLitNone : qkeeps Q advanceLitNone.
Proof. unfold advanceLitNone. qkeeps_auto. Qed.

Lemma qkeeps_advanceLitOther q : qkeeps Q (advanceLitOther q).
Proof. unfold advanceLitOther. qkeeps_auto. Qed.

Lemma qkeeps_advanceLitDquote : qkeeps Q advanceLitDquote.
Proof. unfold advanceLitDquote. qkeeps_auto. Qed.

Lemma qkeeps_advanceLitHdoc : qkeeps Q advanceLitHdoc.
Proof. unfold advanceLitHdoc. qkeeps_auto. Qed.

Lemma qkeeps_advanceLitRe : qkeeps Q advanceLitRe.
Proof. unfold advanceLitRe. qkeeps_auto. Qed.
Hint Resolve qkeeps_advanceLitNone qkeeps_advanceLitOther qkeeps_advanceLitDquote
  qkeeps_advanceLitHdoc qkeeps_advanceLitRe : qkeeps.

Lemma qkeeps_skipSpace n : qkeeps Q (skipSpace rec n).
Proof. induction n; simpl; qkeeps_auto. Qed.

Lemma qkeeps_addComment c : qkeeps Q (addComment c).
Proof. unfold addComment. qkeeps_auto. Qed.
Hint Resolve qkeeps_skipSpace qkeeps_addComment : qkeeps.

Lemma qkeeps_next_body : qkeeps Q (next_body rec).
Proof. unfold next_body. qkeeps_auto. Qed.

Lemma qkeeps_hdocLitLoop n : forall e, qkeeps Q (hdocLitLoop n e).
Proof. induction n; intros e; simpl; qkeeps_auto. Qed.
Hint Resolve qkeeps_hdocLitLoop : qkeeps.

Lemma qkeeps_hdocLitWord : qkeeps Q hdocLitWord.
Proof. unfold hdocLitWord. qkeeps_auto. Qed.
End QuoteLexer.


Lemma qkeeps_doHeredocs_body (Q : quoteState) (rec : fns) :
  qkeeps Q (doHeredocs_body rec).
Proof.
  intros p a p' HQ E. unfold doHeredocs_body in E.
  binv E as u0 q0 E0. prims_in E0. injection E0 as _ <-.
  binv E as p1 q1 E1. unfold get in E1. injection E1 as <- <-.
  simpl in E.
  match type of E with
  | (if ?c then _ else _) _ = _ => destruct c; [discriminate|]
  end.
  binv E as u2 q2 E2. binv E as u3 q3 E3.
  prims_in E. injection E as _ <-. exact HQ.
Qed.

Lemma quote_kept (Q : quoteState) (fuel : nat) :
  qkeeps Q (f_next (fns_at fuel)) /\ qkeeps Q (f_doHeredocs (fns_at fuel)).
Proof.
  induction fuel as [|n [IH1 IH2]].
  - split; apply qkeeps_outOfFuel.
  - split; simpl.
    + exact (@qkeeps_next_body Q (fns_at n) IH1 IH2).
    + apply qkeeps_doHeredocs_body.
Qed.

Lemma stmts_ends (fuel : nat) (stops : list string) (p p' : parser)
      (sts : list Stmt) :
  f_stmts (fns_at fuel) stops p = Ok sts p' ->
  stmtsEnds stops (quote p) p' = true.
Proof.
  intros H. destruct fuel as [|n]; [discriminate|].
  simpl in H. unfold stmts_body in H.
  binv H as q0 q E0. prims_in E0. injection E0 as <- <-.
  match type of H with
  | @f_loop _ _ _ ?step _ _ = _ =>
      pose proof (@loop_inv n _ _ step (fun _ _ => True)
                    (fun _ q' => stmtsEnds stops (quote p) q' = true)) as L
  end.
  cbv beta in L.
  assert (G := fun Hs => L Hs ([], true) p I).
  clear L. rewrite H in G. apply G. clear G H.
  intros [sts1 gotEnd] q1 _.
  match goal with |- match ?m with _ => _ end => destruct m as [[st|r] q'| |] eqn:E end;
    try exact I.
  cbv beta iota zeta in E.
  binv E as p0 q0 E0. unfold get in E0. injection E0 as <- <-.
  unfold stmtsEnds.
  destruct (tokEq (tok q1) _EOF) eqn:T0.
  { prims_in E. inversion E; subst. rewrite T0. reflexivity. }
  destruct (tokEq (tok q1) _LitWord && strIn (val q1) stops) eqn:T1.
  { prims_in E. inversion E; subst. rewrite T1.
    rewrite orb_true_r. reflexivity. }
  destruct (tokEq (tok q1) rightParen && (quote p =? subCmd)) eqn:T2.
  { prims_in E. inversion E; subst. rewrite T2.
    rewrite orb_true_r. reflexivity. }
  destruct (tokEq (tok q1) bckQuote && (quote p =? subCmdBckquo)) eqn:T3.
  { prims_in E. inversion E; subst. rewrite T3.
    rewrite orb_true_r. reflexivity. }
  destruct (tokIn (tok q1) [dblSemicolon; semiFall; dblSemiFall]
            && (quote p =? switchCase)) eqn:T4.
  { prims_in E. inversion E; subst. rewrite T4.
    rewrite orb_true_r. reflexivity. }
  binv E as u1 q2 E1. binv E as nlb q3 E2. binv E as u3 q4 E3.
  binv E as t' q5 E4. prims_in E4. injection E4 as <- <-.
  destruct (tokEq (tok q4) _EOF) eqn:T5.
  { prims_in E. inversion E; subst. rewrite T5. reflexivity. }
  chase E; prims_in E; inversion E.
Qed.

(** X17. [stmts] returns only at the end of the input, at one of
    its stop words, or at the token that closes the construct it was
    called in: [)] in a command substitution or subshell, a backquote
    in a backquoted one, [;;], [;&] or [;;&] in a case clause. *)
Theorem stmts_stops (fuel : nat) (stops : list string) (p p' : parser)
        (sts : list Stmt)
        (H : f_stmts (fns_at fuel) stops p = Ok sts p') :
  tok p' = _EOF
  \/ (tok p' = _LitWord /\ In (val p') stops)
  \/ (tok p' = rightParen /\ quote p = subCmd)
  \/ (tok p' = bckQuote /\ quote p = subCmdBckquo)
  \/ (In (tok p') [dblSemicolon; semiFall; dblSemiFall]
      /\ quote p = switchCase).
Proof.
  pose proof (stmts_ends _ _ _ H) as T. unfold stmtsEnds in T.
  repeat (apply orb_prop in T; destruct T as [T|T]).
  - left. apply tokEq_true. exact T.
  - right. left. apply andb_prop in T. destruct T as [T1 T2].
    split; [apply tokEq_true; exact T1|].
    unfold strIn in T2. apply existsb_exists in T2.
    destruct T2 as (x & Hx & Ex). apply String.eqb_eq in Ex. subst x. exact Hx.
  - right. right. left. apply andb_prop in T. destruct T as [T1 T2].
    split; [apply tokEq_true; exact T1 | apply Z.eqb_eq; exact T2].
  - right. right. right. left. apply andb_prop in T. destruct T as [T1 T2].
    split; [apply tokEq_true; exact T1 | apply Z.eqb_eq; exact T2].
  - right. right. right. right. apply andb_prop in T. destruct T as [T1 T2].
    split; [|apply Z.eqb_eq; exact T2].
    unfold tokIn in T1. apply existsb_exists in T1.
    destruct T1 as (x & Hx & Ex). apply tokEq_true in Ex. subst x. exact Hx.
Qed.

Lemma stmts_stops_witness :
  let p := startOf 8 "a; b" 0 in
  exists sts p', f_stmts (fns_at 8) [] p = Ok sts p' /\ tok p' = _EOF.
Proof.
  intros p.
  destruct (f_stmts (fns_at 8) [] p) as [sts p'| |] eqn:E;
    try (vm_compute in E; discriminate).
  exists sts, p'. split; [reflexivity|].
  destruct (stmts_stops _ _ _ E) as [H|[[_ H]|[[_ H]|[[_ H]|[_ H]]]]];
    [exact H | destruct H | | | ]; vm_compute in H; discriminate.
Defined.

(** The steps of a run of [Parse] that returned, from the struct
    [Parse] starts with. *)
Lemma Parse_trace (fuel : nat) (srcs name : string) (md : ParseMode)
      (r : parsed) (p : parser) :
  Parse fuel srcs name md = Ok r p ->
  exists fl p1 p2 p3,
    fst r = Some fl /\ Name fl = name /\ snd r = err p /\
    f_next (fns_at fuel) (initOf srcs name md) = Ok tt p1 /\
    f_stmts (fns_at fuel) [] p1 = Ok (Stmts fl) p2 /\
    mode p3 = mode p2 /\ err p3 = err p2 /\ errLog p3 = errLog p2 /\
    when (isNone (err p3)) (f_doHeredocs (fns_at fuel)) p3 = Ok tt p.
Proof.
  intros H. unfold Parse, parse in H.
  binv H as u0 q0 E0. binv H as u1 q1 E1. binv H as u2 q2 E2.
  binv H as u3 q3 E3. binv H as u4 q4 E4. binv H as sts q5 E5.
  binv H as u6 q6 E6. binv H as e0 q7 E7. binv H as u8 q8 E8.
  binv H as p9 q9 E9. prims_in H. injection H as <- <-.
  unfold get in E9. injection E9 as <- <-.
  prims_in E7. injection E7 as <- <-.
  assert (Q3 : q3 = initOf srcs name md).
  { unfold reset in E0. prims_in E0. injection E0 as _ <-.
    prims_in E1. injection E1 as _ <-.
    prims_in E2. injection E2 as _ <-.
    prims_in E3. injection E3 as _ <-. vm_compute. reflexivity. }
  assert (F3 : fileHolds name [] q3).
  { rewrite Q3. exists (mkFile name [] [] [0]). repeat split; reflexivity. }
  pose proof (recKeeps_fns_at name [] fuel) as K.
  assert (F4 : fileHolds name [] q4)
    by (eapply (k_next K); [exact F3 | exact E4]).
  assert (F5 : fileHolds name [] q5)
    by (eapply (k_stmts K); [exact F4 | exact E5]).
  assert (F6 : fileHolds name sts q6 /\ mode q6 = mode q5 /\
               err q6 = err q5 /\ errLog q6 = errLog q5).
  { destruct F5 as (fl & Hf & Hn & _).
    apply modFile_Ok in E6. destruct E6 as (fl' & Hf' & ->).
    assert (fl' = fl) by congruence. subst fl'.
    split; [|repeat split; reflexivity].
    eexists. simpl. split; [reflexivity|]. split; [exact Hn | reflexivity]. }
  destruct F6 as (F6 & M6 & R6 & L6).
  assert (F8 : fileHolds name sts q8).
  { destruct (isNone (err q6)); simpl in E8.
    - eapply (k_doHeredocs (recKeeps_fns_at name sts fuel)); [exact F6 | exact E8].
    - prims_in E8. injection E8 as _ <-. exact F6. }
  destruct F8 as (fl & Hf & Hn & Hs).
  destruct u4, u8. exists fl, q4, q5, q6. cbn [fst snd]. rewrite Hs, <- Q3.
  repeat split; assumption.
Qed.

(** X24. Whenever [Parse] returns -- with or without an error -- the
    [*File] it returns is not nil: it is the file the call allocated,
    it carries the name that was passed in, and its statement list is
    the one that [p.stmts()] returned in this very run, started from
    the struct [Parse] had reset and after the first [p.next()]; so
    on an error it holds the statements parsed before the error. *)
Theorem Parse_returns_file (fuel : nat) (srcs name : string) (md : ParseMode)
        (r : parsed) (p : parser)
        (H : Parse fuel srcs name md = Ok r p) :
  exists fl p1 p2,
    fst r = Some fl /\ Name fl = name /\
    f_next (fns_at fuel) (initOf srcs name md) = Ok tt p1 /\
    f_stmts (fns_at fuel) [] p1 = Ok (Stmts fl) p2.
Proof.
  destruct (Parse_trace _ _ _ _ H)
    as (fl & p1 & p2 & p3 & F & Hn & _ & N & St & _).
  exists fl, p1, p2. auto.
Qed.

(** The input [foo; )] fails at the parenthesis, and the call returns
    both the error and the file with the statement [foo]. *)
Lemma Parse_returns_file_witness :
  let run := Parse 64 "foo; )" "x.sh" 0 in
  run = Ok (resultOf run) (parserOf run) /\
  errorOf run = Some "x.sh:1:6: ) can only be used to close a subshell" /\
  exists fl p1 p2,
    fst (resultOf run) = Some fl /\ Name fl = "x.sh" /\
    f_next (fns_at 64) (initOf "foo; )" "x.sh" 0) = Ok tt p1 /\
    f_stmts (fns_at 64) [] p1 = Ok (Stmts fl) p2.
Proof.
  intros run.
  assert (E : run = Ok (resultOf run) (parserOf run))
    by (vm_compute; reflexivity).
  split; [exact E|]. split; [vm_compute; reflexivity|].
  exact (@Parse_returns_file 64 "foo; )" "x.sh" 0 _ _ E).
Defined.

(** X18. [Parse] does not stop halfway: in every run that returns,
    the call of [p.stmts()] of this run -- started from the struct
    [Parse] had reset, after the first [p.next()] -- which built the
    statements of the file returned at the token EOF: the end of the
    input or, once an error is stored, the EOF that [errPass] forces,
    and never a token it declined to read. *)
Theorem Parse_stops_at_EOF (fuel : nat) (srcs name : string) (md : ParseMode)
        (r : parsed) (p : parser)
        (H : Parse fuel srcs name md = Ok r p) :
  exists fl p1 p2,
    fst r = Some fl /\
    f_next (fns_at fuel) (initOf srcs name md) = Ok tt p1 /\
    f_stmts (fns_at fuel) [] p1 = Ok (Stmts fl) p2 /\
    tok p2 = _EOF.
Proof.
  destruct (Parse_trace _ _ _ _ H)
    as (fl & p1 & p2 & p3 & F & _ & _ & N & St & _).
  exists fl, p1, p2. repeat split; try assumption.
  assert (Q0 : quote (initOf srcs name md) = noState)
    by (vm_compute; reflexivity).
  pose proof (proj1 (quote_kept noState fuel) _ _ _ Q0 N) as Q1.
  pose proof (@stmts_ends _ _ _ _ _ St) as T. rewrite Q1 in T.
  unfold stmtsEnds in T. simpl in T.
  rewrite !andb_false_r, !orb_false_r in T.
  apply tokEq_true. exact T.
Qed.

Lemma Parse_stops_at_EOF_witness :
  let run := Parse 64 "foo; )" "x.sh" 0 in
  run = Ok (resultOf run) (parserOf run) /\
  exists fl p1 p2,
    fst (resultOf run) = Some fl /\
    f_next (fns_at 64) (initOf "foo; )" "x.sh" 0) = Ok tt p1 /\
    f_stmts (fns_at 64) [] p1 = Ok (Stmts fl) p2 /\
    tok p2 = _EOF.
Proof.
  intros run.
  assert (E : run = Ok (resultOf run) (parserOf run))
    by (vm_compute; reflexivity).
  split; [exact E|].
  exact (@Parse_stops_at_EOF 64 "foo; )" "x.sh" 0 _ _ E).
Defined.

Lemma Parse_error_named_witness :
  exists fl e p, Parse 64 "foo; )" "x.sh" 0 = Ok (fl, Some e) p /\
                 Filename e = "x.sh".
Proof.
  destruct (Parse 64 "foo; )" "x.sh" 0) as [[fl [e|]] p| |] eqn:E;
    try (vm_compute in E; discriminate).
  exists fl, e, p. split; [reflexivity|].
  exact (@Parse_error_named 64 "foo; )" "x.sh" 0 fl e p E).
Defined.

Lemma Parse_line_table_witness :
  exists r p, Parse 64 (lines ["a"; "b"; ""]) "" 0 = Ok r p /\
              exists fl ls, fst r = Some fl /\ Lines fl = 0 :: ls.
Proof.
  destruct (Parse 64 (lines ["a"; "b"; ""]) "" 0) as [r p| |] eqn:E;
    try (vm_compute in E; discriminate).
  exists r, p. split; [reflexivity|].
  exact (@Parse_line_table 64 _ "" 0 r p E).
Defined.

(** ** Errors of the helpers *)

Lemma deref_Ok (A : Type) (o : option A) (p q : parser) (a : A) :
  deref o p = Ok a q -> o = Some a /\ q = p.
Proof.
  destruct o as [x|]; simpl; [|discriminate].
  intros H. injection H as <- <-. auto.
Qed.

(** X19. [matched], when the token is not the closing one and no
    error is stored: it returns the current position, and stores the
    error "reached <token> without matching <left> with <right>" at
    the position of the opening token it was given, not at the
    current one; the token becomes EOF and the cursor the end of the
    input. *)
Theorem matched_reports (rec : fns) (lpos : Pos) (left right : token)
        (p : parser) (fl : File)
        (Hf : f p = Some fl) (He : err p = None) (Ht : tok p <> right) :
  exists p',
    matched rec lpos left right p = Ok (pos p) p' /\
    err p' = Some (mkParseError (filePosition fl lpos) (Name fl)
                     ("reached " ++ tokString (tok p) ++ " without matching "
                      ++ tokString left ++ " with " ++ tokString right)) /\
    tok p' = _EOF /\ npos p' = srcLen p.
Proof.
  unfold matched, got, matchingErr, posErr, getFile, errPass.
  cbv beta iota zeta delta [bind get gets ret modify when deref setErr setErrLog
                            setNpos setTok].
  destruct (tokEq (tok p) right) eqn:T.
  { apply tokEq_true in T. contradiction. }
  simpl. rewrite Hf. simpl. rewrite He.
  eexists. split; [reflexivity|]. simpl. repeat split.
Qed.

Lemma matched_reports_witness :
  let p := startOf 8 "(a" 0 in
  exists p',
    matched (fns_at 8) 1 leftParen rightParen p = Ok 1 p' /\
    option_map Error (err p')
    = Some "1:1: reached ( without matching ( with )".
Proof.
  intros p.
  destruct (@matched_reports (fns_at 8) 1 leftParen rightParen p
              (mkFile "" [] [] [0]) eq_refl eq_refl)
    as (p' & H1 & H2 & _).
  { vm_compute. discriminate. }
  exists p'. split; [exact H1|]. rewrite H2. reflexivity.
Defined.

(** ** Assignments, expansions and coprocesses *)

(** X20. [getAssign] splits the literal at [asPos]: the name of the
    assignment is [val[:asPos]], a literal that starts at the current
    position and is [asPos] bytes long, and the assignment appends
    exactly when the byte [val[asPos]] is [+]. *)
Theorem getAssign_splits (rec : fns) (p p' : parser) (a : Assign)
        (H : getAssign rec p = Ok a p') :
  exists nm c v,
    sliceZ (val p) 0 (asPos p) = Some nm /\
    byteZ (val p) (asPos p) = Some c /\
    a = MkAssign (isb c "+") (Some (mkLit (pos p) (pos p + asPos p) nm)) v.
Proof.
  unfold getAssign in H.
  binv H as p0 q0 E0. unfold get in E0. injection E0 as <- <-.
  binv H as nm q1 E1. apply deref_Ok in E1. destruct E1 as [S1 ->].
  binv H as c q2 E2. apply deref_Ok in E2. destruct E2 as [S2 ->].
  exists nm, c. rewrite S1, S2.
  chase H; prims_in H; inversion H; subst; eexists; repeat split; reflexivity.
Qed.

Lemma getAssign_splits_witness :
  let p := startOf 8 "ab+=c" 0 in
  exists a p', getAssign (fns_at 8) p = Ok a p' /\
               exists v, a = MkAssign true (Some (mkLit 1 3 "ab")) v.
Proof.
  intros p.
  destruct (getAssign (fns_at 8) p) as [a p'| |] eqn:E;
    try (vm_compute in E; discriminate).
  exists a, p'. split; [reflexivity|].
  destruct (getAssign_splits _ _ E) as (nm & c & v & S1 & S2 & ->).
  vm_compute in S1, S2. injection S1 as <-. injection S2 as <-.
  exists v. reflexivity.
Defined.

Ltac chase_all E :=
  repeat match type of E with
         | bind _ _ _ = Ok _ _ =>
             let a := fresh "a" in let q := fresh "q" in let E' := fresh "E" in
             apply bind_Ok in E; destruct E as (a & q & E' & E);
             try chase_all E'
         | (match ?x with _ => _ end) _ = Ok _ _ => destruct x
         end.

(** X21. Every expansion [paramExp] returns starts at the position
    of its [${], is of the long form, and has at most one of a slice,
    a replacement and an expansion operator. *)
Theorem paramExp_shape (rec : fns) (p p' : parser) (pe : ParamExp)
        (H : paramExp rec p = Ok pe p') :
  paramDollar pe = pos p /\ paramShort pe = false /\ oneOperation pe = true.
Proof.
  unfold paramExp in H.
  binv H as d q0 E0. prims_in E0. injection E0 as <- <-.
  chase_all H; prims_in H; inversion H; subst;
    repeat match goal with
           | E : ret _ _ = Ok _ _ |- _ => unfold ret in E; inversion E; subst; clear E
           end;
    repeat split.
Qed.

Lemma paramExp_shape_witness :
  let p := startOf 8 "${a:-b}" 0 in
  exists pe p', paramExp (fns_at 8) p = Ok pe p' /\ oneOperation pe = true.
Proof.
  intros p.
  destruct (paramExp (fns_at 8) p) as [pe p'| |] eqn:E;
    try (vm_compute in E; discriminate).
  exists pe, p'. split; [reflexivity|].
  exact (proj2 (proj2 (paramExp_shape _ _ E))).
Defined.

(** X22. A coproc clause keeps a name only with a statement that is
    not a simple call: when the command after the name is a call, the
    name is its first word, and when nothing follows, the name is the
    command. *)
Theorem coproc_name_kept (rec : fns) (p p' : parser) (c : Command)
        (H : coprocClause rec p = Ok c p') (Hn : coprocNamed c = true) :
  exists s, coprocStmt c = Some s /\ isCall s = false.
Proof.
  unfold coprocClause in H.
  binv H as ps q0 E0. binv H as u1 q1 E1. binv H as p2 q2 E2.
  destruct (isBashCompoundCommand (tok p2) (val p2)).
  { chase H; prims_in H; inversion H; subst; discriminate. }
  binv H as u3 q3 E3. binv H as nm q4 E4. binv H as r q5 E5.
  destruct r as [[s|] b]; destruct nm as [n|].
  - unfold isCall.
    destruct (stmtCmd s) as [cmd|] eqn:C; [destruct cmd|];
      prims_in H; inversion H; subst; try discriminate;
      (exists s; split; [reflexivity|]; unfold isCall; rewrite C; reflexivity).
  - prims_in H. inversion H; subst. discriminate.
  - prims_in H. inversion H; subst. discriminate.
  - chase H; prims_in H; inversion H; subst; discriminate.
Qed.

Lemma coproc_name_kept_witness :
  let p := startOf 8 "coproc a { b; }" 0 in
  exists c p', coprocClause (fns_at 16) p = Ok c p' /\
               coprocNamed c = true /\
               exists s, coprocStmt c = Some s /\ isCall s = false.
Proof.
  intros p.
  destruct (coprocClause (fns_at 16) p) as [c p'| |] eqn:E;
    try (vm_compute in E; discriminate).
  assert (N : coprocNamed c = true).
  { vm_compute in E. injection E as <- _. reflexivity. }
  exists c, p'. split; [reflexivity|]. split; [exact N|].
  exact (coproc_name_kept _ _ E N).
Defined.

(** ** The POSIX mode builds no clause of the extended dialect *)

Lemma cmdHead_posix (v : string) : bashHead (cmdHead false v) = false.
Proof.
  unfold cmdHead. cbn [andb].
  repeat match goal with
         | |- context [String.eqb v ?c] => destruct (String.eqb v c)
         end; reflexivity.
Qed.

Section Good.
Context {A B : Type} {WA : Wf A} {WB : Wf B}.

Lemma goodAt_ret (a : A) (p : parser) : wfb a = true -> goodAt p (ret a).
Proof. intros H I. simpl. auto. Qed.

Lemma goodAt_bind (m : M A) (k : A -> M B) (p : parser) :
  goodAt p m -> (forall a p', wfb a = true -> goodAt p' (k a)) ->
  goodAt p (bind m k).
Proof.
  intros Hm Hk I. unfold bind. specialize (Hm I).
  destruct (m p) as [a p1| |]; simpl in *; auto.
  destruct Hm as [I1 W1]. exact (Hk a p1 W1 I1).
Qed.

Lemma goodAt_bind_get (k : parser -> M B) (p : parser) :
  goodAt p (k p) -> goodAt p (bind get k).
Proof. intros H I. exact (H I). Qed.

Lemma goodAt_bind_gets (g : parser -> A) (k : A -> M B) (p : parser) :
  goodAt p (k (g p)) -> goodAt p (bind (gets g) k).
Proof. intros H I. exact (H I). Qed.

Lemma goodAt_panic (p : parser) : goodAt p (@panic A).
Proof. intros I. exact Logic.I. Qed.

Lemma goodAt_outOfFuel (p : parser) : goodAt p (@outOfFuel A).
Proof. intros I. exact Logic.I. Qed.

Lemma goodAt_deref (o : option A) (p : parser) :
  (forall a, o = Some a -> wfb a = true) -> goodAt p (deref o).
Proof.
  intros H. destruct o as [a|]; [|apply goodAt_panic].
  apply goodAt_ret. apply H. reflexivity.
Qed.
End Good.

Lemma goodAt_modify (h : parser -> parser) (p : parser) :
  (pxInv p -> pxInv (h p)) -> goodAt p (modify h).
Proof. intros H I. simpl. split; [exact (H I) | reflexivity]. Qed.

Lemma goodAt_when (b : bool) (m : M unit) (p : parser) :
  goodAt p m -> goodAt p (when b m).
Proof. intros H. destruct b; [exact H|]. intros I. simpl. auto. Qed.

Lemma goodAt_modFile (h : File -> File) (p : parser) : goodAt p (modFile h).
Proof.
  intros I. unfold modFile, bind, gets, deref, modify.
  destruct (f p); simpl; auto.
Qed.

Create HintDb good.

Ltac wf_norm_hyps :=
  cbv beta delta [wfb Wf_plain Wf_option Wf_list Wf_prod Wf_sum Wf_Word
                  Wf_WordPart Wf_ParamExp Wf_Index Wf_Slice Wf_Replace
                  Wf_Expansion Wf_ArithmExpr Wf_Assign Wf_Stmt
                  Wf_Command Wf_Elif Wf_Loop Wf_PatternList] in * |-.

Ltac wf_norm :=
  wf_norm_hyps;
  cbv beta delta [wfb Wf_plain Wf_option Wf_list Wf_prod Wf_sum Wf_Word
                  Wf_WordPart Wf_ParamExp Wf_Index Wf_Slice Wf_Replace
                  Wf_Expansion Wf_ArithmExpr Wf_Assign Wf_Stmt
                  Wf_Command Wf_Elif Wf_Loop Wf_PatternList].

Ltac px_cbn_hyps :=
  cbn [pxWord pxPart pxParam pxIndex pxSlice pxReplace pxExpansion pxArithm
       pxAssign pxStmt pxCommand pxElif pxLoop pxPatternList pxOpt forallb
       andb negb fst snd option_map app] in * |-.

Ltac px_cbn :=
  cbn [pxWord pxPart pxParam pxIndex pxSlice pxReplace pxExpansion pxArithm
       pxAssign pxStmt pxCommand pxElif pxLoop pxPatternList pxOpt forallb
       andb negb fst snd option_map app
       newStmt stmtSetCmd stmtSetSemiPos stmtSetNegated stmtSetBackground
       stmtAddAssign stmtAddRedir stmtCmd stmtAssigns wordParts_] in *.

Ltac wf_hyps :=
  repeat match goal with
         | H : (_ && _) = true |- _ => apply andb_prop in H; destruct H
         | H : true = true |- _ => clear H
         end.

Ltac solve_wf :=
  wf_norm; px_cbn; wf_hyps;
  repeat match goal with s : Stmt |- _ => destruct s end;
  repeat match goal with
         | |- context [option_map _ ?x] => is_var x; destruct x
         | |- context [wordParts_ ?w] => is_var w; destruct w
         end;
  px_cbn; wf_hyps;
  rewrite ?forallb_app; px_cbn;
  repeat match goal with
         | H : ?x = true |- context [?x] => rewrite H
         end;
  px_cbn; try reflexivity;
  repeat match goal with
         | |- context [if ?c then _ else _] => destruct c
         end;
  px_cbn; try reflexivity; auto.

Ltac good_setter :=
  unfold setSrc, setSpaced, setNewLine, setErr, setTok, setVal,
    setPos, setNpos, setQuote, setAsPos, setBuriedHdocs, setHeredocs,
    setHdocStop, setArrays, setErrLog;
  apply goodAt_modify; intros I; exact I.

Ltac good_step :=
  match goal with
  | |- goodAt _ (bind get _) => apply goodAt_bind_get
  | |- goodAt _ (bind (gets _) _) => apply goodAt_bind_gets
  | |- goodAt _ (bind (deref _) _) =>
      apply (@goodAt_bind _ _ (@Wf_plain _));
      [apply goodAt_deref; intros; reflexivity
      | let a := fresh "a" in let q := fresh "q" in
        let W := fresh "W" in intros a q W]
  | |- goodAt _ (bind _ _) =>
      apply goodAt_bind; [| let a := fresh "a" in let q := fresh "q" in
                            let W := fresh "W" in intros a q W]
  | |- goodAt _ (when _ _) => apply goodAt_when
  | |- goodAt _ (ret _) => apply goodAt_ret; solve_wf
  | |- goodAt _ (if ?b then _ else _) => destruct b
  | |- goodAt _ (match ?x with _ => _ end) =>
      first [is_var x; destruct x | destruct x eqn:?]
  | |- goodAt _ (modFile _) => apply goodAt_modFile
  | |- goodAt _ panic => apply goodAt_panic
  | |- goodAt _ outOfFuel => apply goodAt_outOfFuel
  | |- goodAt _ (deref _) => apply goodAt_deref; intros; solve_wf
  | |- goodAt _ (@f_loop _ _ _ _ _) =>
      match goal with
      | H : recGood _ |- _ =>
          eapply (g_loop H);
          [ let s := fresh "s" in let W := fresh "W" in
            let q := fresh "q" in intros s W q
          | solve_wf]
      end
  | |- goodAt _ _ =>
      wf_norm_hyps; px_cbn_hyps; wf_hyps; solve [eauto 3 with good]
  | |- goodAt _ _ => good_setter
  end.

Ltac good_auto :=
  try (let p := fresh "p" in intros p);
  cbv beta zeta; repeat (good_step; cbv beta zeta).

#[local] Hint Resolve g_next g_doHeredocs g_stmts g_getStmt g_gotStmtPipe
  g_wordPart g_arithmExpr g_arithmExprBase g_testExpr : good.

Section GoodLexer.
Variable rec : fns.
Hypothesis Hrec : recGood rec.

Lemma good_addNpos k : good (addNpos k).
Proof. unfold addNpos. good_auto. Qed.

Lemma good_appendLine off : good (appendLine off).
Proof. unfold appendLine. good_auto. Qed.

Hint Resolve good_addNpos good_appendLine : good.

Lemma good_tokN k t : good (tokN k t).
Proof. unfold tokN. good_auto. Qed.
Hint Resolve good_tokN : good.

Lemma good_regToken b : good (regToken b).
Proof. unfold regToken. good_auto. Qed.

Lemma good_dqToken b : good (dqToken b).
Proof. unfold dqToken. good_auto. Qed.

Lemma good_paramToken b : good (paramToken b).
Proof. unfold paramToken. good_auto. Qed.

Lemma good_arithmToken b : good (arithmToken b).
Proof. unfold arithmToken. good_auto. Qed.

Lemma good_readUntil b : good (readUntil b).
Proof. unfold readUntil. good_auto. Qed.

Lemma good_finishLit t bs : good (finishLit t bs).
Proof. unfold finishLit. good_auto. Qed.
Hint Resolve good_regToken good_dqToken good_paramToken good_arithmToken
  good_readUntil good_finishLit : good.

Lemma good_escaped keep bs k :
  (forall s, good (k s)) -> good (escaped keep bs k).
Proof. intros Hk. unfold escaped. good_auto. Qed.
Hint Resolve good_escaped : good.

Lemma good_advanceLitNoneLoop n : forall bs, good (advanceLitNoneLoop n bs).
Proof. induction n; intros bs; simpl; good_auto. Qed.

Lemma good_advanceLitOtherLoop n : forall q bs,
    good (advanceLitOtherLoop n q bs).
Proof. induction n; intros q bs; simpl; good_auto. Qed.

Lemma good_advanceLitDquoteLoop n : forall bs,
    good (advanceLitDquoteLoop n bs).
Proof. induction n; intros bs; simpl; good_auto. Qed.

Lemma good_advanceLitHdocLoop n : forall bs,
    good (advanceLitHdocLoop n bs).
Proof. induction n; intros bs; simpl; good_auto. Qed.
Hint Resolve good_advanceLitNoneLoop good_advanceLitOtherLoop
  good_advanceLitDquoteLoop good_advanceLitHdocLoop : good.

Lemma good_advanceLitNone : good advanceLitNone.
Proof. unfold advanceLitNone. good_auto. Qed.

Lemma good_advanceLitOther q : good (advanceLitOther q).
Proof. unfold advanceLitOther. good_auto. Qed.

Lemma good_advanceLitDquote : good advanceLitDquote.
Proof. unfold advanceLitDquote. good_auto. Qed.

Lemma good_advanceLitHdoc : good advanceLitHdoc.
Proof. unfold advanceLitHdoc. good_auto. Qed.

Lemma good_advanceLitRe : good advanceLitRe.
Proof. unfold advanceLitRe. good_auto. Qed.
Hint Resolve good_advanceLitNone good_advanceLitOther good_advanceLitDquote
  good_advanceLitHdoc good_advanceLitRe : good.

Lemma good_skipSpace n : good (skipSpace rec n).
Proof. induction n; simpl; good_auto. Qed.

Lemma good_addComment c : good (addComment c).
Proof. unfold addComment. good_auto. Qed.
Hint Resolve good_skipSpace good_addComment : good.

Lemma good_next_body : good (next_body rec).
Proof. unfold next_body. good_auto. Qed.

Lemma good_hdocLitLoop n : forall e, good (hdocLitLoop n e).
Proof. induction n; intros e; simpl; good_auto. Qed.
Hint Resolve good_hdocLitLoop : good.

Lemma good_hdocLitWord : good hdocLitWord.
Proof. unfold hdocLitWord. good_auto. Qed.
End GoodLexer.

Section GoodParser.
Variable rec : fns.
Hypothesis Hrec : recGood rec.

Hint Resolve good_addNpos good_appendLine good_readUntil
  good_advanceLitOther good_next_body good_hdocLitWord : good.

Lemma good_getFile : good (getFile).
Proof. unfold getFile. good_auto. Qed.
Hint Resolve good_getFile : good.

Lemma good_errPass e : good (errPass e).
Proof. unfold errPass. good_auto. Qed.
Hint Resolve good_errPass : good.
Lemma good_posErr ps text : good (posErr ps text).
Proof. unfold posErr. good_auto. Qed.
Hint Resolve good_posErr : good.
Lemma good_curErr text : good (curErr text).
Proof. unfold curErr. good_auto. Qed.
Hint Resolve good_curErr : good.

Lemma good_posixRejects p msg : good (posixRejects p msg).
Proof. unfold posixRejects. good_auto. Qed.
Hint Resolve good_posixRejects : good.

Lemma good_lit ps v : good (lit ps v).
Proof. unfold lit. good_auto. Qed.
Hint Resolve good_lit : good.

Lemma good_preNested q : good (preNested q).
Proof. unfold preNested. good_auto. Qed.
Hint Resolve good_preNested : good.

Lemma good_postNested s : good (postNested s).
Proof. unfold postNested. good_auto. Qed.
Hint Resolve good_postNested : good.

Lemma good_unquotedWordBytes w : good (unquotedWordBytes w).
Proof. unfold unquotedWordBytes. good_auto. Qed.
Hint Resolve good_unquotedWordBytes : good.

Lemma good_newRedirect : good (newRedirect).
Proof.
  intros p [I1 I2]. unfold newRedirect. simpl. split; [|reflexivity].
  split; [exact I1|]. simpl. rewrite forallb_app, I2. reflexivity.
Qed.
Hint Resolve good_newRedirect : good.
Lemma good_redirect r : good (redirect r).
Proof. unfold redirect. good_auto. Qed.
Hint Resolve good_redirect : good.

Lemma pxInv_writeAt (p : parser) (r : RedirPtr) (c : Redirect) :
  pxInv p -> pxRedirect c = true ->
  pxInv (setRedirs_ (writeAt (redirs p) r c) p).
Proof.
  intros [I1 I2] Hc. split; [exact I1|].
  change (redirs (setRedirs_ (writeAt (redirs p) r c) p))
    with (writeAt (redirs p) r c).
  unfold writeAt.
  rewrite forallb_forall in I2.
  assert (F1 : forallb pxRedirect (firstn r (redirs p)) = true).
  { apply forallb_forall. intros x Hx. apply I2.
    rewrite <- (firstn_skipn r (redirs p)). apply in_or_app. auto. }
  assert (F2 : forallb pxRedirect (skipn (S r) (redirs p)) = true).
  { apply forallb_forall. intros x Hx. apply I2.
    rewrite <- (firstn_skipn (S r) (redirs p)). apply in_or_app. auto. }
  rewrite forallb_app, F1.
  change ([c] ++ skipn (S r) (redirs p))%list with (c :: skipn (S r) (redirs p)).
  cbn [forallb andb]. rewrite Hc, F2. reflexivity.
Qed.

Lemma good_updRedirect r h :
  (forall c, pxRedirect c = true -> pxRedirect (h c) = true) ->
  good (updRedirect r h).
Proof.
  intros Hh p I. unfold updRedirect, redirect, bind, gets, deref.
  destruct (nth_error (redirs p) r) as [c|] eqn:E; simpl; [|exact Logic.I].
  split; [|reflexivity].
  apply pxInv_writeAt; [exact I|]. apply Hh.
  destruct I as [_ I2]. rewrite forallb_forall in I2. apply I2.
  exact (nth_error_In _ _ E).
Qed.
Lemma good_appendHeredoc r : good (appendHeredoc r).
Proof. unfold appendHeredoc. good_auto. Qed.
Hint Resolve good_appendHeredoc : good.

Lemma good_readHdocs a lo i : good (readHdocs a lo i).
Proof. unfold readHdocs. good_auto. Qed.
Hint Resolve good_readHdocs : good.

Lemma good_got t : good (got rec t).
Proof. unfold got. good_auto. Qed.
Hint Resolve good_got : good.

Lemma good_gotRsrv v : good (gotRsrv rec v).
Proof. unfold gotRsrv. good_auto. Qed.
Hint Resolve good_gotRsrv : good.

Lemma good_gotSameLine t : good (gotSameLine rec t).
Proof. unfold gotSameLine. good_auto. Qed.
Hint Resolve good_gotSameLine : good.

Lemma good_followErr ps left right : good (followErr ps left right).
Proof. unfold followErr. good_auto. Qed.
Hint Resolve good_followErr : good.

Lemma good_followErrExp ps left : good (followErrExp ps left).
Proof. unfold followErrExp. good_auto. Qed.
Hint Resolve good_followErrExp : good.

Lemma good_follow lpos left t : good (follow rec lpos left t).
Proof. unfold follow. good_auto. Qed.
Hint Resolve good_follow : good.

Lemma good_followRsrv lpos left v : good (followRsrv rec lpos left v).
Proof. unfold followRsrv. good_auto. Qed.
Hint Resolve good_followRsrv : good.

Lemma good_followStmts left lpos stops : good (followStmts rec left lpos stops).
Proof. unfold followStmts. good_auto. Qed.
Hint Resolve good_followStmts : good.

Lemma good_quoteErr lpos q : good (quoteErr lpos q).
Proof. unfold quoteErr. good_auto. Qed.
Hint Resolve good_quoteErr : good.

Lemma good_matchingErr lpos left right : good (matchingErr lpos left right).
Proof. unfold matchingErr. good_auto. Qed.
Hint Resolve good_matchingErr : good.

Lemma good_matched lpos left right : good (matched rec lpos left right).
Proof. unfold matched. good_auto. Qed.
Hint Resolve good_matched : good.

Lemma good_stmtEnd npos0 start end_ : good (stmtEnd rec npos0 start end_).
Proof. unfold stmtEnd. good_auto. Qed.
Hint Resolve good_stmtEnd : good.

Lemma good_invalidStmtStart : good (invalidStmtStart).
Proof. unfold invalidStmtStart. good_auto. Qed.
Hint Resolve good_invalidStmtStart : good.

Lemma good_wordParts : good (wordParts rec).
Proof. unfold wordParts. good_auto. Qed.
Hint Resolve good_wordParts : good.

Lemma good_getWord : good (getWord rec).
Proof. unfold getWord. good_auto. Qed.
Hint Resolve good_getWord : good.

Lemma good_getWordOrEmpty : good (getWordOrEmpty rec).
Proof. unfold getWordOrEmpty. good_auto. Qed.
Hint Resolve good_getWordOrEmpty : good.

Lemma good_getLit : good (getLit rec).
Proof. unfold getLit. good_auto. Qed.
Hint Resolve good_getLit : good.

Lemma good_followWordTok t ps : good (followWordTok rec t ps).
Proof. unfold followWordTok. good_auto. Qed.
Hint Resolve good_followWordTok : good.

Lemma good_followWord s ps : good (followWord rec s ps).
Proof. unfold followWord. good_auto. Qed.
Hint Resolve good_followWord : good.

Lemma good_doHeredocs_body : good (doHeredocs_body rec).
Proof.
  unfold doHeredocs_body. good_auto;
    apply good_updRedirect; intros c Hc; unfold pxRedirect in *; simpl;
    apply andb_prop in Hc; destruct Hc as [H1 _]; rewrite H1; solve_wf.
Qed.
Hint Resolve good_doHeredocs_body : good.
Lemma good_stmts_body stops : good (stmts_body rec stops).
Proof. unfold stmts_body. good_auto. Qed.
Hint Resolve good_stmts_body : good.

Lemma good_couldBeArithm : good (couldBeArithm rec).
Proof. unfold couldBeArithm. good_auto. Qed.
Hint Resolve good_couldBeArithm : good.
Lemma good_arithmEnd ltok lpos old : good (arithmEnd rec ltok lpos old).
Proof. unfold arithmEnd. good_auto. Qed.
Hint Resolve good_arithmEnd : good.

Lemma good_paramExp : good (paramExp rec).
Proof. unfold paramExp. good_auto. Qed.
Hint Resolve good_paramExp : good.

Lemma good_sglQuoteLines bs : good (sglQuoteLines bs).
Proof. induction bs; simpl; good_auto. Qed.
Hint Resolve good_sglQuoteLines : good.

Lemma good_extGlobLoop rem : forall start lparens, good (extGlobLoop rem start lparens).
Proof. induction rem; intros start lparens; simpl; good_auto. Qed.
Hint Resolve good_extGlobLoop : good.

Lemma good_wordPart_body : good (wordPart_body rec).
Proof. unfold wordPart_body. good_auto. Qed.
Hint Resolve good_wordPart_body : good.

Lemma good_arithmExprRest left level compact tern :
  pxOpt pxArithm left = true ->
  good (arithmExprRest rec left level compact tern).
Proof. intros Wl. unfold arithmExprRest. good_auto. Qed.
Hint Resolve good_arithmExprRest : good.

Lemma good_arithmExpr_body ftok fpos level compact tern : good (arithmExpr_body rec ftok fpos level compact tern).
Proof. unfold arithmExpr_body. good_auto. Qed.
Hint Resolve good_arithmExpr_body : good.

Lemma good_arithmExprBase_body ftok fpos compact : good (arithmExprBase_body rec ftok fpos compact).
Proof. unfold arithmExprBase_body. good_auto. Qed.
Hint Resolve good_arithmExprBase_body : good.

Lemma good_validIdent : good (validIdent).
Proof. unfold validIdent. good_auto. Qed.
Hint Resolve good_validIdent : good.

Lemma good_getAssign : good (getAssign rec).
Proof.
  unfold getAssign. good_auto;
    repeat match goal with
           | H : (if ?c then _ else _) = _ |- _ =>
               destruct c; inversion H; subst; clear H
           | |- context [if ?c then _ else _] => destruct c
           end;
    solve_wf.
Qed.
Hint Resolve good_getAssign : good.
Lemma good_doRedirect s : pxStmt s = true -> good (doRedirect rec s).
Proof.
  intros Ws. unfold doRedirect. good_auto;
    try (apply good_updRedirect; intros c Hc; unfold pxRedirect in *; simpl;
         solve_wf).
Qed.
Hint Resolve good_doRedirect : good.
Lemma good_callExpr s w :
  pxStmt s = true -> pxWord w = true -> good (callExpr rec s w).
Proof. intros Ws Ww. unfold callExpr. good_auto. Qed.
Hint Resolve good_callExpr : good.
Lemma good_funcDecl nm : good (funcDecl rec nm (ValuePos nm)).
Proof.
  unfold funcDecl. good_auto; rewrite ?Z.eqb_refl; solve_wf.
Qed.
Hint Resolve good_funcDecl : good.
Lemma good_subshell : good (subshell rec).
Proof. unfold subshell. good_auto. Qed.
Hint Resolve good_subshell : good.

Lemma good_arithmExpCmd : good (arithmExpCmd rec).
Proof. unfold arithmExpCmd. good_auto. Qed.
Hint Resolve good_arithmExpCmd : good.

Lemma good_block : good (block rec).
Proof. unfold block. good_auto. Qed.
Hint Resolve good_block : good.

Lemma good_ifClause : good (ifClause rec).
Proof. unfold ifClause. good_auto. Qed.
Hint Resolve good_ifClause : good.

Lemma good_whileClause : good (whileClause rec).
Proof. unfold whileClause. good_auto. Qed.
Hint Resolve good_whileClause : good.

Lemma good_untilClause : good (untilClause rec).
Proof. unfold untilClause. good_auto. Qed.
Hint Resolve good_untilClause : good.

Lemma good_loop_ forPos : good (loop_ rec forPos).
Proof. unfold loop_. good_auto. Qed.
Hint Resolve good_loop_ : good.

Lemma good_forClause : good (forClause rec).
Proof. unfold forClause. good_auto. Qed.
Hint Resolve good_forClause : good.

Lemma good_patLists : good (patLists rec).
Proof. unfold patLists. good_auto. Qed.
Hint Resolve good_patLists : good.

Lemma good_caseClause : good (caseClause rec).
Proof. unfold caseClause. good_auto. Qed.
Hint Resolve good_caseClause : good.

Lemma good_testExprBase ftok fpos : good (testExprBase rec ftok fpos).
Proof. unfold testExprBase. good_auto. Qed.
Hint Resolve good_testExprBase : good.

Lemma good_testExpr_body ftok fpos level : good (testExpr_body rec ftok fpos level).
Proof. unfold testExpr_body. good_auto. Qed.
Hint Resolve good_testExpr_body : good.

Lemma good_gotStmtPipe_body s : pxStmt s = true -> good (gotStmtPipe_body rec s).
Proof.
  intros Ws. unfold gotStmtPipe_body. good_auto;
    match goal with
    | H : cmdHead (bash ?p) ?v = _ |- goodAt ?p _ =>
        let I := fresh "I" in
        intros [I _]; rewrite I in H;
        pose proof (cmdHead_posix v) as C; rewrite H in C; discriminate
    end.
Qed.
Hint Resolve good_gotStmtPipe_body : good.
Lemma good_getStmt_body readEnd : good (getStmt_body rec readEnd).
Proof. unfold getStmt_body. good_auto. Qed.
Hint Resolve good_getStmt_body : good.
Lemma good_loop_body (S R : Type) (WS : Wf S) (WR : Wf R) (step : S -> M (S + R)) :
  (forall s, wfb s = true -> good (step s)) ->
  forall s, wfb s = true -> good (loop_body rec step s).
Proof. intros Hs s Ws. unfold loop_body. good_auto. Qed.
End GoodParser.


Lemma recGood_stuck : recGood stuck.
Proof. constructor; intros; intros ?; exact Logic.I. Qed.

Lemma recGood_fns_at fuel : recGood (fns_at fuel).
Proof.
  induction fuel as [|n IH]; [apply recGood_stuck|].
  simpl. constructor; simpl; intros.
  - apply good_next_body; assumption.
  - apply good_doHeredocs_body; assumption.
  - apply good_stmts_body; assumption.
  - apply good_getStmt_body; assumption.
  - apply good_gotStmtPipe_body; assumption.
  - apply good_wordPart_body; assumption.
  - apply good_arithmExpr_body; assumption.
  - apply good_arithmExprBase_body; assumption.
  - apply good_testExpr_body; assumption.
  - eapply good_loop_body; eassumption.
Qed.

(** The steps of [Parse] on an accepted run, state by state. *)
Lemma Parse_steps (fuel : nat) (srcs name : string) (md : ParseMode)
      (r : parsed) (p : parser) :
  Parse fuel srcs name md = Ok r p ->
  exists fl p0 p1 p2 p3,
    fst r = Some fl /\
    src p0 = srcs /\ mode p0 = md /\ quote p0 = noState /\ redirs p0 = [] /\
    f_next (fns_at fuel) p0 = Ok tt p1 /\
    f_stmts (fns_at fuel) [] p1 = Ok (Stmts fl) p2 /\
    redirs p3 = redirs p2 /\ mode p3 = mode p2 /\
    when (isNone (err p3)) (f_doHeredocs (fns_at fuel)) p3 = Ok tt p.
Proof.
  intros H. unfold Parse, parse in H.
  binv H as u0 q0 E0. binv H as u1 q1 E1. binv H as u2 q2 E2.
  binv H as u3 q3 E3. binv H as u4 q4 E4. binv H as sts q5 E5.
  binv H as u6 q6 E6. binv H as e0 q7 E7. binv H as u8 q8 E8.
  binv H as p9 q9 E9. prims_in H. injection H as <- <-.
  unfold get in E9. injection E9 as <- <-.
  prims_in E7. injection E7 as <- <-.
  assert (Q3 : src q3 = srcs /\ mode q3 = md /\ quote q3 = noState /\
               redirs q3 = [] /\ fileHolds name [] q3).
  { unfold reset in E0. prims_in E0. injection E0 as _ <-.
    prims_in E1. injection E1 as _ <-.
    prims_in E2. injection E2 as _ <-.
    prims_in E3. injection E3 as _ <-. repeat split.
    eexists. simpl. repeat split; reflexivity. }
  destruct Q3 as (S3 & M3 & Q3 & R3 & F3).
  pose proof (recKeeps_fns_at name [] fuel) as K.
  assert (F4 : fileHolds name [] q4)
    by (eapply (k_next K); [exact F3 | exact E4]).
  assert (F5 : fileHolds name [] q5)
    by (eapply (k_stmts K); [exact F4 | exact E5]).
  assert (F6 : fileHolds name sts q6 /\ redirs q6 = redirs q5 /\
               mode q6 = mode q5).
  { destruct F5 as (fl & Hf & Hn & _).
    apply modFile_Ok in E6. destruct E6 as (fl' & Hf' & ->).
    assert (fl' = fl) by congruence. subst fl'.
    split; [|split; reflexivity].
    eexists. simpl. split; [reflexivity|]. split; [exact Hn | reflexivity]. }
  destruct F6 as (F6 & R6 & M6).
  assert (F8 : fileHolds name sts q8).
  { destruct (isNone (err q6)); simpl in E8.
    - eapply (k_doHeredocs (recKeeps_fns_at name sts fuel)); [exact F6 | exact E8].
    - prims_in E8. injection E8 as _ <-. exact F6. }
  destruct F8 as (fl & Hf & Hn & Hs).
  destruct u4, u8. exists fl, q3, q4, q5, q6. simpl. rewrite Hs. auto 12.
Qed.

(** X23. With [PosixConformant] set in the mode, whatever [Parse]
    returns holds no clause of the extended dialect: no [TestClause],
    [DeclClause], [EvalClause], [CoprocClause], [LetClause] and no
    [FuncDecl] of the [function] form, at any depth of the statements of
    the file and of the words and here-document bodies of the
    redirections in the store. *)
Theorem posix_no_bash_clauses (fuel : nat) (srcs name : string) (md : ParseMode)
        (r : parsed) (p : parser)
        (Hmd : Z.land md PosixConformant <> 0)
        (H : Parse fuel srcs name md = Ok r p) :
  forallb pxRedirect (redirs p) = true /\
  exists fl, fst r = Some fl /\ forallb pxStmt (Stmts fl) = true.
Proof.
  destruct (Parse_steps _ _ _ _ H)
    as (fl & p0 & p1 & p2 & p3 & F & S0 & M0 & Q0 & R0 & N & St & R3 & M3 & D).
  pose proof (recGood_fns_at fuel) as G.
  assert (I0 : pxInv p0).
  { split; [|rewrite R0; reflexivity].
    unfold bash. rewrite M0. apply Z.eqb_neq. exact Hmd. }
  pose proof (@g_next _ G p0 I0) as P1. rewrite N in P1. destruct P1 as [I1 _].
  pose proof (@g_stmts _ G [] p1 I1) as P2. rewrite St in P2.
  destruct P2 as [I2 W2].
  assert (I3 : pxInv p3).
  { destruct I2 as [B2 X2]. split; [|rewrite R3; exact X2].
    unfold bash in *. rewrite M3. exact B2. }
  assert (I4 : pxInv p).
  { destruct (isNone (err p3)); simpl in D.
    - pose proof (@g_doHeredocs _ G p3 I3) as P4. rewrite D in P4. exact (proj1 P4).
    - injection D as <-. exact I3. }
  split; [exact (proj2 I4)|]. exists fl. split; [exact F | exact W2].
Qed.

Lemma posix_no_bash_clauses_witness :
  exists r p,
    Parse 64 "let x; [[ a ]]" "" PosixConformant = Ok r p /\
    snd r = None /\
    exists fl, fst r = Some fl /\ forallb pxStmt (Stmts fl) = true.
Proof.
  destruct (Parse 64 "let x; [[ a ]]" "" PosixConformant) as [[fl e] p| |] eqn:E;
    try (vm_compute in E; discriminate).
  exists (fl, e), p. split; [reflexivity|]. split.
  - vm_compute in E. injection E as _ <- _. reflexivity.
  - refine (proj2 (@posix_no_bash_clauses 64 _ "" PosixConformant _ p _ E)).
    vm_compute. discriminate.
Defined.

(** Without the flag the same input is read as a [LetClause] and a
    [TestClause]. *)
Example extended_builds_clauses :
  option_map (forallb pxStmt) (stmtsOf (Parse 64 "let x; [[ a ]]" "" 0))
  = Some false.
Proof. vm_compute. reflexivity. Qed.

(** ** The errors recorded in a run *)

Lemma hasPrefix_app (c y : string) : hasPrefix c (c ++ y) = true.
Proof.
  induction c as [|a c IH]; simpl; [reflexivity|].
  rewrite IH. unfold isb. rewrite Ascii.eqb_refl. reflexivity.
Qed.

Lemma infixb_app (x c y : string) : infixb c (x ++ c ++ y) = true.
Proof.
  induction x as [|a x IH]; simpl.
  - destruct (c ++ y) eqn:E; simpl; rewrite <- E, hasPrefix_app; reflexivity.
  - rewrite IH. apply orb_true_r.
Qed.

Lemma strIn_infix (x c y : string) (l : list string) :
  forallb (fun m => negb (infixb c m)) l = true ->
  strIn (x ++ c ++ y) l = false.
Proof.
  unfold strIn. induction l as [|m l IH]; simpl; [reflexivity|].
  intros H. apply andb_prop in H. destruct H as [H1 H2].
  rewrite (IH H2), orb_false_r.
  destruct (String.eqb (x ++ c ++ y) m) eqn:E; [|reflexivity].
  apply String.eqb_eq in E. rewrite <- E, infixb_app in H1. discriminate.
Qed.

Lemma append_nil_r (s : string) : s ++ "" = s.
Proof. induction s as [|a s IH]; simpl; [reflexivity | now rewrite IH]. Qed.

Lemma not_feature_infix (x c y : string) :
  forallb (fun m => negb (infixb c m)) bashFeatures = true ->
  bashFeature (x ++ c ++ y) = false.
Proof. apply strIn_infix. Qed.

Lemma not_feature_suffix (x c : string) :
  forallb (fun m => negb (infixb c m)) bashFeatures = true ->
  bashFeature (x ++ c) = false.
Proof.
  intros H. rewrite <- (append_nil_r c). apply not_feature_infix. exact H.
Qed.

Ltac text_ok :=
  first
    [ reflexivity
    | match goal with
      | |- bashFeature (?x ++ ?c ++ ?y) = false =>
          apply (@not_feature_infix x c y); reflexivity
      | |- bashFeature (?x ++ ?c) = false =>
          apply (@not_feature_suffix x c); reflexivity
      end ].

Lemma errChain_store (e : ParseError) : errChain (Some e) ([] ++ [e]).
Proof. exists e, []. simpl. auto. Qed.

Lemma errChain_replace (o : option ParseError) (l : list ParseError)
      (e : ParseError) :
  errChain o l -> fallbackErr e -> errChain (Some e) (l ++ [e]).
Proof.
  intros H He. destruct o as [e1|]; simpl in H.
  - destruct H as (e0 & rest & -> & _ & Hr).
    exists e0, (rest ++ [e])%list. simpl. split; [reflexivity|]. split.
    + destruct rest; [reflexivity|]. rewrite last_last. reflexivity.
    + apply Forall_app. auto.
  - subst l. apply errChain_store.
Qed.

Section LogCore.
Variable md : ParseMode.

Lemma lkeeps_ret (A : Type) (a : A) : lkeeps md (ret a).
Proof. intros p a' p' H E. inversion E; subst. exact H. Qed.

Lemma lkeeps_bind (A B : Type) (m : M A) (k : A -> M B) :
  lkeeps md m -> (forall a, lkeeps md (k a)) -> lkeeps md (bind m k).
Proof.
  intros Hm Hk p b p' H E. unfold bind in E.
  destruct (m p) as [a p1| |] eqn:Em; try discriminate.
  exact (Hk a p1 b p' (Hm p a p1 H Em) E).
Qed.

(** What was read from a struct of the run knows the mode. *)
Lemma lkeeps_bind_get (B : Type) (k : parser -> M B) :
  (forall p0, mode p0 = md -> lkeeps md (k p0)) -> lkeeps md (bind get k).
Proof. intros Hk p b p' H E. exact (Hk p (proj1 H) p b p' H E). Qed.

Lemma lkeeps_panic (A : Type) : lkeeps md (@panic A).
Proof. intros p a p' _ E. discriminate. Qed.

Lemma lkeeps_outOfFuel (A : Type) : lkeeps md (@outOfFuel A).
Proof. intros p a p' _ E. discriminate. Qed.

Lemma lkeeps_get : lkeeps md get.
Proof. intros p a p' H E. inversion E; subst. exact H. Qed.

Lemma lkeeps_gets (A : Type) (g : parser -> A) : lkeeps md (gets g).
Proof. intros p a p' H E. inversion E; subst. exact H. Qed.

Lemma lkeeps_deref (A : Type) (o : option A) : lkeeps md (deref o).
Proof. destruct o; [apply lkeeps_ret | apply lkeeps_panic]. Qed.

Lemma lkeeps_modify (h : parser -> parser) :
  (forall p, mode (h p) = mode p) -> (forall p, err (h p) = err p) ->
  (forall p, errLog (h p) = errLog p) ->
  lkeeps md (modify h).
Proof.
  intros Hm He Hl p a p' (H1 & H2 & H3) E. inversion E; subst.
  unfold logInv. rewrite Hm, He, Hl. auto.
Qed.

Lemma lkeeps_modFile (h : File -> File) : lkeeps md (modFile h).
Proof.
  intros p a p' H E. apply modFile_Ok in E. destruct E as (fl & _ & ->).
  exact H.
Qed.

Lemma lkeeps_when (b : bool) (m : M unit) : lkeeps md m -> lkeeps md (when b m).
Proof. intros H. destruct b; [exact H | apply lkeeps_ret]. Qed.

Lemma lkeeps_errPass (e : ParseError) :
  (Z.land md PosixConformant = 0 -> bashFeature (EText e) = false) ->
  lkeeps md (errPass e).
Proof.
  intros He p a p' (H1 & H2 & H3) E. unfold errPass in E.
  cbv beta iota delta [bind get] in E. destruct (err p) eqn:Ee.
  - prims_in E. injection E as _ <-. unfold logInv. rewrite Ee. auto.
  - prims_in E. injection E as _ <-. unfold logInv. simpl.
    simpl in H2. rewrite H2. split; [exact H1|]. split.
    + apply errChain_store.
    + intros Hb. constructor; [exact (He Hb) | constructor].
Qed.

Lemma lkeeps_posErr (ps : Pos) (text : string) :
  bashFeature text = false -> lkeeps md (posErr ps text).
Proof.
  intros Ht p a p' Hp E. unfold posErr in E.
  binv E as fl q E1. apply getFile_Ok in E1. destruct E1 as [-> Hfl].
  refine (@lkeeps_errPass _ _ p a p' Hp E). intros _. exact Ht.
Qed.

Lemma lkeeps_curErr (text : string) :
  bashFeature text = false -> lkeeps md (curErr text).
Proof.
  intros Ht. unfold curErr. apply lkeeps_bind; [apply lkeeps_gets|].
  intros ps. apply lkeeps_posErr. exact Ht.
Qed.

(** Under [PosixConformant] the rejection is recorded; in the
    extended dialect nothing is. *)
Lemma lkeeps_posixRejects (p0 : parser) (msg : string) :
  mode p0 = md -> lkeeps md (posixRejects p0 msg).
Proof.
  intros Hm. unfold posixRejects, bash. rewrite Hm.
  destruct (Z.land md PosixConformant =? 0) eqn:Eb; simpl.
  - apply lkeeps_ret.
  - apply Z.eqb_neq in Eb. unfold curErr.
    apply lkeeps_bind; [apply lkeeps_gets|]. intros ps.
    intros p a p' Hp E. unfold posErr in E.
    binv E as fl q E1. apply getFile_Ok in E1. destruct E1 as [-> Hfl].
    refine (@lkeeps_errPass _ _ p a p' Hp E). intros Hb. contradiction.
Qed.

(** The fallbacks: [p.err = nil; p.matchingErr(ar.Left, left, dblRightParen)]. *)
Lemma lkeeps_fallback (lpos : Pos) (left : token) :
  left = dblLeftParen \/ left = dollDblParen ->
  lkeeps md (bind (setErr None)
               (fun _ => matchingErr lpos (tokString left)
                           (tokString dblRightParen))).
Proof.
  intros Hl p a p' (H1 & H2 & H3) E.
  unfold matchingErr, posErr in E.
  binv E as u q E1. prims_in E1. injection E1 as _ <-.
  binv E as t q E1. prims_in E1. injection E1 as <- <-.
  binv E as fl q E1. apply getFile_Ok in E1. destruct E1 as [-> Hfl].
  unfold errPass in E. cbv beta iota delta [bind get] in E.
  simpl in E. prims_in E. injection E as _ <-.
  unfold logInv. simpl. split; [exact H1|].
  set (e := mkParseError _ _ _).
  assert (Hf : fallbackErr e) by (exists (tok p), left; auto).
  split.
  - exact (@errChain_replace _ _ _ H2 Hf).
  - intros Hb. apply Forall_app. split; [exact (H3 Hb)|].
    constructor; [|constructor]. subst e. simpl.
    destruct Hl as [-> | ->]; reflexivity.
Qed.
End LogCore.

Create HintDb logs.

#[local] Hint Resolve lkeeps_ret lkeeps_panic lkeeps_outOfFuel lkeeps_get
  lkeeps_gets lkeeps_deref lkeeps_when lkeeps_modFile : logs.

Ltac log_setter :=
  unfold setSrc, setSpaced, setNewLine, setTok, setVal,
    setPos, setNpos, setQuote, setAsPos, setBuriedHdocs, setHeredocs,
    setHdocStop, setRedirs, setArrays;
  apply lkeeps_modify; intros; reflexivity.

Ltac log_step :=
  match goal with
  | |- lkeeps _ (bind (setErr None) _) => apply lkeeps_fallback; auto
  | |- lkeeps _ (bind get _) =>
      apply lkeeps_bind_get; let p := fresh "p" in intros p ?
  | |- lkeeps _ (bind _ _) => apply lkeeps_bind; [| intros ?]
  | |- lkeeps _ (when _ _) => apply lkeeps_when
  | |- lkeeps _ (if ?b then _ else _) => destruct b
  | |- lkeeps _ (match ?x with _ => _ end) => destruct x
  | |- lkeeps _ (posErr _ _) => apply lkeeps_posErr; text_ok
  | |- lkeeps _ (curErr _) => apply lkeeps_curErr; text_ok
  | |- lkeeps _ (posixRejects _ _) => apply lkeeps_posixRejects; assumption
  | |- lkeeps _ (@f_loop _ _ _ _ _) =>
      match goal with H : recLog _ _ |- _ => apply (lg_loop H); intros ? end
  | |- lkeeps _ _ => solve [eauto 3 with logs]
  | |- lkeeps _ _ => log_setter
  end.

Ltac log_auto := cbv beta zeta; repeat (log_step; cbv beta zeta).

#[local] Hint Resolve lg_next lg_doHeredocs lg_stmts lg_getStmt lg_gotStmtPipe
  lg_wordPart lg_arithmExpr lg_arithmExprBase lg_testExpr : logs.

Section LogLexer.
Variable md : ParseMode.
Variable rec : fns.
Hypothesis Hrec : recLog md rec.

Lemma lkeeps_addNpos k : lkeeps md (addNpos k).
Proof. unfold addNpos. log_auto. Qed.

Lemma lkeeps_appendLine off : lkeeps md (appendLine off).
Proof. unfold appendLine. log_auto. Qed.

Hint Resolve lkeeps_addNpos lkeeps_appendLine : logs.

Lemma lkeeps_tokN k t : lkeeps md (tokN k t).
Proof. unfold tokN. log_auto. Qed.
Hint Resolve lkeeps_tokN : logs.

Lemma lkeeps_regToken b : lkeeps md (regToken b).
Proof. unfold regToken. log_auto. Qed.

Lemma lkeeps_dqToken b : lkeeps md (dqToken b).
Proof. unfold dqToken. log_auto. Qed.

Lemma lkeeps_paramToken b : lkeeps md (paramToken b).
Proof. unfold paramToken. log_auto. Qed.

Lemma lkeeps_arithmToken b : lkeeps md (arithmToken b).
Proof. unfold arithmToken. log_auto. Qed.

Lemma lkeeps_readUntil b : lkeeps md (readUntil b).
Proof. unfold readUntil. log_auto. Qed.

Lemma lkeeps_finishLit t bs : lkeeps md (finishLit t bs).
Proof. unfold finishLit. log_auto. Qed.
Hint Resolve lkeeps_regToken lkeeps_dqToken lkeeps_paramToken lkeeps_arithmToken
  lkeeps_readUntil lkeeps_finishLit : logs.

Lemma lkeeps_escaped keep bs k :
  (forall s, lkeeps md (k s)) -> lkeeps md (escaped keep bs k).
Proof. intros Hk. unfold escaped. log_auto. Qed.
Hint Resolve lkeeps_escaped : logs.

Lemma lkeeps_advanceLitNoneLoop n : forall bs, lkeeps md (advanceLitNoneLoop n bs).
Proof. induction n; intros bs; simpl; log_auto. Qed.

Lemma lkeeps_advanceLitOtherLoop n : forall q bs,
    lkeeps md (advanceLitOtherLoop n q bs).
Proof. induction n; intros q bs; simpl; log_auto. Qed.

Lemma lkeeps_advanceLitDquoteLoop n : forall bs,
    lkeeps md (advanceLitDquoteLoop n bs).
Proof. induction n; intros bs; simpl; log_auto. Qed.

Lemma lkeeps_advanceLitHdocLoop n : forall bs,
    lkeeps md (advanceLitHdocLoop n bs).
Proof. induction n; intros bs; simpl; log_auto. Qed.
Hint Resolve lkeeps_advanceLitNoneLoop lkeeps_advanceLitOtherLoop
  lkeeps_advanceLitDquoteLoop lkeeps_advanceLitHdocLoop : logs.

Lemma lkeeps_advanceLitNone : lkeeps md advanceLitNone.
Proof. unfold advanceLitNone. log_auto. Qed.

Lemma lkeeps_advanceLitOther q : lkeeps md (advanceLitOther q).
Proof. unfold advanceLitOther. log_auto. Qed.

Lemma lkeeps_advanceLitDquote : lkeeps md advanceLitDquote.
Proof. unfold advanceLitDquote. log_auto. Qed.

Lemma lkeeps_advanceLitHdoc : lkeeps md advanceLitHdoc.
Proof. unfold advanceLitHdoc. log_auto. Qed.

Lemma lkeeps_advanceLitRe : lkeeps md advanceLitRe.
Proof. unfold advanceLitRe. log_auto. Qed.
Hint Resolve lkeeps_advanceLitNone lkeeps_advanceLitOther lkeeps_advanceLitDquote
  lkeeps_advanceLitHdoc lkeeps_advanceLitRe : logs.

Lemma lkeeps_skipSpace n : lkeeps md (skipSpace rec n).
Proof. induction n; simpl; log_auto. Qed.

Lemma lkeeps_addComment c : lkeeps md (addComment c).
Proof. unfold addComment. log_auto. Qed.
Hint Resolve lkeeps_skipSpace lkeeps_addComment : logs.

Lemma lkeeps_next_body : lkeeps md (next_body rec).
Proof. unfold next_body. log_auto. Qed.

Lemma lkeeps_hdocLitLoop n : forall e, lkeeps md (hdocLitLoop n e).
Proof. induction n; intros e; simpl; log_auto. Qed.
Hint Resolve lkeeps_hdocLitLoop : logs.

Lemma lkeeps_hdocLitWord : lkeeps md hdocLitWord.
Proof. unfold hdocLitWord. log_auto. Qed.
End LogLexer.

Section LogParser.
Variable md : ParseMode.
Variable rec : fns.
Hypothesis Hrec : recLog md rec.

Hint Resolve lkeeps_addNpos lkeeps_appendLine lkeeps_readUntil
  lkeeps_advanceLitOther lkeeps_next_body lkeeps_hdocLitWord : logs.

Lemma lkeeps_getFile : lkeeps md (getFile).
Proof. unfold getFile. log_auto. Qed.
Hint Resolve lkeeps_getFile : logs.

Lemma lkeeps_lit ps v : lkeeps md (lit ps v).
Proof. unfold lit. log_auto. Qed.
Hint Resolve lkeeps_lit : logs.

Lemma lkeeps_preNested q : lkeeps md (preNested q).
Proof. unfold preNested. log_auto. Qed.
Hint Resolve lkeeps_preNested : logs.

Lemma lkeeps_postNested s : lkeeps md (postNested s).
Proof. unfold postNested. log_auto. Qed.
Hint Resolve lkeeps_postNested : logs.

Lemma lkeeps_unquotedWordBytes w : lkeeps md (unquotedWordBytes w).
Proof. unfold unquotedWordBytes. log_auto. Qed.
Hint Resolve lkeeps_unquotedWordBytes : logs.

Lemma lkeeps_newRedirect : lkeeps md (newRedirect).
Proof. unfold newRedirect. log_auto. Qed.
Hint Resolve lkeeps_newRedirect : logs.

Lemma lkeeps_redirect r : lkeeps md (redirect r).
Proof. unfold redirect. log_auto. Qed.
Hint Resolve lkeeps_redirect : logs.

Lemma lkeeps_updRedirect r h : lkeeps md (updRedirect r h).
Proof. unfold updRedirect. log_auto. Qed.
Hint Resolve lkeeps_updRedirect : logs.

Lemma lkeeps_appendHeredoc r : lkeeps md (appendHeredoc r).
Proof. unfold appendHeredoc. log_auto. Qed.
Hint Resolve lkeeps_appendHeredoc : logs.

Lemma lkeeps_readHdocs a lo i : lkeeps md (readHdocs a lo i).
Proof. unfold readHdocs. log_auto. Qed.
Hint Resolve lkeeps_readHdocs : logs.

Lemma lkeeps_got t : lkeeps md (got rec t).
Proof. unfold got. log_auto. Qed.
Hint Resolve lkeeps_got : logs.

Lemma lkeeps_gotRsrv v : lkeeps md (gotRsrv rec v).
Proof. unfold gotRsrv. log_auto. Qed.
Hint Resolve lkeeps_gotRsrv : logs.

Lemma lkeeps_gotSameLine t : lkeeps md (gotSameLine rec t).
Proof. unfold gotSameLine. log_auto. Qed.
Hint Resolve lkeeps_gotSameLine : logs.

Lemma lkeeps_followErr ps left right : lkeeps md (followErr ps left right).
Proof. unfold followErr. log_auto. Qed.
Hint Resolve lkeeps_followErr : logs.

Lemma lkeeps_followErrExp ps left : lkeeps md (followErrExp ps left).
Proof. unfold followErrExp. log_auto. Qed.
Hint Resolve lkeeps_followErrExp : logs.

Lemma lkeeps_follow lpos left t : lkeeps md (follow rec lpos left t).
Proof. unfold follow. log_auto. Qed.
Hint Resolve lkeeps_follow : logs.

Lemma lkeeps_followRsrv lpos left v : lkeeps md (followRsrv rec lpos left v).
Proof. unfold followRsrv. log_auto. Qed.
Hint Resolve lkeeps_followRsrv : logs.

Lemma lkeeps_followStmts left lpos stops : lkeeps md (followStmts rec left lpos stops).
Proof. unfold followStmts. log_auto. Qed.
Hint Resolve lkeeps_followStmts : logs.

Lemma lkeeps_quoteErr lpos q : lkeeps md (quoteErr lpos q).
Proof. unfold quoteErr. log_auto. Qed.
Hint Resolve lkeeps_quoteErr : logs.

Lemma lkeeps_matchingErr lpos left right : lkeeps md (matchingErr lpos left right).
Proof. unfold matchingErr. log_auto. Qed.
Hint Resolve lkeeps_matchingErr : logs.

Lemma lkeeps_matched lpos left right : lkeeps md (matched rec lpos left right).
Proof. unfold matched. log_auto. Qed.
Hint Resolve lkeeps_matched : logs.

Lemma lkeeps_stmtEnd npos0 start end_ : lkeeps md (stmtEnd rec npos0 start end_).
Proof. unfold stmtEnd. log_auto. Qed.
Hint Resolve lkeeps_stmtEnd : logs.

Lemma lkeeps_invalidStmtStart : lkeeps md (invalidStmtStart).
Proof. unfold invalidStmtStart. log_auto. Qed.
Hint Resolve lkeeps_invalidStmtStart : logs.

Lemma lkeeps_wordParts : lkeeps md (wordParts rec).
Proof. unfold wordParts. log_auto. Qed.
Hint Resolve lkeeps_wordParts : logs.

Lemma lkeeps_getWord : lkeeps md (getWord rec).
Proof. unfold getWord. log_auto. Qed.
Hint Resolve lkeeps_getWord : logs.

Lemma lkeeps_getWordOrEmpty : lkeeps md (getWordOrEmpty rec).
Proof. unfold getWordOrEmpty. log_auto. Qed.
Hint Resolve lkeeps_getWordOrEmpty : logs.

Lemma lkeeps_getLit : lkeeps md (getLit rec).
Proof. unfold getLit. log_auto. Qed.
Hint Resolve lkeeps_getLit : logs.

Lemma lkeeps_followWordTok t ps : lkeeps md (followWordTok rec t ps).
Proof. unfold followWordTok. log_auto. Qed.
Hint Resolve lkeeps_followWordTok : logs.

Lemma lkeeps_followWord s ps : lkeeps md (followWord rec s ps).
Proof. unfold followWord. log_auto. Qed.
Hint Resolve lkeeps_followWord : logs.

Lemma lkeeps_doHeredocs_body : lkeeps md (doHeredocs_body rec).
Proof. unfold doHeredocs_body. log_auto. Qed.
Hint Resolve lkeeps_doHeredocs_body : logs.

Lemma lkeeps_stmts_body stops : lkeeps md (stmts_body rec stops).
Proof. unfold stmts_body. log_auto. Qed.
Hint Resolve lkeeps_stmts_body : logs.

Lemma lkeeps_couldBeArithm : lkeeps md (couldBeArithm rec).
Proof. unfold couldBeArithm. log_auto. Qed.
Hint Resolve lkeeps_couldBeArithm : logs.

Lemma lkeeps_arithmEnd ltok lpos old : lkeeps md (arithmEnd rec ltok lpos old).
Proof. unfold arithmEnd. log_auto. Qed.
Hint Resolve lkeeps_arithmEnd : logs.

Lemma lkeeps_paramExp : lkeeps md (paramExp rec).
Proof. unfold paramExp. log_auto. Qed.
Hint Resolve lkeeps_paramExp : logs.

Lemma lkeeps_sglQuoteLines bs : lkeeps md (sglQuoteLines bs).
Proof. induction bs; simpl; log_auto. Qed.
Hint Resolve lkeeps_sglQuoteLines : logs.

Lemma lkeeps_extGlobLoop rem : forall start lparens, lkeeps md (extGlobLoop rem start lparens).
Proof. induction rem; intros start lparens; simpl; log_auto. Qed.
Hint Resolve lkeeps_extGlobLoop : logs.

Lemma lkeeps_wordPart_body : lkeeps md (wordPart_body rec).
Proof. unfold wordPart_body. log_auto. Qed.
Hint Resolve lkeeps_wordPart_body : logs.

Lemma lkeeps_arithmExprRest left level compact tern : lkeeps md (arithmExprRest rec left level compact tern).
Proof. unfold arithmExprRest. log_auto. Qed.
Hint Resolve lkeeps_arithmExprRest : logs.

Lemma lkeeps_arithmExpr_body ftok fpos level compact tern : lkeeps md (arithmExpr_body rec ftok fpos level compact tern).
Proof. unfold arithmExpr_body. log_auto. Qed.
Hint Resolve lkeeps_arithmExpr_body : logs.

Lemma lkeeps_arithmExprBase_body ftok fpos compact : lkeeps md (arithmExprBase_body rec ftok fpos compact).
Proof. unfold arithmExprBase_body. log_auto. Qed.
Hint Resolve lkeeps_arithmExprBase_body : logs.

Lemma lkeeps_validIdent : lkeeps md (validIdent).
Proof. unfold validIdent. log_auto. Qed.
Hint Resolve lkeeps_validIdent : logs.

Lemma lkeeps_getAssign : lkeeps md (getAssign rec).
Proof. unfold getAssign. log_auto. Qed.
Hint Resolve lkeeps_getAssign : logs.

Lemma lkeeps_doRedirect s : lkeeps md (doRedirect rec s).
Proof. unfold doRedirect. log_auto. Qed.
Hint Resolve lkeeps_doRedirect : logs.

Lemma lkeeps_callExpr s w : lkeeps md (callExpr rec s w).
Proof. unfold callExpr. log_auto. Qed.
Hint Resolve lkeeps_callExpr : logs.

Lemma lkeeps_funcDecl nm ps : lkeeps md (funcDecl rec nm ps).
Proof. unfold funcDecl. log_auto. Qed.
Hint Resolve lkeeps_funcDecl : logs.

Lemma lkeeps_subshell : lkeeps md (subshell rec).
Proof. unfold subshell. log_auto. Qed.
Hint Resolve lkeeps_subshell : logs.

Lemma lkeeps_arithmExpCmd : lkeeps md (arithmExpCmd rec).
Proof. unfold arithmExpCmd. log_auto. Qed.
Hint Resolve lkeeps_arithmExpCmd : logs.

Lemma lkeeps_block : lkeeps md (block rec).
Proof. unfold block. log_auto. Qed.
Hint Resolve lkeeps_block : logs.

Lemma lkeeps_ifClause : lkeeps md (ifClause rec).
Proof. unfold ifClause. log_auto. Qed.
Hint Resolve lkeeps_ifClause : logs.

Lemma lkeeps_whileClause : lkeeps md (whileClause rec).
Proof. unfold whileClause. log_auto. Qed.
Hint Resolve lkeeps_whileClause : logs.

Lemma lkeeps_untilClause : lkeeps md (untilClause rec).
Proof. unfold untilClause. log_auto. Qed.
Hint Resolve lkeeps_untilClause : logs.

Lemma lkeeps_loop_ forPos : lkeeps md (loop_ rec forPos).
Proof. unfold loop_. log_auto. Qed.
Hint Resolve lkeeps_loop_ : logs.

Lemma lkeeps_forClause : lkeeps md (forClause rec).
Proof. unfold forClause. log_auto. Qed.
Hint Resolve lkeeps_forClause : logs.

Lemma lkeeps_patLists : lkeeps md (patLists rec).
Proof. unfold patLists. log_auto. Qed.
Hint Resolve lkeeps_patLists : logs.

Lemma lkeeps_caseClause : lkeeps md (caseClause rec).
Proof. unfold caseClause. log_auto. Qed.
Hint Resolve lkeeps_caseClause : logs.

Lemma lkeeps_testExprBase ftok fpos : lkeeps md (testExprBase rec ftok fpos).
Proof. unfold testExprBase. log_auto. Qed.
Hint Resolve lkeeps_testExprBase : logs.

Lemma lkeeps_testExpr_body ftok fpos level : lkeeps md (testExpr_body rec ftok fpos level).
Proof. unfold testExpr_body. log_auto. Qed.
Hint Resolve lkeeps_testExpr_body : logs.

Lemma lkeeps_testClause : lkeeps md (testClause rec).
Proof. unfold testClause. log_auto. Qed.
Hint Resolve lkeeps_testClause : logs.

Lemma lkeeps_declClause : lkeeps md (declClause rec).
Proof. unfold declClause. log_auto. Qed.
Hint Resolve lkeeps_declClause : logs.

Lemma lkeeps_evalClause : lkeeps md (evalClause rec).
Proof. unfold evalClause. log_auto. Qed.
Hint Resolve lkeeps_evalClause : logs.

Lemma lkeeps_coprocClause : lkeeps md (coprocClause rec).
Proof. unfold coprocClause. log_auto. Qed.
Hint Resolve lkeeps_coprocClause : logs.

Lemma lkeeps_letClause : lkeeps md (letClause rec).
Proof. unfold letClause. log_auto. Qed.
Hint Resolve lkeeps_letClause : logs.

Lemma lkeeps_bashFuncDecl : lkeeps md (bashFuncDecl rec).
Proof. unfold bashFuncDecl. log_auto. Qed.
Hint Resolve lkeeps_bashFuncDecl : logs.

Lemma lkeeps_gotStmtPipe_body s : lkeeps md (gotStmtPipe_body rec s).
Proof. unfold gotStmtPipe_body. log_auto. Qed.
Hint Resolve lkeeps_gotStmtPipe_body : logs.

Lemma lkeeps_getStmt_body readEnd : lkeeps md (getStmt_body rec readEnd).
Proof. unfold getStmt_body. log_auto. Qed.
Hint Resolve lkeeps_getStmt_body : logs.

Lemma lkeeps_loop_body (S R : Type) (step : S -> M (S + R)) :
  (forall s, lkeeps md (step s)) -> forall s, lkeeps md (loop_body rec step s).
Proof. intros Hs s. unfold loop_body. log_auto. Qed.
End LogParser.


Lemma recLog_stuck md : recLog md stuck.
Proof. constructor; intros; intros p a p' _ E; discriminate. Qed.

Lemma recLog_fns_at md fuel : recLog md (fns_at fuel).
Proof.
  induction fuel as [|n IH]; [apply recLog_stuck|].
  simpl. constructor; simpl; intros.
  - apply lkeeps_next_body; assumption.
  - apply lkeeps_doHeredocs_body; assumption.
  - apply lkeeps_stmts_body; assumption.
  - apply lkeeps_getStmt_body; assumption.
  - apply lkeeps_gotStmtPipe_body; assumption.
  - apply lkeeps_wordPart_body; assumption.
  - apply lkeeps_arithmExpr_body; assumption.
  - apply lkeeps_arithmExprBase_body; assumption.
  - apply lkeeps_testExpr_body; assumption.
  - apply lkeeps_loop_body; assumption.
Qed.

(** Every run of [Parse] that returned kept the chain of errors. *)
Lemma Parse_log (fuel : nat) (srcs name : string) (md : ParseMode)
      (r : parsed) (p : parser) :
  Parse fuel srcs name md = Ok r p -> snd r = err p /\ logInv md p.
Proof.
  intros H.
  destruct (Parse_trace _ _ _ _ H)
    as (fl & p1 & p2 & p3 & _ & _ & Hr & N & St & M3 & R3 & L3 & D).
  split; [exact Hr|].
  pose proof (recLog_fns_at md fuel) as G.
  assert (I0 : logInv md (initOf srcs name md)).
  { split; [vm_compute; reflexivity|]. split; [vm_compute; reflexivity|].
    intros _. vm_compute. constructor. }
  pose proof (@lg_next _ _ G _ _ _ I0 N) as I1.
  pose proof (@lg_stmts _ _ G [] _ _ _ I1 St) as I2.
  assert (I3 : logInv md p3).
  { unfold logInv in *. rewrite M3, R3, L3. exact I2. }
  destruct (isNone (err p3)); simpl in D.
  - exact (@lg_doHeredocs _ _ G _ _ _ I3 D).
  - injection D as <-. exact I3.
Qed.

(** C2, as amended.  [errPass] never overwrites a stored error: with
    an error stored it leaves the struct untouched; with none stored
    it stores and records the error, moves the cursor to the end of
    the input and sets the token to EOF, after which every token read
    leaves the token at EOF.  In every run of [Parse] that returns,
    the error returned is the one the struct holds at the end, and it
    closes the chain of the errors recorded during the run: a nil
    error means none was recorded; otherwise the error returned is
    the last one recorded, and every error recorded after the first
    is the matching error of a [((] or [$((] fallback.  So the error
    returned is the first one recorded unless such a fallback replaced
    it. *)
Theorem errPass_keeps_first_error :
  (forall (e e0 : ParseError) (p : parser),
      err p = Some e0 -> errPass e p = Ok tt p) /\
  (forall (e : ParseError) (p : parser),
      err p = None ->
      exists p', errPass e p = Ok tt p' /\
                 err p' = Some e /\ errLog p' = (errLog p ++ [e])%list /\
                 npos p' = srcLen p' /\ tok p' = _EOF /\
                 forall fuel, f_next (fns_at (S fuel)) p' = Ok tt p') /\
  (forall fuel srcs name md r p,
      Parse fuel srcs name md = Ok r p ->
      snd r = err p /\ errChain (snd r) (errLog p)).
Proof.
  split; [|split].
  - intros e e0 p H. unfold errPass, bind, get. rewrite H. reflexivity.
  - intros e p H. unfold errPass, bind, get. rewrite H.
    eexists. split; [reflexivity|].
    split; [reflexivity|]. split; [reflexivity|].
    split; [reflexivity|]. split; [reflexivity|].
    intros fuel. apply next_body_at_EOF. reflexivity.
  - intros fuel srcs name md r p H.
    destruct (Parse_log _ _ _ _ H) as (Hr & _ & Hc & _).
    split; [exact Hr|]. rewrite Hr. exact Hc.
Qed.

(** On [foo )] one error is recorded and returned; a later error
    leaves it in place.  On [((foo] the fallback records a second
    one, which is returned. *)
Lemma errPass_keeps_first_error_witness :
  let run := Parse 64 "foo )" "" 0 in
  let run2 := Parse 64 "((foo" "" 0 in
  let p := parserOf run in
  let e := mkParseError (mkPosition 0 1 1) "" "late" in
  run = Ok (resultOf run) p /\
  errorsOf run = ["1:5: a command can only contain words and redirects"] /\
  errPass e p = Ok tt p /\
  (exists p', errPass e newParser = Ok tt p' /\ err p' = Some e /\
              errLog p' = [e] /\
              npos p' = srcLen p' /\ tok p' = _EOF /\
              forall fuel, f_next (fns_at (S fuel)) p' = Ok tt p') /\
  (snd (resultOf run) = err p /\
   errChain (snd (resultOf run)) (errLog p)) /\
  errorsOf run2 = ["1:2: reached EOF without matching ( with )";
                   "1:1: reached EOF without matching (( with ))"] /\
  (snd (resultOf run2) = err (parserOf run2) /\
   errChain (snd (resultOf run2)) (errLog (parserOf run2))).
Proof.
  intros run run2 p e.
  assert (E : run = Ok (resultOf run) p) by (vm_compute; reflexivity).
  assert (E2 : run2 = Ok (resultOf run2) (parserOf run2))
    by (vm_compute; reflexivity).
  destruct errPass_keeps_first_error as (K1 & K2 & K3).
  split; [exact E|]. split; [vm_compute; reflexivity|].
  split; [|split; [|split; [|split]]].
  - eapply K1. vm_compute. reflexivity.
  - apply (K2 e newParser). reflexivity.
  - exact (K3 64%nat "foo )" "" 0 _ _ E).
  - vm_compute. reflexivity.
  - exact (K3 64%nat "((foo" "" 0 _ _ E2).
Defined.

(** ** What [gotStmtPipe] builds at a word *)

Ltac kind_of H :=
  chase H; prims_in H; inversion H; subst; reflexivity.

Section Kinds.
Variable rec : fns.

Lemma block_builds c p p' : block rec p = Ok c p' -> builds HBlock c = true.
Proof. intros H. unfold block in H. kind_of H. Qed.

Lemma ifClause_builds c p p' : ifClause rec p = Ok c p' -> builds HIf c = true.
Proof. intros H. unfold ifClause in H. kind_of H. Qed.

Lemma whileClause_builds c p p' :
  whileClause rec p = Ok c p' -> builds HWhile c = true.
Proof. intros H. unfold whileClause in H. kind_of H. Qed.

Lemma untilClause_builds c p p' :
  untilClause rec p = Ok c p' -> builds HUntil c = true.
Proof. intros H. unfold untilClause in H. kind_of H. Qed.

Lemma forClause_builds c p p' : forClause rec p = Ok c p' -> builds HFor c = true.
Proof. intros H. unfold forClause in H. kind_of H. Qed.

Lemma caseClause_builds c p p' :
  caseClause rec p = Ok c p' -> builds HCase c = true.
Proof. intros H. unfold caseClause in H. kind_of H. Qed.

Lemma testClause_builds c p p' :
  testClause rec p = Ok c p' -> builds HTest c = true.
Proof. intros H. unfold testClause in H. kind_of H. Qed.

Lemma declClause_builds c p p' :
  declClause rec p = Ok c p' -> builds HDecl c = true.
Proof. intros H. unfold declClause in H. kind_of H. Qed.

Lemma evalClause_builds c p p' :
  evalClause rec p = Ok c p' -> builds HEval c = true.
Proof. intros H. unfold evalClause in H. kind_of H. Qed.

Lemma coprocClause_builds c p p' :
  coprocClause rec p = Ok c p' -> builds HCoproc c = true.
Proof. intros H. unfold coprocClause in H. kind_of H. Qed.

Lemma letClause_builds c p p' :
  letClause rec p = Ok c p' -> builds HLet c = true.
Proof. intros H. unfold letClause in H. kind_of H. Qed.

Lemma funcDecl_builds name ps c p p' :
  funcDecl rec name ps p = Ok c p' ->
  c = FuncDecl ps (negb (ps =? ValuePos name)) name
        match c with FuncDecl _ _ _ b => b | _ => None end.
Proof. intros H. unfold funcDecl in H. chase H. prims_in H. inversion H; subst. reflexivity. Qed.

Lemma bashFuncDecl_builds c p p' :
  bashFuncDecl rec p = Ok c p' -> builds HFunction c = true.
Proof.
  intros H. unfold bashFuncDecl in H. chase H.
  all: apply funcDecl_builds in H; rewrite H; reflexivity.
Qed.

End Kinds.

Lemma callExpr_builds fuel s w c s' p p' :
  callExpr (fns_at fuel) s w p = Ok (c, s') p' -> builds HWord c = true.
Proof.
  intros H. unfold callExpr in H.
  match type of H with
  | @f_loop _ _ _ ?step _ _ = _ =>
      pose proof (@loop_inv fuel _ _ step (fun _ _ => True)
                    (fun r _ => builds HWord (fst r) = true)) as L
  end.
  cbv beta in L.
  assert (G := fun Hs => L Hs (s, [w]) p I).
  clear L. rewrite H in G. apply G. clear.
  intros [s1 args1] q _.
  match goal with
  | |- match ?m with _ => _ end =>
      destruct m as [[[s2 a2]|[c2 s2]] q'| |] eqn:E
  end; try exact I.
  cbv beta iota zeta in E. chase E; prims_in E; inversion E; reflexivity.
Qed.

Lemma stmtCmd_stmtAddRedir (x : RedirPtr) (s : Stmt) :
  stmtCmd (stmtAddRedir x s) = stmtCmd s.
Proof. destruct s. reflexivity. Qed.

Lemma stmtCmd_stmtSetCmd (c : option Command) (s : Stmt) :
  stmtCmd (stmtSetCmd c s) = c.
Proof. destruct s. reflexivity. Qed.

Lemma headStmt_builds (h : head) (c : Command) (s : Stmt) :
  stmtCmd s = Some c -> builds h c = true -> stmtCmd (headStmt s) = Some c.
Proof.
  intros Hs Hb. unfold headStmt. rewrite Hs.
  destruct c; try exact Hs. destruct h; discriminate.
Qed.

(** The command [gotStmtPipe] builds at a literal word is the one of
    the head that [cmdHead] gives the word. *)
Lemma gotStmtPipe_dispatch (fuel : nat) (s s' : Stmt) (p p' : parser) :
  gotStmtPipe_body (fns_at fuel) s p = Ok (Some s') p' ->
  tok p = _LitWord ->
  cmdHead (bash p) (val p) <> HRbrace ->
  exists c, stmtCmd (headStmt s') = Some c /\
            builds (cmdHead (bash p) (val p)) c = true.
Proof.
  intros H Ht Hh. unfold gotStmtPipe_body in H.
  binv H as p0 q0 E0. unfold get in E0. inversion E0; subst; clear E0.
  binv H as r q1 E1. rewrite Ht in E1. cbn [tokEq tokCode Pos.eqb] in E1.
  cbv iota in E1.
  assert (R : exists s1 c, r = inl s1 /\ stmtCmd s1 = Some c /\
                           builds (cmdHead (bash q0) (val q0)) c = true).
  { destruct (cmdHead (bash q0) (val q0)) eqn:Hc; try congruence;
      try (binv E1 as c q E; prims_in E1; inversion E1; subst;
           eexists; exists c; split; [reflexivity|];
           split; [apply stmtCmd_stmtSetCmd|]).
    - exact (block_builds _ _ E).
    - exact (ifClause_builds _ _ E).
    - exact (whileClause_builds _ _ E).
    - exact (untilClause_builds _ _ E).
    - exact (forClause_builds _ _ E).
    - exact (caseClause_builds _ _ E).
    - exact (testClause_builds _ _ E).
    - exact (declClause_builds _ _ E).
    - exact (evalClause_builds _ _ E).
    - exact (coprocClause_builds _ _ E).
    - exact (letClause_builds _ _ E).
    - exact (bashFuncDecl_builds _ _ E).
    - binv E1 as name q2 E2. binv E1 as u3 q3 E3. binv E1 as g q4 E4.
      destruct g.
      + binv E1 as u5 q5 E5. binv E1 as c q6 E6. prims_in E1.
        inversion E1; subst.
        eexists; exists c; split; [reflexivity|].
        split; [apply stmtCmd_stmtSetCmd|].
        apply funcDecl_builds in E6. rewrite E6. simpl.
        rewrite Z.eqb_refl. reflexivity.
      + binv E1 as cs q5 E5. destruct cs as [c s2]. prims_in E1.
        inversion E1; subst.
        eexists; exists c; split; [reflexivity|].
        split; [apply stmtCmd_stmtSetCmd|].
        exact (callExpr_builds _ _ _ _ E5). }
  destruct R as (s1 & c & -> & Hs1 & Hb).
  binv H as s2 q2 E2.
  assert (Hs2 : stmtCmd s2 = Some c).
  { match type of E2 with
    | @f_loop _ _ _ ?step _ _ = _ =>
        pose proof (@loop_inv fuel _ _ step
                      (fun st _ => stmtCmd st = Some c)
                      (fun r _ => stmtCmd r = Some c)) as L
    end.
    cbv beta in L.
    assert (G := fun Hs => L Hs s1 q1 Hs1).
    clear L. rewrite E2 in G. apply G. clear - c.
    intros st q Hst.
    match goal with
    | |- match ?m with _ => _ end =>
        destruct m as [[st2|st2] q'| |] eqn:E
    end; try exact I; cbv beta iota zeta in E.
    - binv E as p1 q3 E3. destruct (negb (newLine p1) && peekRedir p1).
      + binv E as st3 q4 E4. apply doRedirect_result in E4. subst st3.
        prims_in E. inversion E; subst. rewrite stmtCmd_stmtAddRedir. exact Hst.
      + prims_in E. inversion E.
    - binv E as p1 q3 E3. destruct (negb (newLine p1) && peekRedir p1).
      + binv E as st3 q4 E4. prims_in E. inversion E.
      + prims_in E. inversion E; subst. exact Hst. }
  rewrite Hs2 in H. cbn [isNone andb] in H.
  binv H as p2 q3 E3.
  exists c. split; [|exact Hb].
  destruct (tokEq (tok p2) or || tokEq (tok p2) pipeAll).
  - chase H. prims_in H. inversion H; subst.
    unfold headStmt. cbn [stmtCmd]. exact Hs2.
  - prims_in H. inversion H; subst. exact (headStmt_builds _ _ Hs2 Hb).
Qed.

Lemma last_in_cons (A : Type) (l : list A) (d : A) : In (last l d) (d :: l).
Proof.
  induction l as [|a l IH]; [left; reflexivity|].
  destruct l as [|b l]; [right; left; reflexivity|].
  change (last (a :: b :: l) d) with (last (b :: l) d).
  destruct IH as [H|H]; [left; exact H | right; right; exact H].
Qed.

Ltac by_word v :=
  repeat match goal with
         | |- context [String.eqb v ?k] =>
             let E := fresh "E" in
             destruct (String.eqb v k) eqn:E;
             [ apply String.eqb_eq in E; subst v; vm_compute;
               intros; repeat split; congruence | ]
         end.

(** C8, as amended.  The dialects differ at the words [[[], [eval],
    [coproc], [let], [function] and the declare family: the switch of
    [gotStmtPipe] gives each of them the head of a clause of its own
    in the extended dialect and treats it as a plain word under
    [PosixConformant]; every other word gets the same head in both.
    The command [gotStmtPipe] builds at a literal word is the one of
    that head: the clause in the extended dialect, a call or a
    function declaration [foo()] under [PosixConformant].  And in a
    run of [Parse] under the extended dialect none of the four
    rejections of [PosixConformant] is ever recorded or returned. *)
Theorem dialects_differ_at :
  (forall v, bashWord v = true ->
             cmdHead false v = HWord /\ bashHead (cmdHead true v) = true) /\
  (forall v, bashWord v = false -> cmdHead true v = cmdHead false v) /\
  (forall fuel s s' p p',
      gotStmtPipe_body (fns_at fuel) s p = Ok (Some s') p' ->
      tok p = _LitWord ->
      cmdHead (bash p) (val p) <> HRbrace ->
      exists c, stmtCmd (headStmt s') = Some c /\
                builds (cmdHead (bash p) (val p)) c = true) /\
  (forall fuel srcs name md r p,
      Z.land md PosixConformant = 0 ->
      Parse fuel srcs name md = Ok r p ->
      Forall (fun e => bashFeature (EText e) = false) (errLog p) /\
      forall e, snd r = Some e -> bashFeature (EText e) = false).
Proof.
  split; [|split; [|split]].
  - intros v. unfold bashWord, cmdHead, bashDeclareWord, strIn.
    cbn [existsb]. by_word v. cbn. intros H. discriminate.
  - intros v. unfold bashWord, cmdHead, bashDeclareWord, strIn.
    cbn [existsb]. by_word v. intros _. reflexivity.
  - intros fuel s s' p p' H Ht Hh. exact (@gotStmtPipe_dispatch _ _ _ _ _ H Ht Hh).
  - intros fuel srcs name md r p Hb H.
    destruct (Parse_log _ _ _ _ H) as (Hr & _ & Hc & Hf).
    specialize (Hf Hb). split; [exact Hf|].
    intros e He. rewrite Hr in He. rewrite He in Hc.
    destruct Hc as (e0 & rest & Hl & <- & _).
    rewrite Hl in Hf. rewrite Forall_forall in Hf.
    apply Hf. apply last_in_cons.
Qed.

(** The words [let] and [echo]; [let x] at the head of a command in
    both dialects; and the run on [let] in the extended dialect, whose
    error is not a rejection of [PosixConformant]. *)
Lemma dialects_differ_at_witness :
  (cmdHead false "let" = HWord /\ bashHead (cmdHead true "let") = true) /\
  cmdHead true "echo" = cmdHead false "echo" /\
  (exists s' p' c,
      gotStmtPipe_body (fns_at 16) (newStmt 1) (startOf 16 "let x" 0)
      = Ok (Some s') p' /\
      stmtCmd (headStmt s') = Some c /\ builds HLet c = true) /\
  (exists s' p' c,
      gotStmtPipe_body (fns_at 16) (newStmt 1)
        (startOf 16 "let x" PosixConformant)
      = Ok (Some s') p' /\
      stmtCmd (headStmt s') = Some c /\ builds HWord c = true) /\
  (exists r p e,
      Parse 64 "let" "" 0 = Ok r p /\ snd r = Some e /\
      bashFeature (EText e) = false).
Proof.
  destruct dialects_differ_at as (K1 & K2 & K3 & K4).
  split; [exact (K1 "let" eq_refl)|].
  split; [exact (K2 "echo" eq_refl)|].
  split; [|split].
  - destruct (gotStmtPipe_body (fns_at 16) (newStmt 1) (startOf 16 "let x" 0))
      as [[s'|] p'| |] eqn:E; try (vm_compute in E; discriminate).
    destruct (K3 _ _ _ _ _ E) as (c & Hc & Hb);
      [vm_compute; reflexivity | vm_compute; discriminate |].
    exists s', p', c. split; [reflexivity|]. split; [exact Hc | exact Hb].
  - destruct (gotStmtPipe_body (fns_at 16) (newStmt 1)
                (startOf 16 "let x" PosixConformant))
      as [[s'|] p'| |] eqn:E; try (vm_compute in E; discriminate).
    destruct (K3 _ _ _ _ _ E) as (c & Hc & Hb);
      [vm_compute; reflexivity | vm_compute; discriminate |].
    exists s', p', c. split; [reflexivity|]. split; [exact Hc | exact Hb].
  - destruct (Parse 64 "let" "" 0) as [[fl [e|]] p| |] eqn:E;
      try (vm_compute in E; discriminate).
    exists (fl, Some e), p, e. split; [reflexivity|]. split; [reflexivity|].
    exact (proj2 (K4 64%nat "let" "" 0 _ _ eq_refl E) e eq_refl).
Defined.
